(** * RandUnuran: the JNI bridge between SSJ random streams and UNURAN

    A shallow embedding of [randvar/c/RandUnuran.c].  The C functions become
    computations in a state-and-failure monad over an explicit machine state:
    the C statics of the file, the C heap, the part of the Java heap the
    bridge touches, the pending Java exception and a trace of the calls that
    cross the boundary.  A computation that dereferences an invalid pointer,
    reads outside an array or calls JNI in a way the JNI specification
    forbids has no result ([None]). *)

From Stdlib Require Import ZArith String Floats.PrimFloat.
From stdpp Require Import gmap strings list.
Local Open Scope Z_scope.

(** ** Scalar types

    Pointers, [jlong] handles and JNI references are integers with [0] for
    [NULL].  A [jdouble] is a binary64 float; the bridge only moves doubles
    around and never computes on them.  C [int] arithmetic is done on [Z]:
    the only arithmetic in the file is the index [start+i] and the cursor
    increment, neither of which is the subject of a property below. *)

Abbreviation jdouble := float.
Abbreviation NULL := 0.

(** The three functions a [GenParams.unif] pointer can hold. *)
Inductive callback := fn_unif | fn_cons | fn_arr.

(** The only function ever given to [unur_urng_new]. *)
Inductive urng_fn := fn_unif_wrapper.

Global Instance callback_eq_dec : EqDecision callback.
Proof. solve_decision. Defined.

(** ** C structures *)

Module GenParams.
Record t := mk {
  env : Z;            (* JNIEnv* env *)
  rsObj : Z;          (* jobject rsObj *)
  u : jdouble;        (* double u *)
  urng : Z;           (* UNUR_URNG* urng *)
  junifArray : Z;     (* jdoubleArray junifArray *)
  unifArray : Z;      (* jdouble* unifArray: the array whose elements it addresses *)
  n : Z;              (* int n *)
  nextIndex : Z;      (* int nextIndex *)
  unif : callback     (* the function pointer unif *)
}.
Definition set_env v g :=
  mk v (rsObj g) (u g) (urng g) (junifArray g) (unifArray g) (n g) (nextIndex g) (unif g).
Definition set_rsObj v g :=
  mk (env g) v (u g) (urng g) (junifArray g) (unifArray g) (n g) (nextIndex g) (unif g).
Definition set_u v g :=
  mk (env g) (rsObj g) v (urng g) (junifArray g) (unifArray g) (n g) (nextIndex g) (unif g).
Definition set_urng v g :=
  mk (env g) (rsObj g) (u g) v (junifArray g) (unifArray g) (n g) (nextIndex g) (unif g).
Definition set_junifArray v g :=
  mk (env g) (rsObj g) (u g) (urng g) v (unifArray g) (n g) (nextIndex g) (unif g).
Definition set_unifArray v g :=
  mk (env g) (rsObj g) (u g) (urng g) (junifArray g) v (n g) (nextIndex g) (unif g).
Definition set_n v g :=
  mk (env g) (rsObj g) (u g) (urng g) (junifArray g) (unifArray g) v (nextIndex g) (unif g).
Definition set_nextIndex v g :=
  mk (env g) (rsObj g) (u g) (urng g) (junifArray g) (unifArray g) (n g) v (unif g).
Definition set_unif v g :=
  mk (env g) (rsObj g) (u g) (urng g) (junifArray g) (unifArray g) (n g) (nextIndex g) v.
End GenParams.

Module UrngWithParams.
Record t := mk {
  urng : Z;           (* UNUR_URNG* urng *)
  params : Z          (* struct GenParams* params *)
}.
Definition set_urng v g := mk v (params g).
Definition set_params v g := mk (urng g) v.
End UrngWithParams.

Module NativeParams.
Record t := mk {
  unurgen : Z;                    (* UNUR_GEN* unurgen *)
  objMainStream : Z;              (* jobject objMainStream *)
  objAuxStream : Z;               (* jobject objAuxStream *)
  urng : UrngWithParams.t;        (* struct UrngWithParams urng *)
  urng_aux : UrngWithParams.t;    (* struct UrngWithParams urng_aux *)
  dim : Z                         (* int dim *)
}.
Definition set_unurgen v g :=
  mk v (objMainStream g) (objAuxStream g) (urng g) (urng_aux g) (dim g).
Definition set_objMainStream v g :=
  mk (unurgen g) v (objAuxStream g) (urng g) (urng_aux g) (dim g).
Definition set_objAuxStream v g :=
  mk (unurgen g) (objMainStream g) v (urng g) (urng_aux g) (dim g).
Definition set_urng v g :=
  mk (unurgen g) (objMainStream g) (objAuxStream g) v (urng_aux g) (dim g).
Definition set_urng_aux v g :=
  mk (unurgen g) (objMainStream g) (objAuxStream g) (urng g) v (dim g).
Definition set_dim v g :=
  mk (unurgen g) (objMainStream g) (objAuxStream g) (urng g) (urng_aux g) v.
(** [memset (np, 0, sizeof (struct NativeParams))] *)
Definition zero := mk 0 0 0 (UrngWithParams.mk 0 0) (UrngWithParams.mk 0 0) 0.
End NativeParams.

(** [UNUR_URNG] is declared in [unuran.h], which is not part of the sources.
    The header comment of [RandUnuran.c] describes it: "a data structure
    containing a function pointer and a parameter pointer.  When a uniform
    must be generated, the function pointed to by the pointer getrand is
    called using the parameter pointer params." *)
Module UNUR_URNG.
Record t := mk {
  getrand : urng_fn;
  params : Z
}.
End UNUR_URNG.

(** ** The native sampling engine, as seen from the bridge

    What a call into UNURAN does is not in the sources.  Seen from the bridge
    such a call is a finite dialogue: the engine draws uniforms from its main
    or from its auxiliary uniform generator as often as its algorithm needs,
    then returns. *)
Inductive Sampler (R : Type) : Type :=
  | Return (r : R)
  | Urng (k : jdouble → Sampler R)
  | UrngAux (k : jdouble → Sampler R).
Arguments Return {R} r.
Arguments Urng {R} k.
Arguments UrngAux {R} k.

(** [UNUR_GEN] is opaque to the bridge.  It remembers the two uniform
    generators last attached with [unur_chg_urng] and [unur_chg_urng_aux]. *)
Module UNUR_GEN.
Record t (D : Type) := mk {
  data : D;
  urng : Z;
  urng_aux : Z
}.
Arguments mk {D} _ _ _.
Arguments data {D} _.
Arguments urng {D} _.
Arguments urng_aux {D} _.
Definition set_data {D} (v : D) (g : t D) := mk v (urng g) (urng_aux g).
Definition set_urng {D} v (g : t D) := mk (data g) v (urng_aux g).
Definition set_urng_aux {D} v (g : t D) := mk (data g) (urng g) v.
End UNUR_GEN.

(** Everything the bridge takes from outside [RandUnuran.c]: the UNURAN
    entry points it calls, the content of memory just returned by [malloc],
    and the [JNIEnv] pointer of the calling thread. *)
Class Platform := {
  gendata : Type;
  (** [unur_str2gen]: may draw uniforms during setup; [inl errno] on failure *)
  str2gen : string → Sampler (Z + gendata);
  get_strerror : Z → string;
  get_dimension : gendata → Z;
  sample_discr : gendata → Sampler (Z * gendata);
  sample_cont : gendata → Sampler (jdouble * gendata);
  sample_vec : gendata → Sampler (list jdouble * gendata);
  (** indeterminate content of a fresh [struct GenParams] *)
  uninitialized : GenParams.t;
  (** the one valid [JNIEnv*] *)
  thread_env : Z
}.

(** ** The Java side *)

(** Modelled from the spec: the managed uniform-source stream, which the
    sources only call through JNI.  The spec gives it two operations,
    [nextDouble() -> double] and [fillBuffer(buffer, offset, count)]; a
    deterministic stream is the sequence of numbers it will produce and the
    position reached so far. *)
Record RandomStream := mkStream {
  rs_seq : nat → jdouble;
  rs_pos : nat
}.

Definition rs_next (rs : RandomStream) : jdouble := rs_seq rs (rs_pos rs).
Definition rs_advance (k : nat) (rs : RandomStream) : RandomStream :=
  mkStream (rs_seq rs) (rs_pos rs + k)%nat.
(** the next [k] numbers of the stream *)
Definition rs_take (k : nat) (rs : RandomStream) : list jdouble :=
  map (rs_seq rs) (seq (rs_pos rs) k).
(** [fillBuffer(a, start, k)]: overwrite [a[start..start+k)] *)
Definition rs_fill (rs : RandomStream) (start k : nat) (a : list jdouble)
  : list jdouble :=
  take start a ++ rs_take k rs ++ drop (start + k)%nat a.

Inductive JObject :=
  | JRandUnuran (nativeParams : Z) (mainStream auxStream : Z)
  | JRandomStream (rs : RandomStream)
  | JDoubleArray (a : list jdouble)
  | JIntArray (a : list Z).

Record jthrowable := mkThrowable {
  ex_class : string;
  ex_message : string
}.

(** Calls that cross the boundary, newest first in the trace. *)
Inductive Event :=
  | EvNextDouble (rs : Z)
  | EvNextArrayOfDouble (rs : Z) (a : Z) (start n : Z)
  | EvGetArrayElements (a : Z)
  | EvReleaseArrayElements (a : Z)
  | EvSampleDiscr (gen : Z)
  | EvSampleCont (gen : Z)
  | EvSampleVec (gen : Z).

Definition is_refill (e : Event) : bool :=
  match e with EvNextArrayOfDouble _ _ _ _ => true | _ => false end.
Definition is_nextDouble (e : Event) : bool :=
  match e with EvNextDouble _ => true | _ => false end.
Definition is_sample (e : Event) : bool :=
  match e with
  | EvSampleDiscr _ | EvSampleCont _ | EvSampleVec _ => true
  | _ => false
  end.

(** ** Machine state *)

Section Model.
Context `{P : Platform}.

Inductive Block :=
  | BGenParams (g : GenParams.t)
  | BNativeParams (np : NativeParams.t)
  | BUrng (r : UNUR_URNG.t)
  | BGen (g : UNUR_GEN.t gendata)
  | BChars (s : string).

Record State := mkState {
  (* statics of RandUnuran.c; a jfieldID or jmethodID is the name it was
     resolved from, None while it is still 0 *)
  fidNativeParams : option string;
  fidMainStream : option string;
  fidAuxStream : option string;
  midNextDouble : option string;
  midNextArrayOfDouble : option string;
  default_urng : UrngWithParams.t;
  (* globals of the UNURAN library *)
  unur_default_urng : Z;
  unur_errno : Z;
  (* the C heap; addresses are handed out in increasing order from brk *)
  heap : gmap Z Block;
  brk : Z;
  (* the JVM *)
  jheap : gmap Z JObject;
  globalrefs : list Z;
  pending : option jthrowable;
  (* whether the next calls that may return NULL succeed (all do once the
     list is used up) *)
  oracle : list bool;
  trace : list Event
}.

Definition set_fidNativeParams v s :=
  mkState v (fidMainStream s) (fidAuxStream s) (midNextDouble s)
    (midNextArrayOfDouble s) (default_urng s) (unur_default_urng s)
    (unur_errno s) (heap s) (brk s) (jheap s) (globalrefs s) (pending s)
    (oracle s) (trace s).
Definition set_fidMainStream v s :=
  mkState (fidNativeParams s) v (fidAuxStream s) (midNextDouble s)
    (midNextArrayOfDouble s) (default_urng s) (unur_default_urng s)
    (unur_errno s) (heap s) (brk s) (jheap s) (globalrefs s) (pending s)
    (oracle s) (trace s).
Definition set_fidAuxStream v s :=
  mkState (fidNativeParams s) (fidMainStream s) v (midNextDouble s)
    (midNextArrayOfDouble s) (default_urng s) (unur_default_urng s)
    (unur_errno s) (heap s) (brk s) (jheap s) (globalrefs s) (pending s)
    (oracle s) (trace s).
Definition set_midNextDouble v s :=
  mkState (fidNativeParams s) (fidMainStream s) (fidAuxStream s) v
    (midNextArrayOfDouble s) (default_urng s) (unur_default_urng s)
    (unur_errno s) (heap s) (brk s) (jheap s) (globalrefs s) (pending s)
    (oracle s) (trace s).
Definition set_midNextArrayOfDouble v s :=
  mkState (fidNativeParams s) (fidMainStream s) (fidAuxStream s)
    (midNextDouble s) v (default_urng s) (unur_default_urng s)
    (unur_errno s) (heap s) (brk s) (jheap s) (globalrefs s) (pending s)
    (oracle s) (trace s).
Definition set_default_urng v s :=
  mkState (fidNativeParams s) (fidMainStream s) (fidAuxStream s)
    (midNextDouble s) (midNextArrayOfDouble s) v (unur_default_urng s)
    (unur_errno s) (heap s) (brk s) (jheap s) (globalrefs s) (pending s)
    (oracle s) (trace s).
Definition set_unur_default_urng v s :=
  mkState (fidNativeParams s) (fidMainStream s) (fidAuxStream s)
    (midNextDouble s) (midNextArrayOfDouble s) (default_urng s) v
    (unur_errno s) (heap s) (brk s) (jheap s) (globalrefs s) (pending s)
    (oracle s) (trace s).
Definition set_unur_errno v s :=
  mkState (fidNativeParams s) (fidMainStream s) (fidAuxStream s)
    (midNextDouble s) (midNextArrayOfDouble s) (default_urng s)
    (unur_default_urng s) v (heap s) (brk s) (jheap s) (globalrefs s)
    (pending s) (oracle s) (trace s).
Definition set_heap v s :=
  mkState (fidNativeParams s) (fidMainStream s) (fidAuxStream s)
    (midNextDouble s) (midNextArrayOfDouble s) (default_urng s)
    (unur_default_urng s) (unur_errno s) v (brk s) (jheap s) (globalrefs s)
    (pending s) (oracle s) (trace s).
Definition set_brk v s :=
  mkState (fidNativeParams s) (fidMainStream s) (fidAuxStream s)
    (midNextDouble s) (midNextArrayOfDouble s) (default_urng s)
    (unur_default_urng s) (unur_errno s) (heap s) v (jheap s) (globalrefs s)
    (pending s) (oracle s) (trace s).
Definition set_jheap v s :=
  mkState (fidNativeParams s) (fidMainStream s) (fidAuxStream s)
    (midNextDouble s) (midNextArrayOfDouble s) (default_urng s)
    (unur_default_urng s) (unur_errno s) (heap s) (brk s) v (globalrefs s)
    (pending s) (oracle s) (trace s).
Definition set_globalrefs v s :=
  mkState (fidNativeParams s) (fidMainStream s) (fidAuxStream s)
    (midNextDouble s) (midNextArrayOfDouble s) (default_urng s)
    (unur_default_urng s) (unur_errno s) (heap s) (brk s) (jheap s) v
    (pending s) (oracle s) (trace s).
Definition set_pending v s :=
  mkState (fidNativeParams s) (fidMainStream s) (fidAuxStream s)
    (midNextDouble s) (midNextArrayOfDouble s) (default_urng s)
    (unur_default_urng s) (unur_errno s) (heap s) (brk s) (jheap s)
    (globalrefs s) v (oracle s) (trace s).
Definition set_oracle v s :=
  mkState (fidNativeParams s) (fidMainStream s) (fidAuxStream s)
    (midNextDouble s) (midNextArrayOfDouble s) (default_urng s)
    (unur_default_urng s) (unur_errno s) (heap s) (brk s) (jheap s)
    (globalrefs s) (pending s) v (trace s).
Definition set_trace v s :=
  mkState (fidNativeParams s) (fidMainStream s) (fidAuxStream s)
    (midNextDouble s) (midNextArrayOfDouble s) (default_urng s)
    (unur_default_urng s) (unur_errno s) (heap s) (brk s) (jheap s)
    (globalrefs s) (pending s) (oracle s) v.

(** ** The monad: state, and failure for undefined behaviour *)

Definition M (A : Type) : Type := State → option (A * State).

Definition ret {A} (a : A) : M A := λ s, Some (a, s).
Definition bind {A B} (m : M A) (k : A → M B) : M B :=
  λ s, match m s with Some (a, s') => k a s' | None => None end.
Definition crash {A} : M A := λ _, None.
Definition gets {A} (f : State → A) : M A := λ s, Some (f s, s).
Definition modify (f : State → State) : M unit := λ s, Some (tt, f s).

#[global] Instance M_ret : MRet M := @ret.
#[global] Instance M_bind : MBind M := λ A B k m, bind m k.

Definition log (e : Event) : M unit := modify (λ s, set_trace (e :: trace s) s).

(** The environment decides whether the next fallible call succeeds. *)
Definition next_ok : M bool := λ s,
  match oracle s with
  | [] => Some (true, s)
  | b :: o => Some (b, set_oracle o s)
  end.

(** ** The C heap *)

Definition alloc (b : Block) : M Z := λ s,
  Some (brk s, set_brk (brk s + 1) (set_heap (<[brk s := b]> (heap s)) s)).

Definition malloc (b : Block) : M Z :=
  ok ← next_ok; if ok : bool then alloc b else ret NULL.

Definition free (p : Z) : M unit := λ s,
  if decide (p = NULL) then Some (tt, s)
  else match heap s !! p with
       | Some _ => Some (tt, set_heap (delete p (heap s)) s)
       | None => None
       end.

Definition load_GenParams (p : Z) : M GenParams.t := λ s,
  match heap s !! p with Some (BGenParams g) => Some (g, s) | _ => None end.
Definition upd_GenParams (p : Z) (f : GenParams.t → GenParams.t) : M unit :=
  λ s, match heap s !! p with
       | Some (BGenParams g) =>
           Some (tt, set_heap (<[p := BGenParams (f g)]> (heap s)) s)
       | _ => None
       end.

Definition load_NativeParams (p : Z) : M NativeParams.t := λ s,
  match heap s !! p with Some (BNativeParams g) => Some (g, s) | _ => None end.
Definition upd_NativeParams (p : Z) (f : NativeParams.t → NativeParams.t)
  : M unit :=
  λ s, match heap s !! p with
       | Some (BNativeParams g) =>
           Some (tt, set_heap (<[p := BNativeParams (f g)]> (heap s)) s)
       | _ => None
       end.

Definition load_Urng (p : Z) : M UNUR_URNG.t := λ s,
  match heap s !! p with Some (BUrng g) => Some (g, s) | _ => None end.

Definition load_Gen (p : Z) : M (UNUR_GEN.t gendata) := λ s,
  match heap s !! p with Some (BGen g) => Some (g, s) | _ => None end.
Definition upd_Gen (p : Z) (f : UNUR_GEN.t gendata → UNUR_GEN.t gendata)
  : M unit :=
  λ s, match heap s !! p with
       | Some (BGen g) => Some (tt, set_heap (<[p := BGen (f g)]> (heap s)) s)
       | _ => None
       end.

Definition load_Chars (p : Z) : M string := λ s,
  match heap s !! p with Some (BChars g) => Some (g, s) | _ => None end.
Definition upd_Chars (p : Z) (f : string → string) : M unit :=
  λ s, match heap s !! p with
       | Some (BChars g) => Some (tt, set_heap (<[p := BChars (f g)]> (heap s)) s)
       | _ => None
       end.

(** A [struct UrngWithParams*] points at the static [default_urng] or at one
    of the two members of a [struct NativeParams]. *)
Inductive UrngLoc :=
  | at_default_urng
  | at_urng (np : Z)
  | at_urng_aux (np : Z).

Definition load_UrngWithParams (l : UrngLoc) : M UrngWithParams.t :=
  match l with
  | at_default_urng => gets default_urng
  | at_urng np => g ← load_NativeParams np; ret (NativeParams.urng g)
  | at_urng_aux np => g ← load_NativeParams np; ret (NativeParams.urng_aux g)
  end.

Definition upd_UrngWithParams (l : UrngLoc)
    (f : UrngWithParams.t → UrngWithParams.t) : M unit :=
  match l with
  | at_default_urng => modify (λ s, set_default_urng (f (default_urng s)) s)
  | at_urng np =>
      upd_NativeParams np (λ g, NativeParams.set_urng (f (NativeParams.urng g)) g)
  | at_urng_aux np =>
      upd_NativeParams np
        (λ g, NativeParams.set_urng_aux (f (NativeParams.urng_aux g)) g)
  end.

(** ** JNI

    The functions of the JNI function table the bridge uses.  Each one is
    called through a [JNIEnv*], which must be the thread's; those that the
    JNI specification does not allow while an exception is pending fail when
    one is.  Array elements are pinned: the [jdouble*] obtained from an
    array addresses the array itself, so it is represented by the array's
    reference, and releasing it has no effect on the contents.  A field or
    method access through an id that was never resolved has no result. *)

Definition stateful {A} (f : State → option (A * State)) : M A := f.

Definition jni (env : Z) : M unit :=
  if decide (env = thread_env) then ret tt else crash.

Definition no_pending : M unit := λ s,
  match pending s with None => Some (tt, s) | Some _ => None end.

Definition ExceptionOccurred (env : Z) : M (option jthrowable) :=
  jni env;; gets pending.

Definition ExceptionClear (env : Z) : M unit :=
  jni env;; modify (set_pending None).

Definition Throw (env : Z) (ex : jthrowable) : M unit :=
  jni env;; modify (set_pending (Some ex)).

Definition ThrowNew (env : Z) (cls : string) (msg : string) : M unit :=
  jni env;; no_pending;; modify (set_pending (Some (mkThrowable cls msg))).

(** A lookup returns [None] for NULL and then leaves the JVM's own error
    pending. *)
Definition lookup (env : Z) (err name : string) : M (option string) :=
  jni env;; no_pending;;
  ok ← next_ok;
  if ok : bool then ret (Some name)
  else modify (set_pending (Some (mkThrowable err name)));; ret None.

Definition FindClass (env : Z) (name : string) : M (option string) :=
  lookup env "java/lang/NoClassDefFoundError" name.
Definition GetFieldID (env : Z) (cls name sig : string) : M (option string) :=
  lookup env "java/lang/NoSuchFieldError" name.
Definition GetMethodID (env : Z) (cls name sig : string) : M (option string) :=
  lookup env "java/lang/NoSuchMethodError" name.

Definition GetLongField (env : Z) (obj : Z) (fid : option string) : M Z :=
  jni env;; no_pending;;
  stateful (λ s, match fid, jheap s !! obj with
       | Some f, Some (JRandUnuran np _ _) =>
           if decide (f = "nativeParams") then Some (np, s) else None
       | _, _ => None
       end).

Definition SetLongField (env : Z) (obj : Z) (fid : option string) (v : Z)
  : M unit :=
  jni env;; no_pending;;
  stateful (λ s, match fid, jheap s !! obj with
       | Some f, Some (JRandUnuran _ ms aux) =>
           if decide (f = "nativeParams")
           then Some (tt, set_jheap (<[obj := JRandUnuran v ms aux]> (jheap s)) s)
           else None
       | _, _ => None
       end).

Definition GetObjectField (env : Z) (obj : Z) (fid : option string) : M Z :=
  jni env;; no_pending;;
  stateful (λ s, match fid, jheap s !! obj with
       | Some f, Some (JRandUnuran _ ms aux) =>
           if decide (f = "mainStream") then Some (ms, s)
           else if decide (f = "auxStream") then Some (aux, s)
           else None
       | _, _ => None
       end).

(** The Java string is given by its content; the UTF copy may fail. *)
Definition GetStringUTFChars (env : Z) (str : string) : M (option string) :=
  jni env;; no_pending;;
  ok ← next_ok;
  if ok : bool then ret (Some str)
  else modify (set_pending
                 (Some (mkThrowable "java/lang/OutOfMemoryError" "")));;
       ret None.
Definition ReleaseStringUTFChars (env : Z) (str utf : string) : M unit :=
  jni env.

Definition NewGlobalRef (env : Z) (ob : Z) : M Z :=
  jni env;; no_pending;;
  ok ← next_ok;
  if ok : bool then modify (λ s, set_globalrefs (ob :: globalrefs s) s);; ret ob
  else ret NULL.

Fixpoint remove_one (r : Z) (l : list Z) : option (list Z) :=
  match l with
  | [] => None
  | x :: l' => if decide (x = r) then Some l'
               else l'' ← remove_one r l'; Some (x :: l'')
  end.

Definition DeleteGlobalRef (env : Z) (r : Z) : M unit :=
  jni env;;
  stateful (λ s, match remove_one r (globalrefs s) with
       | Some l => Some (tt, set_globalrefs l s)
       | None => None
       end).

Definition GetArrayLength (env : Z) (a : Z) : M Z :=
  jni env;; no_pending;;
  stateful (λ s, match jheap s !! a with
       | Some (JDoubleArray l) => Some (Z.of_nat (length l), s)
       | Some (JIntArray l) => Some (Z.of_nat (length l), s)
       | _ => None
       end).

Definition GetDoubleArrayElements (env : Z) (a : Z) : M Z :=
  jni env;; no_pending;;
  stateful (λ s, match jheap s !! a with
       | Some (JDoubleArray _) =>
           Some (a, set_trace (EvGetArrayElements a :: trace s) s)
       | _ => None
       end).
Definition ReleaseDoubleArrayElements (env : Z) (a elems : Z) (mode : Z)
  : M unit :=
  jni env;; log (EvReleaseArrayElements a).

Definition GetIntArrayElements (env : Z) (a : Z) : M Z :=
  jni env;; no_pending;;
  stateful (λ s, match jheap s !! a with
       | Some (JIntArray _) =>
           Some (a, set_trace (EvGetArrayElements a :: trace s) s)
       | _ => None
       end).
Definition ReleaseIntArrayElements (env : Z) (a elems : Z) (mode : Z)
  : M unit :=
  jni env;; log (EvReleaseArrayElements a).

(** [elems[i]] for a [jdouble*] *)
Definition read_double (elems : Z) (i : Z) : M jdouble := λ s,
  match jheap s !! elems with
  | Some (JDoubleArray l) =>
      if decide (0 ≤ i)
      then match l !! Z.to_nat i with Some x => Some (x, s) | None => None end
      else None
  | _ => None
  end.

(** [elems[i] = x] for a [jint*] *)
Definition write_int (elems : Z) (i : Z) (x : Z) : M unit := λ s,
  match jheap s !! elems with
  | Some (JIntArray l) =>
      if decide (0 ≤ i ∧ i < Z.of_nat (length l))
      then Some (tt, set_jheap
                       (<[elems := JIntArray (<[Z.to_nat i := x]> l)]> (jheap s)) s)
      else None
  | _ => None
  end.

(** [elems[i] = x] for a [jdouble*] *)
Definition write_double (elems : Z) (i : Z) (x : jdouble) : M unit := λ s,
  match jheap s !! elems with
  | Some (JDoubleArray l) =>
      if decide (0 ≤ i ∧ i < Z.of_nat (length l))
      then Some (tt, set_jheap
                       (<[elems := JDoubleArray (<[Z.to_nat i := x]> l)]> (jheap s)) s)
      else None
  | _ => None
  end.

(** [CallDoubleMethod (env, obj, mid)], used for [RandomStream.nextDouble] *)
Definition CallDoubleMethod (env : Z) (obj : Z) (mid : option string)
  : M jdouble :=
  jni env;; no_pending;;
  stateful (λ s, match mid, jheap s !! obj with
       | Some m, Some (JRandomStream rs) =>
           if decide (m = "nextDouble")
           then Some (rs_next rs,
                      set_trace (EvNextDouble obj :: trace s)
                        (set_jheap (<[obj := JRandomStream (rs_advance 1 rs)]>
                                      (jheap s)) s))
           else None
       | _, _ => None
       end).

(** [CallVoidMethod (env, obj, mid, a, start, n)], used for
    [RandomStream.nextArrayOfDouble]; a call outside the array has no
    result. *)
Definition CallVoidMethod (env : Z) (obj : Z) (mid : option string)
    (a : Z) (start n : Z) : M unit :=
  jni env;; no_pending;;
  stateful (λ s, match mid, jheap s !! obj, jheap s !! a with
       | Some m, Some (JRandomStream rs), Some (JDoubleArray l) =>
           if decide (m = "nextArrayOfDouble")
           then if decide (0 ≤ start ∧ 0 ≤ n ∧ start + n ≤ Z.of_nat (length l))
                then Some (tt,
                  set_trace (EvNextArrayOfDouble obj a start n :: trace s)
                    (set_jheap
                       (<[a := JDoubleArray
                                 (rs_fill rs (Z.to_nat start) (Z.to_nat n) l)]>
                          (<[obj := JRandomStream (rs_advance (Z.to_nat n) rs)]>
                             (jheap s))) s))
                else None
           else None
       | _, _, _ => None
       end).

(** ** The UNURAN entry points the bridge calls *)

Definition unur_urng_new (fn : urng_fn) (params : Z) : M Z :=
  malloc (BUrng (UNUR_URNG.mk fn params)).

Definition unur_urng_free (urng : Z) : M unit :=
  load_Urng urng;; free urng.

Definition unur_set_default_urng (urng : Z) : M unit :=
  modify (set_unur_default_urng urng).

Definition unur_chg_urng (gen urng : Z) : M unit :=
  upd_Gen gen (UNUR_GEN.set_urng urng).

Definition unur_chg_urng_aux (gen urng : Z) : M unit :=
  upd_Gen gen (UNUR_GEN.set_urng_aux urng).

Definition unur_get_dimension (gen : Z) : M Z :=
  g ← load_Gen gen; ret (get_dimension (UNUR_GEN.data g)).

Definition unur_get_strerror (errno : Z) : string := get_strerror errno.

Definition unur_free (gen : Z) : M unit :=
  if decide (gen = NULL) then ret tt else load_Gen gen;; free gen.

(** ** The uniform generators of [RandUnuran.c] *)

Definition unif (params : Z) : M jdouble :=
  p ← load_GenParams params;
  mid ← gets midNextDouble;
  CallDoubleMethod (GenParams.env p) (GenParams.rsObj p) mid.

Definition cons (params : Z) : M jdouble :=
  upd_GenParams params (GenParams.set_unif fn_unif);;
  p ← load_GenParams params;
  ret (GenParams.u p).

Definition arr (params : Z) : M jdouble :=
  p ← load_GenParams params;
  (if decide (GenParams.nextIndex p >= GenParams.n p) then
     (* a refill is needed *)
     ReleaseDoubleArrayElements (GenParams.env p) (GenParams.junifArray p)
       (GenParams.unifArray p) 0;;
     mid ← gets midNextArrayOfDouble;
     CallVoidMethod (GenParams.env p) (GenParams.rsObj p) mid
       (GenParams.junifArray p) 0 (GenParams.n p);;
     elems ← GetDoubleArrayElements (GenParams.env p) (GenParams.junifArray p);
     upd_GenParams params (GenParams.set_unifArray elems);;
     upd_GenParams params (GenParams.set_nextIndex 0)
   else ret tt);;
  (* gets a uniform *)
  p ← load_GenParams params;
  upd_GenParams params (GenParams.set_nextIndex (GenParams.nextIndex p + 1));;
  read_double (GenParams.unifArray p) (GenParams.nextIndex p).

Definition unif_wrapper (p : Z) : M jdouble :=
  params ← load_GenParams p;
  match GenParams.unif params with
  | fn_unif => unif p
  | fn_cons => cons p
  | fn_arr => arr p
  end.

(** The engine asks a [UNUR_URNG] for a uniform: it calls [getrand] on
    [params]. *)
Definition urng_sample (urng : Z) : M jdouble :=
  r ← load_Urng urng;
  match UNUR_URNG.getrand r with
  | fn_unif_wrapper => unif_wrapper (UNUR_URNG.params r)
  end.

(** One call into the engine, drawing from the two generators attached. *)
Fixpoint run {R} (t : Sampler R) (urng urng_aux : Z) : M R :=
  match t with
  | Return r => ret r
  | Urng k => x ← urng_sample urng; run (k x) urng urng_aux
  | UrngAux k => x ← urng_sample urng_aux; run (k x) urng urng_aux
  end.

Definition unur_str2gen (str : string) : M Z :=
  d ← gets unur_default_urng;
  r ← run (str2gen str) d d;
  match r with
  | inl errno => modify (set_unur_errno errno);; ret NULL
  | inr g => alloc (BGen (UNUR_GEN.mk g d d))
  end.

Definition unur_sample_discr (gen : Z) : M Z :=
  g ← load_Gen gen;
  log (EvSampleDiscr gen);;
  r ← run (sample_discr (UNUR_GEN.data g)) (UNUR_GEN.urng g) (UNUR_GEN.urng_aux g);
  upd_Gen gen (UNUR_GEN.set_data (snd r));;
  ret (fst r).

Definition unur_sample_cont (gen : Z) : M jdouble :=
  g ← load_Gen gen;
  log (EvSampleCont gen);;
  r ← run (sample_cont (UNUR_GEN.data g)) (UNUR_GEN.urng g) (UNUR_GEN.urng_aux g);
  upd_Gen gen (UNUR_GEN.set_data (snd r));;
  ret (fst r).

Fixpoint write_doubles (elems : Z) (i : Z) (xs : list jdouble) : M unit :=
  match xs with
  | [] => ret tt
  | x :: xs' => write_double elems i x;; write_doubles elems (i + 1) xs'
  end.

Definition unur_sample_vec (gen : Z) (vec : Z) : M unit :=
  g ← load_Gen gen;
  log (EvSampleVec gen);;
  r ← run (sample_vec (UNUR_GEN.data g)) (UNUR_GEN.urng g) (UNUR_GEN.urng_aux g);
  upd_Gen gen (UNUR_GEN.set_data (snd r));;
  write_doubles vec 0 (fst r).

(** ** Creation and destruction of a JNI generator structure *)

Definition urng_jni_destroy (gen : option UrngLoc) : M unit :=
  match gen with
  | None => ret tt
  | Some gen =>
      g ← load_UrngWithParams gen;
      (if decide (UrngWithParams.params g ≠ NULL) then
         free (UrngWithParams.params g);;
         upd_UrngWithParams gen (UrngWithParams.set_params NULL)
       else ret tt);;
      g ← load_UrngWithParams gen;
      (if decide (UrngWithParams.urng g ≠ NULL) then
         unur_urng_free (UrngWithParams.urng g);;
         upd_UrngWithParams gen (UrngWithParams.set_urng NULL)
       else ret tt)
  end.

Definition urng_jni_create (gen : UrngLoc) : M unit :=
  p ← malloc (BGenParams uninitialized);
  upd_UrngWithParams gen (UrngWithParams.set_params p);;
  if decide (p = NULL) then urng_jni_destroy (Some gen)
  else
    upd_GenParams p (GenParams.set_unif fn_unif);;
    r ← unur_urng_new fn_unif_wrapper p;
    upd_UrngWithParams gen (UrngWithParams.set_urng r);;
    if decide (r = NULL) then urng_jni_destroy (Some gen)
    else ret tt.

(** ** Class initialization *)

Definition UnuranException : string := "umontreal/ssj/randvar/UnuranException".

(** [if (!id && !(id = lookup)) return 0;]: true when the id is available *)
Definition cached (get : State → option string)
    (set : option string → State → State) (look : M (option string))
  : M bool :=
  cur ← gets get;
  match cur with
  | Some _ => ret true
  | None => r ← look; modify (set r);; ret (bool_decide (is_Some r))
  end.

Definition initClass (env : Z) : M Z :=
  d ← gets default_urng;
  ok ← (if decide (UrngWithParams.urng d = NULL) then
          urng_jni_create at_default_urng;;
          d ← gets default_urng;
          if decide (UrngWithParams.urng d = NULL) then
            cls ← FindClass env UnuranException;
            match cls with
            | None => ret false
            | Some cls =>
                ThrowNew env cls "cannot create default uniform rng";;
                ret false
            end
          else unur_set_default_urng (UrngWithParams.urng d);; ret true
        else ret true);
  if negb ok then ret 0 else
  cls ← FindClass env "umontreal/ssj/randvar/RandUnuran";
  match cls with None => ret 0 | Some cls =>
  ok ← cached fidNativeParams set_fidNativeParams
         (GetFieldID env cls "nativeParams" "J");
  if negb ok then ret 0 else
  ok ← cached fidMainStream set_fidMainStream
         (GetFieldID env cls "mainStream" "Lumontreal/ssj/rng/RandomStream;");
  if negb ok then ret 0 else
  ok ← cached fidAuxStream set_fidAuxStream
         (GetFieldID env cls "auxStream" "Lumontreal/ssj/rng/RandomStream;");
  if negb ok then ret 0 else
  cls ← FindClass env "umontreal/ssj/rng/RandomStream";
  match cls with None => ret 0 | Some cls =>
  ok ← cached midNextDouble set_midNextDouble
         (GetMethodID env cls "nextDouble" "()D");
  if negb ok then ret 0 else
  ok ← cached midNextArrayOfDouble set_midNextArrayOfDouble
         (GetMethodID env cls "nextArrayOfDouble" "([DII)V");
  if negb ok then ret 0 else
  ret 1
  end end.

(** ** The native methods of [umontreal.ssj.randvar.RandUnuran] *)

Definition Java_umontreal_ssj_randvar_RandUnuran_close (env obj : Z)
  : M unit :=
  (* no exception may be pending before calling JNI *)
  ex ← ExceptionOccurred env;
  ExceptionClear env;;
  fid ← gets fidNativeParams;
  np ← GetLongField env obj fid;
  if decide (np = NULL) then
    match ex with Some ex => Throw env ex | None => ret tt end
  else
    (* We free memory previously allocated *)
    urng_jni_destroy (Some (at_urng_aux np));;
    urng_jni_destroy (Some (at_urng np));;
    g ← load_NativeParams np;
    unur_free (NativeParams.unurgen g);;
    (if decide (NativeParams.objAuxStream g ≠ NULL)
     then DeleteGlobalRef env (NativeParams.objAuxStream g) else ret tt);;
    (if decide (NativeParams.objMainStream g ≠ NULL)
     then DeleteGlobalRef env (NativeParams.objMainStream g) else ret tt);;
    free np;;
    fid ← gets fidNativeParams;
    SetLongField env obj fid 0;;
    (* an exception pending at the beginning is thrown back *)
    match ex with Some ex => Throw env ex | None => ret tt end.

Definition Java_umontreal_ssj_randvar_RandUnuran_init (env obj : Z)
    (genStr : string) : M unit :=
  ok ← initClass env;
  if decide (ok = 0) then ret tt else
  (* Allocate the object parameter block; the memset is folded in *)
  np ← malloc (BNativeParams NativeParams.zero);
  if decide (np = NULL) then
    expcls ← FindClass env UnuranException;
    match expcls with
    | None => ret tt
    | Some expcls => ThrowNew env expcls "cannot create UNURAN generator"
    end
  else
  (* save the parameters with the Java object *)
  fid ← gets fidNativeParams;
  SetLongField env obj fid np;;
  (* Set the parameter block for the default generator. *)
  d ← gets default_urng;
  upd_GenParams (UrngWithParams.params d) (GenParams.set_env env);;
  fid ← gets fidMainStream;
  ob ← GetObjectField env obj fid;
  upd_GenParams (UrngWithParams.params d) (GenParams.set_rsObj ob);;
  (* create the UNURAN generator *)
  genStrUTF ← GetStringUTFChars env genStr;
  match genStrUTF with
  | None => Java_umontreal_ssj_randvar_RandUnuran_close env obj
  | Some genStrUTF =>
  gen ← unur_str2gen genStrUTF;
  upd_NativeParams np (NativeParams.set_unurgen gen);;
  ReleaseStringUTFChars env genStr genStrUTF;;
  if decide (gen = NULL) then
    (* The creation of the generator has failed. *)
    errno ← gets unur_errno;
    let unurerr := unur_get_strerror errno in
    let errmsg := "cannot create UNURAN generator: " in
    expcls ← FindClass env UnuranException;
    match expcls with
    | None => Java_umontreal_ssj_randvar_RandUnuran_close env obj
    | Some expcls =>
        errstr ← malloc (BChars "");
        if decide (errstr = NULL) then
          Java_umontreal_ssj_randvar_RandUnuran_close env obj;;
          ThrowNew env expcls errmsg
        else
          upd_Chars errstr (λ _, errmsg);;
          upd_Chars errstr (λ s, s +:+ unurerr);;
          Java_umontreal_ssj_randvar_RandUnuran_close env obj;;
          msg ← load_Chars errstr;
          ThrowNew env expcls msg;;
          free errstr
    end
  else
  dim ← unur_get_dimension gen;
  upd_NativeParams np (NativeParams.set_dim dim);;
  (* now we must setup the uniform generator *)
  urng_jni_create (at_urng np);;
  g ← load_NativeParams np;
  if decide (UrngWithParams.urng (NativeParams.urng g) = NULL) then
    Java_umontreal_ssj_randvar_RandUnuran_close env obj;;
    expcls ← FindClass env UnuranException;
    match expcls with
    | None => ret tt
    | Some expcls =>
        ThrowNew env expcls "cannot allocate uniform random number generator"
    end
  else
  upd_GenParams (UrngWithParams.params (NativeParams.urng g))
    (GenParams.set_urng (UrngWithParams.urng (NativeParams.urng g)));;
  unur_chg_urng (NativeParams.unurgen g) (UrngWithParams.urng (NativeParams.urng g));;
  (* now we must setup the auxiliary uniform generator *)
  urng_jni_create (at_urng_aux np);;
  g ← load_NativeParams np;
  if decide (UrngWithParams.urng (NativeParams.urng_aux g) = NULL) then
    Java_umontreal_ssj_randvar_RandUnuran_close env obj;;
    expcls ← FindClass env UnuranException;
    match expcls with
    | None => ret tt
    | Some expcls =>
        ThrowNew env expcls
          "cannot allocate uniform auxiliary random number generator."
    end
  else
  unur_chg_urng_aux (NativeParams.unurgen g)
    (UrngWithParams.urng (NativeParams.urng_aux g));;
  (* Get reference to the RandomStream mainStream. *)
  fid ← gets fidMainStream;
  ob ← GetObjectField env obj fid;
  if decide (ob = NULL) then
    Java_umontreal_ssj_randvar_RandUnuran_close env obj
  else
  r ← NewGlobalRef env ob;
  upd_NativeParams np (NativeParams.set_objMainStream r);;
  if decide (r = NULL) then
    Java_umontreal_ssj_randvar_RandUnuran_close env obj
  else
  upd_GenParams (UrngWithParams.params (NativeParams.urng g))
    (GenParams.set_rsObj r);;
  (* Get reference to the RandomStream auxStream. *)
  fid ← gets fidAuxStream;
  ob ← GetObjectField env obj fid;
  if decide (ob = NULL) then
    Java_umontreal_ssj_randvar_RandUnuran_close env obj
  else
  r ← NewGlobalRef env ob;
  upd_NativeParams np (NativeParams.set_objAuxStream r);;
  if decide (r = NULL) then
    Java_umontreal_ssj_randvar_RandUnuran_close env obj
  else
  upd_GenParams (UrngWithParams.params (NativeParams.urng_aux g))
    (GenParams.set_rsObj r)
  end.

Definition Java_umontreal_ssj_randvar_RandUnuran_getRandDisc
    (env obj : Z) (u : jdouble) (_np : Z) : M Z :=
  let np := _np in
  g ← load_NativeParams np;
  upd_GenParams (UrngWithParams.params (NativeParams.urng g))
    (GenParams.set_env env);;
  (* the pregenerated uniform goes into the u field *)
  upd_GenParams (UrngWithParams.params (NativeParams.urng g))
    (GenParams.set_u u);;
  upd_GenParams (UrngWithParams.params (NativeParams.urng g))
    (GenParams.set_unif fn_cons);;
  upd_GenParams (UrngWithParams.params (NativeParams.urng_aux g))
    (GenParams.set_env env);;
  upd_GenParams (UrngWithParams.params (NativeParams.urng_aux g))
    (GenParams.set_unif fn_unif);;
  unur_sample_discr (NativeParams.unurgen g).

Definition Java_umontreal_ssj_randvar_RandUnuran_getRandCont
    (env obj : Z) (u : jdouble) (_np : Z) : M jdouble :=
  let np := _np in
  g ← load_NativeParams np;
  upd_GenParams (UrngWithParams.params (NativeParams.urng g))
    (GenParams.set_env env);;
  upd_GenParams (UrngWithParams.params (NativeParams.urng g))
    (GenParams.set_u u);;
  upd_GenParams (UrngWithParams.params (NativeParams.urng g))
    (GenParams.set_unif fn_cons);;
  upd_GenParams (UrngWithParams.params (NativeParams.urng_aux g))
    (GenParams.set_env env);;
  upd_GenParams (UrngWithParams.params (NativeParams.urng_aux g))
    (GenParams.set_unif fn_unif);;
  unur_sample_cont (NativeParams.unurgen g).

Definition Java_umontreal_ssj_randvar_RandUnuran_getRandVec
    (env obj : Z) (u : jdouble) (_np : Z) (jvec : Z) : M unit :=
  let np := _np in
  g ← load_NativeParams np;
  upd_GenParams (UrngWithParams.params (NativeParams.urng g))
    (GenParams.set_u u);;
  upd_GenParams (UrngWithParams.params (NativeParams.urng g))
    (GenParams.set_unif fn_cons);;
  upd_GenParams (UrngWithParams.params (NativeParams.urng g))
    (GenParams.set_env env);;
  upd_GenParams (UrngWithParams.params (NativeParams.urng_aux g))
    (GenParams.set_env env);;
  upd_GenParams (UrngWithParams.params (NativeParams.urng_aux g))
    (GenParams.set_unif fn_unif);;
  (* size checking is required because a VM crash would occur if the array
     is too short *)
  len ← GetArrayLength env jvec;
  if decide (len < NativeParams.dim g) then
    expcls ← FindClass env UnuranException;
    match expcls with
    | None => ret tt
    | Some expcls => ThrowNew env expcls "array too short"
    end
  else
    vec ← GetDoubleArrayElements env jvec;
    if decide (vec = NULL) then ret tt
    else
      unur_sample_vec (NativeParams.unurgen g) vec;;
      ReleaseDoubleArrayElements env jvec vec 0.

(** [for (i = ...; i < n; i++) v[start+i] = unur_sample_discr (np->unurgen);]
    with [k] iterations left *)
Fixpoint discr_loop (k : nat) (np v start i : Z) : M unit :=
  match k with
  | O => ret tt
  | S k' =>
      g ← load_NativeParams np;
      x ← unur_sample_discr (NativeParams.unurgen g);
      write_int v (start + i) x;;
      discr_loop k' np v start (i + 1)
  end.

Fixpoint cont_loop (k : nat) (np v start i : Z) : M unit :=
  match k with
  | O => ret tt
  | S k' =>
      g ← load_NativeParams np;
      x ← unur_sample_cont (NativeParams.unurgen g);
      write_double v (start + i) x;;
      cont_loop k' np v start (i + 1)
  end.

Definition Java_umontreal_ssj_randvar_RandUnuran_getRandDiscArray
    (env obj : Z) (_np : Z) (ju juaux jv : Z) (start n : Z) : M unit :=
  let np := _np in
  g ← load_NativeParams np;
  let gp := UrngWithParams.params (NativeParams.urng g) in
  upd_GenParams gp (GenParams.set_env env);;
  upd_GenParams gp (GenParams.set_junifArray ju);;
  u ← GetDoubleArrayElements env ju;
  upd_GenParams gp (GenParams.set_unifArray u);;
  (* schedule an array refill *)
  upd_GenParams gp (GenParams.set_nextIndex n);;
  upd_GenParams gp (GenParams.set_n n);;
  upd_GenParams (UrngWithParams.params (NativeParams.urng g))
    (GenParams.set_unif fn_arr);;
  let gp := UrngWithParams.params (NativeParams.urng_aux g) in
  uaux ← (if decide (juaux ≠ NULL) then
            upd_GenParams gp (GenParams.set_env env);;
            upd_GenParams gp (GenParams.set_junifArray juaux);;
            uaux ← GetDoubleArrayElements env juaux;
            upd_GenParams gp (GenParams.set_unifArray uaux);;
            upd_GenParams gp (GenParams.set_nextIndex n);;
            upd_GenParams gp (GenParams.set_n n);;
            upd_GenParams (UrngWithParams.params (NativeParams.urng g))
              (GenParams.set_unif fn_arr);;
            ret uaux
          else
            (* the same array for both: the parameter blocks must be equal *)
            g' ← load_NativeParams np;
            upd_UrngWithParams (at_urng_aux np)
              (UrngWithParams.set_params
                 (UrngWithParams.params (NativeParams.urng g')));;
            ret NULL);
  v ← GetIntArrayElements env jv;
  discr_loop (Z.to_nat n) np v start 0;;
  ReleaseIntArrayElements env jv v 0;;
  (if decide (juaux ≠ NULL) then
     ReleaseDoubleArrayElements env juaux uaux 0
   else
     upd_UrngWithParams (at_urng_aux np) (UrngWithParams.set_params gp));;
  ReleaseDoubleArrayElements env ju u 0.

Definition Java_umontreal_ssj_randvar_RandUnuran_getRandContArray
    (env obj : Z) (_np : Z) (ju juaux jv : Z) (start n : Z) : M unit :=
  let np := _np in
  g ← load_NativeParams np;
  let gp := UrngWithParams.params (NativeParams.urng g) in
  upd_GenParams gp (GenParams.set_env env);;
  upd_GenParams gp (GenParams.set_junifArray ju);;
  u ← GetDoubleArrayElements env ju;
  upd_GenParams gp (GenParams.set_unifArray u);;
  upd_GenParams gp (GenParams.set_nextIndex n);;
  upd_GenParams gp (GenParams.set_n n);;
  upd_GenParams (UrngWithParams.params (NativeParams.urng g))
    (GenParams.set_unif fn_arr);;
  let gp := UrngWithParams.params (NativeParams.urng_aux g) in
  uaux ← (if decide (juaux ≠ NULL) then
            upd_GenParams gp (GenParams.set_env env);;
            upd_GenParams gp (GenParams.set_junifArray juaux);;
            uaux ← GetDoubleArrayElements env juaux;
            upd_GenParams gp (GenParams.set_unifArray uaux);;
            upd_GenParams gp (GenParams.set_nextIndex n);;
            upd_GenParams gp (GenParams.set_n n);;
            upd_GenParams (UrngWithParams.params (NativeParams.urng g))
              (GenParams.set_unif fn_arr);;
            ret uaux
          else
            g' ← load_NativeParams np;
            upd_UrngWithParams (at_urng_aux np)
              (UrngWithParams.set_params
                 (UrngWithParams.params (NativeParams.urng g')));;
            ret NULL);
  v ← GetDoubleArrayElements env jv;
  cont_loop (Z.to_nat n) np v start 0;;
  ReleaseDoubleArrayElements env jv v 0;;
  (if decide (juaux ≠ NULL) then
     ReleaseDoubleArrayElements env juaux uaux 0
   else
     upd_UrngWithParams (at_urng_aux np) (UrngWithParams.set_params gp));;
  ReleaseDoubleArrayElements env ju u 0.

(** ** The initial state of a process and the moves of the Java side *)

(** Nothing has been resolved or allocated yet; the Java heap, the oracle
    and the trace are whatever they are. *)
Definition initial (jh : gmap Z JObject) (o : list bool) : State :=
  mkState None None None None None (UrngWithParams.mk NULL NULL) NULL 0
    ∅ 1 jh [] None o [].

End Model.

(** * Specification vocabulary *)

Section Logic.
Context `{P : Platform}.

(** [k] uniforms drawn in a row from the generator whose parameter block
    is [p], through the function UNURAN was given. *)
Fixpoint pulls (k : nat) (p : Z) : M (list jdouble) :=
  match k with
  | O => ret []
  | S k' => x ← unif_wrapper p; xs ← pulls k' p; ret (x :: xs)
  end.

(** The trace of one refill of the buffer [a] from the stream [rs]. *)
Definition refill_events (rs a n : Z) : list Event :=
  [EvGetArrayElements a; EvNextArrayOfDouble rs a 0 n; EvReleaseArrayElements a].

(** Total and partial correctness of a computation from a state. *)
Definition wp {A} (m : M A) (Q : A → State → Prop) (s : State) : Prop :=
  match m s with Some (a, s') => Q a s' | None => False end.
Definition wlp {A} (m : M A) (Q : A → State → Prop) (s : State) : Prop :=
  match m s with Some (a, s') => Q a s' | None => True end.

(** The delivery mode of the adapter whose parameter block is at [p]. *)
Definition mode (s : State) (p : Z) : option callback :=
  match heap s !! p with
  | Some (BGenParams g) => Some (GenParams.unif g)
  | _ => None
  end.

Definition native_params (s : State) (np : Z) : option NativeParams.t :=
  match heap s !! np with
  | Some (BNativeParams g) => Some g
  | _ => None
  end.

(** [np->urng_aux.params = np->urng.params] *)
Definition aliased (g : NativeParams.t) : NativeParams.t :=
  NativeParams.set_urng_aux
    (UrngWithParams.set_params
       (UrngWithParams.params (NativeParams.urng g)) (NativeParams.urng_aux g))
    g.


(** The field [nativeParams] of the Java object [obj]. *)
Definition handle_of (s : State) (obj : Z) : option Z :=
  match jheap s !! obj with
  | Some (JRandUnuran np _ _) => Some np
  | _ => None
  end.

(** ** What a call into the engine can change

    A draw changes the mode of a parameter block only from cached-value to
    call-through, and moves its cursor and element pointer; it advances
    streams and refills arrays in place. *)
Definition gp_step (g g' : GenParams.t) : Prop :=
  GenParams.env g' = GenParams.env g ∧
  GenParams.rsObj g' = GenParams.rsObj g ∧
  GenParams.u g' = GenParams.u g ∧
  GenParams.urng g' = GenParams.urng g ∧
  GenParams.junifArray g' = GenParams.junifArray g ∧
  GenParams.n g' = GenParams.n g ∧
  (GenParams.unif g' = GenParams.unif g ∨
   (GenParams.unif g = fn_cons ∧ GenParams.unif g' = fn_unif)).

Definition block_step (b b' : option Block) : Prop :=
  match b, b' with
  | Some (BGenParams g), Some (BGenParams g') => gp_step g g'
  | Some (BGen g), Some (BGen g') =>
      UNUR_GEN.urng g' = UNUR_GEN.urng g ∧
      UNUR_GEN.urng_aux g' = UNUR_GEN.urng_aux g
  | _, _ => b = b'
  end.

Definition jobj_step (o o' : option JObject) : Prop :=
  match o, o' with
  | Some (JRandomStream _), Some (JRandomStream _) => True
  | Some (JDoubleArray l), Some (JDoubleArray l') => length l' = length l
  | Some (JIntArray l), Some (JIntArray l') => length l' = length l
  | _, _ => o = o'
  end.

Record frame (s s' : State) : Prop := mkFrame {
  frame_fidNativeParams : fidNativeParams s' = fidNativeParams s;
  frame_fidMainStream : fidMainStream s' = fidMainStream s;
  frame_fidAuxStream : fidAuxStream s' = fidAuxStream s;
  frame_midNextDouble : midNextDouble s' = midNextDouble s;
  frame_midNextArrayOfDouble : midNextArrayOfDouble s' = midNextArrayOfDouble s;
  frame_default_urng : default_urng s' = default_urng s;
  frame_unur_default_urng : unur_default_urng s' = unur_default_urng s;
  frame_unur_errno : unur_errno s' = unur_errno s;
  frame_brk : brk s' = brk s;
  frame_globalrefs : globalrefs s' = globalrefs s;
  frame_pending : pending s' = pending s;
  frame_oracle : oracle s' = oracle s;
  frame_heap : ∀ a, block_step (heap s !! a) (heap s' !! a);
  frame_jheap : ∀ a, jobj_step (jheap s !! a) (jheap s' !! a)
}.



(** ** Well-formed states *)

Definition heap_wf (s : State) : Prop :=
  0 < brk s ∧ ∀ a, is_Some (heap s !! a) → 0 < a < brk s.

(** Both members null, or both pointing to live blocks of the right kind,
    the generator calling back with this parameter block. *)
Definition uwp_valid (s : State) (g : UrngWithParams.t) : Prop :=
  (UrngWithParams.urng g = NULL ∧ UrngWithParams.params g = NULL) ∨
  ((∃ gp, heap s !! UrngWithParams.params g = Some (BGenParams gp)) ∧
   heap s !! UrngWithParams.urng g =
     Some (BUrng (UNUR_URNG.mk fn_unif_wrapper (UrngWithParams.params g)))).

(** The invariant of adapter structures: one member is null exactly when
    the other is. *)
Definition uwp_iff (g : UrngWithParams.t) : Prop :=
  UrngWithParams.urng g ≠ NULL ↔ UrngWithParams.params g ≠ NULL.

Definition adapters_inv (s : State) : Prop :=
  0 < brk s ∧
  uwp_iff (default_urng s) ∧
  ∀ np g, heap s !! np = Some (BNativeParams g) →
          uwp_iff (NativeParams.urng g) ∧ uwp_iff (NativeParams.urng_aux g).

(** The global references after those of a handle have been deleted, the
    auxiliary stream's first. *)
Definition release_refs (g : NativeParams.t) (refs : list Z)
  : option (list Z) :=
  l ← (if decide (NativeParams.objAuxStream g ≠ NULL)
       then remove_one (NativeParams.objAuxStream g) refs else Some refs);
  if decide (NativeParams.objMainStream g ≠ NULL)
  then remove_one (NativeParams.objMainStream g) l else Some l.

(** The heap after the blocks of a handle have been freed. *)
Definition free_handle (np : Z) (g : NativeParams.t) (h : gmap Z Block)
  : gmap Z Block :=
  delete np
    (delete (NativeParams.unurgen g)
       (delete (UrngWithParams.urng (NativeParams.urng g))
          (delete (UrngWithParams.params (NativeParams.urng g))
             (delete (UrngWithParams.urng (NativeParams.urng_aux g))
                (delete (UrngWithParams.params (NativeParams.urng_aux g))
                   h))))).

(** What [close] needs of a handle, fully or partly constructed. *)
Definition handle_wf (s : State) (np : Z) : Prop :=
  ∃ g, heap s !! np = Some (BNativeParams g) ∧
       uwp_valid s (NativeParams.urng g) ∧
       uwp_valid s (NativeParams.urng_aux g) ∧
       (UrngWithParams.params (NativeParams.urng g) ≠ NULL →
        UrngWithParams.params (NativeParams.urng g)
          ≠ UrngWithParams.params (NativeParams.urng_aux g)) ∧
       (UrngWithParams.urng (NativeParams.urng g) ≠ NULL →
        UrngWithParams.urng (NativeParams.urng g)
          ≠ UrngWithParams.urng (NativeParams.urng_aux g)) ∧
       (NativeParams.unurgen g = NULL ∨
        ∃ d, heap s !! NativeParams.unurgen g = Some (BGen d)) ∧
       is_Some (release_refs g (globalrefs s)).

Definition close_pre (env obj : Z) (s : State) : Prop :=
  env = thread_env ∧
  fidNativeParams s = Some "nativeParams" ∧
  heap s !! NULL = None ∧
  ∃ np, handle_of s obj = Some np ∧ (np = NULL ∨ handle_wf s np).




(** ** Reachable states

    The Java side runs between native calls.  It cannot touch anything on
    the C side. *)
Definition java_step (s s' : State) : Prop :=
  fidNativeParams s' = fidNativeParams s ∧
  fidMainStream s' = fidMainStream s ∧
  fidAuxStream s' = fidAuxStream s ∧
  midNextDouble s' = midNextDouble s ∧
  midNextArrayOfDouble s' = midNextArrayOfDouble s ∧
  default_urng s' = default_urng s ∧
  unur_default_urng s' = unur_default_urng s ∧
  unur_errno s' = unur_errno s ∧
  heap s' = heap s ∧
  brk s' = brk s.

Inductive reachable : State → Prop :=
  | reach_initial jh o : reachable (initial jh o)
  | reach_java s s' : reachable s → java_step s s' → reachable s'
  | reach_init s s' env obj str :
      reachable s →
      Java_umontreal_ssj_randvar_RandUnuran_init env obj str s = Some (tt, s') →
      reachable s'
  | reach_close s s' env obj :
      reachable s →
      Java_umontreal_ssj_randvar_RandUnuran_close env obj s = Some (tt, s') →
      reachable s'
  | reach_getRandDisc s s' env obj u np r :
      reachable s →
      Java_umontreal_ssj_randvar_RandUnuran_getRandDisc env obj u np s
        = Some (r, s') →
      reachable s'
  | reach_getRandCont s s' env obj u np r :
      reachable s →
      Java_umontreal_ssj_randvar_RandUnuran_getRandCont env obj u np s
        = Some (r, s') →
      reachable s'
  | reach_getRandVec s s' env obj u np jvec :
      reachable s →
      Java_umontreal_ssj_randvar_RandUnuran_getRandVec env obj u np jvec s
        = Some (tt, s') →
      reachable s'
  | reach_getRandDiscArray s s' env obj np ju juaux jv start n :
      reachable s →
      Java_umontreal_ssj_randvar_RandUnuran_getRandDiscArray
        env obj np ju juaux jv start n s = Some (tt, s') →
      reachable s'
  | reach_getRandContArray s s' env obj np ju juaux jv start n :
      reachable s →
      Java_umontreal_ssj_randvar_RandUnuran_getRandContArray
        env obj np ju juaux jv start n s = Some (tt, s') →
      reachable s'.

(** A computation that keeps every state it reaches within the frame of
    the state it started from. *)
Definition framed {A} (m : M A) : Prop :=
  ∀ s0 s, frame s0 s → wlp m (λ _ s', frame s0 s') s.

(** A computation that maintains the invariant of adapter structures. *)
Definition keeps {A} (m : M A) : Prop :=
  ∀ s, adapters_inv s → wlp m (λ _ s', adapters_inv s') s.

(** The structure a [struct UrngWithParams*] points at. *)
Definition uwp_at (s : State) (l : UrngLoc) : option UrngWithParams.t :=
  match l with
  | at_default_urng => Some (default_urng s)
  | at_urng np => NativeParams.urng <$> native_params s np
  | at_urng_aux np => NativeParams.urng_aux <$> native_params s np
  end.

(** The state [close] leaves: the blocks and global references of the
    handle of [obj] are gone and the field [nativeParams] is null; a state
    in which [obj] has no handle is left as it is. *)
Definition close_state (obj : Z) (s : State) : State :=
  match jheap s !! obj with
  | Some (JRandUnuran np ms aux) =>
      match native_params s np with
      | Some g =>
          set_jheap (<[obj := JRandUnuran NULL ms aux]> (jheap s))
            (set_globalrefs
               (default (globalrefs s) (release_refs g (globalrefs s)))
               (set_heap (free_handle np g (heap s)) s))
      | None => s
      end
  | _ => s
  end.












End Logic.

(** * A test double for the engine and the Java side

    A fake engine that counts the samples it has produced, and a small
    Java heap: one managed object with two distinct streams, and the arrays
    the batch and vector calls are given. *)

Section Scenario.

Definition fake_platform : Platform := {|
  gendata := nat;
  (* setting up the generator draws one uniform; only "normal()" parses *)
  str2gen := λ str,
    if decide (str = "normal()") then Urng (λ _, Return (inr 0%nat))
    else Return (inl 51);
  get_strerror := λ _, "syntax error in string"%string;
  get_dimension := λ _, 2;
  (* one uniform from each source per discrete sample *)
  sample_discr := λ d, Urng (λ _, UrngAux (λ _, Return (Z.of_nat d, S d)));
  (* one uniform from the main source per continuous sample, returned as is *)
  sample_cont := λ d, Urng (λ x, Return (x, S d));
  (* two uniforms from the main source per vector *)
  sample_vec := λ d, Urng (λ x, Urng (λ y, Return ([x; y], S d)));
  uninitialized := GenParams.mk 0 0 0%float 0 0 0 0 0 fn_arr;
  thread_env := 1000
|}.

#[local] Existing Instance fake_platform.

Definition main_numbers (i : nat) : jdouble :=
  nth i [0.25; 0.75; 0.125; 0.5; 0.375; 0.625]%float 0.875%float.
Definition aux_numbers (i : nat) : jdouble :=
  nth i [0.0625; 0.1875; 0.3125; 0.4375]%float 0.5625%float.

(** object 100 is the [RandUnuran]; 200 and 201 its main and auxiliary
    streams; 300 and 301 arrays of uniforms; 400 and 401 output arrays for
    three discrete and three continuous variates; 500 a vector too short for
    dimension 2 *)
Definition test_jheap : gmap Z JObject :=
  <[100 := JRandUnuran 0 200 201]>
  (<[200 := JRandomStream (mkStream main_numbers 0)]>
  (<[201 := JRandomStream (mkStream aux_numbers 0)]>
  (<[300 := JDoubleArray [0; 0; 0]%float]>
  (<[301 := JDoubleArray [0; 0; 0]%float]>
  (<[400 := JIntArray [0; 0; 0]]>
  (<[401 := JDoubleArray [0; 0; 0]%float]>
  (<[500 := JDoubleArray [0%float]]> ∅))))))).

(** The state a computation ends in, or the state it started from. *)
Definition after {A} (m : M A) (s : State) : State :=
  match m s with Some (_, s') => s' | None => s end.

Definition fresh : State := initial test_jheap [].

(** The handle constructed from a valid spec: with the bump allocator the
    default generator gets blocks 1 and 2, the handle is block 3, its engine
    block 4, its primary adapter blocks 5 and 6 and its auxiliary adapter
    blocks 7 and 8. *)
Definition ready : State :=
  after (Java_umontreal_ssj_randvar_RandUnuran_init 1000 100 "normal()") fresh.

(** After one single-value sample both adapters have been given the
    environment. *)
Definition warm : State :=
  after (Java_umontreal_ssj_randvar_RandUnuran_getRandCont 1000 100 0.25 3) ready.

(** The first construction of the process, in which the allocation of the
    default generator's parameter block fails; then the Java side has taken
    the exception. *)
Definition failed_first_init : State :=
  set_pending None
    (after (Java_umontreal_ssj_randvar_RandUnuran_init 1000 100 "normal()")
       (initial test_jheap [false])).


(** The primary adapter of the handle, block 5, with the value 0.5 cached;
    and in array mode over array 300 with the cursor at the end. *)
Definition primed : State :=
  after (upd_GenParams 5
           (λ g, GenParams.set_unif fn_cons (GenParams.set_u 0.5 g))) warm.
Definition arrayed : State :=
  after (upd_GenParams 5
           (λ g, GenParams.set_unif fn_arr
                   (GenParams.set_n 3
                      (GenParams.set_nextIndex 3
                         (GenParams.set_junifArray 300
                            (GenParams.set_unifArray 300 g)))))) warm.

(** The block at an address, when it is of the expected kind. *)
Definition gen_params_at (s : State) (p : Z) : GenParams.t :=
  match heap s !! p with Some (BGenParams g) => g | _ => uninitialized end.
Definition native_params_at (s : State) (np : Z) : NativeParams.t :=
  default NativeParams.zero (native_params s np).
Definition gen_at (s : State) (gen : Z) : UNUR_GEN.t gendata :=
  match heap s !! gen with Some (BGen d) => d | _ => UNUR_GEN.mk 0%nat 0 0 end.

(** A call of [close] made while an exception is pending. *)
Definition thrown : jthrowable := mkThrowable "java/lang/Error" "stop".
Definition interrupted : State := set_pending (Some thrown) ready.

(** The class lookup of the next call fails. *)
Definition no_exception_class : State := set_oracle [false] ready.

End Scenario.

(** * Proofs *)

(** * Proofs *)

Section ProgramLogic.
Context `{P : Platform}.

(** ** Rules of the two program logics *)

Lemma wp_bind {A B} (m : M A) (k : A → M B) Q s :
  wp m (λ a s', wp (k a) Q s') s → wp (m ≫= k) Q s.
Proof.
  unfold wp, mbind, M_bind, bind. destruct (m s) as [[a s']|]; auto.
Qed.

Lemma wp_ret {A} (a : A) (Q : A → State → Prop) s : Q a s → wp (ret a) Q s.
Proof. auto. Qed.

Lemma wp_gets {A} (f : State → A) (Q : A → State → Prop) s :
  Q (f s) s → wp (gets f) Q s.
Proof. auto. Qed.

Lemma wp_modify f (Q : unit → State → Prop) s :
  Q tt (f s) → wp (modify f) Q s.
Proof. auto. Qed.

Lemma wp_log e (Q : unit → State → Prop) s :
  Q tt (set_trace (e :: trace s) s) → wp (log e) Q s.
Proof. auto. Qed.

Lemma wp_elim {A} (m : M A) Q s :
  wp m Q s → ∃ a s', m s = Some (a, s') ∧ Q a s'.
Proof. unfold wp. destruct (m s) as [[a s']|]; [eauto|tauto]. Qed.

Lemma wp_elim_val {A} (m : M A) (v : A) (Q : State → Prop) s :
  wp m (λ a s', a = v ∧ Q s') s → ∃ s', m s = Some (v, s') ∧ Q s'.
Proof.
  intros H. apply wp_elim in H as (a & s' & E & -> & H). eauto.
Qed.

Lemma wp_intro {A} (m : M A) (Q : A → State → Prop) s a s' :
  m s = Some (a, s') → Q a s' → wp m Q s.
Proof. unfold wp. intros ->. auto. Qed.

Lemma wp_mono {A} (m : M A) (Q Q' : A → State → Prop) s :
  wp m Q s → (∀ a s', Q a s' → Q' a s') → wp m Q' s.
Proof. unfold wp. destruct (m s) as [[a s']|]; auto. Qed.

Lemma wlp_bind {A B} (m : M A) (k : A → M B) Q s :
  wlp m (λ a s', wlp (k a) Q s') s → wlp (m ≫= k) Q s.
Proof.
  unfold wlp, mbind, M_bind, bind. destruct (m s) as [[a s']|]; auto.
Qed.

Lemma wlp_ret {A} (a : A) (Q : A → State → Prop) s : Q a s → wlp (ret a) Q s.
Proof. auto. Qed.

Lemma wlp_elim {A} (m : M A) Q s a s' :
  wlp m Q s → m s = Some (a, s') → Q a s'.
Proof. unfold wlp. intros H E. by rewrite E in H. Qed.

Lemma wlp_intro {A} (m : M A) (Q : A → State → Prop) s :
  (∀ a s', m s = Some (a, s') → Q a s') → wlp m Q s.
Proof. unfold wlp. destruct (m s) as [[a s']|]; auto. Qed.

Lemma wlp_mono {A} (m : M A) (Q Q' : A → State → Prop) s :
  wlp m Q s → (∀ a s', Q a s' → Q' a s') → wlp m Q' s.
Proof. unfold wlp. destruct (m s) as [[a s']|]; auto. Qed.

Lemma wp_wlp {A} (m : M A) (Q : A → State → Prop) s : wp m Q s → wlp m Q s.
Proof. unfold wp, wlp. destruct (m s) as [[a s']|]; auto. Qed.

(** ** Total rules for the primitives *)

Lemma wp_load_GenParams p g Q s :
  heap s !! p = Some (BGenParams g) → Q g s → wp (load_GenParams p) Q s.
Proof. unfold wp, load_GenParams. intros ->. auto. Qed.

Lemma wp_upd_GenParams p f g Q s :
  heap s !! p = Some (BGenParams g) →
  Q tt (set_heap (<[p := BGenParams (f g)]> (heap s)) s) →
  wp (upd_GenParams p f) Q s.
Proof. unfold wp, upd_GenParams. intros ->. auto. Qed.

Lemma wp_load_NativeParams p g Q s :
  heap s !! p = Some (BNativeParams g) → Q g s → wp (load_NativeParams p) Q s.
Proof. unfold wp, load_NativeParams. intros ->. auto. Qed.

Lemma wp_upd_NativeParams p f g Q s :
  heap s !! p = Some (BNativeParams g) →
  Q tt (set_heap (<[p := BNativeParams (f g)]> (heap s)) s) →
  wp (upd_NativeParams p f) Q s.
Proof. unfold wp, upd_NativeParams. intros ->. auto. Qed.

Lemma wp_load_Urng p g Q s :
  heap s !! p = Some (BUrng g) → Q g s → wp (load_Urng p) Q s.
Proof. unfold wp, load_Urng. intros ->. auto. Qed.

Lemma wp_load_Gen p g Q s :
  heap s !! p = Some (BGen g) → Q g s → wp (load_Gen p) Q s.
Proof. unfold wp, load_Gen. intros ->. auto. Qed.

Lemma wp_upd_Gen p f g Q s :
  heap s !! p = Some (BGen g) →
  Q tt (set_heap (<[p := BGen (f g)]> (heap s)) s) →
  wp (upd_Gen p f) Q s.
Proof. unfold wp, upd_Gen. intros ->. auto. Qed.

Lemma wp_load_Chars p g Q s :
  heap s !! p = Some (BChars g) → Q g s → wp (load_Chars p) Q s.
Proof. unfold wp, load_Chars. intros ->. auto. Qed.

Lemma wp_upd_Chars p f g Q s :
  heap s !! p = Some (BChars g) →
  Q tt (set_heap (<[p := BChars (f g)]> (heap s)) s) →
  wp (upd_Chars p f) Q s.
Proof. unfold wp, upd_Chars. intros ->. auto. Qed.

Lemma wp_free p b (Q : unit → State → Prop) s :
  p ≠ NULL → heap s !! p = Some b →
  Q tt (set_heap (delete p (heap s)) s) → wp (free p) Q s.
Proof.
  unfold wp, free. intros Hp ->. rewrite decide_False by done. auto.
Qed.

Lemma wp_alloc b (Q : Z → State → Prop) s :
  Q (brk s) (set_brk (brk s + 1) (set_heap (<[brk s := b]> (heap s)) s)) →
  wp (alloc b) Q s.
Proof. auto. Qed.

Lemma wp_next_ok (Q : bool → State → Prop) s :
  Q (hd true (oracle s)) (set_oracle (tl (oracle s)) s) → wp next_ok Q s.
Proof.
  unfold wp, next_ok. destruct s as [? ? ? ? ? ? ? ? ? ? ? ? ? [|b o] ?]; simpl; auto.
Qed.

Lemma wp_jni env (Q : unit → State → Prop) s :
  env = thread_env → Q tt s → wp (jni env) Q s.
Proof. unfold wp, jni. intros ->. rewrite decide_True by done. auto. Qed.

Lemma wp_no_pending (Q : unit → State → Prop) s :
  pending s = None → Q tt s → wp no_pending Q s.
Proof. unfold wp, no_pending. intros ->. auto. Qed.

Lemma wp_CallDoubleMethod env obj mid rs Q s :
  env = thread_env → pending s = None → mid = Some "nextDouble"%string →
  jheap s !! obj = Some (JRandomStream rs) →
  Q (rs_next rs)
    (set_trace (EvNextDouble obj :: trace s)
       (set_jheap (<[obj := JRandomStream (rs_advance 1 rs)]> (jheap s)) s)) →
  wp (CallDoubleMethod env obj mid) Q s.
Proof.
  intros -> Hp -> Hrs HQ. unfold CallDoubleMethod.
  apply wp_bind, wp_jni; [done|]. apply wp_bind, wp_no_pending; [done|].
  unfold wp, stateful. rewrite Hrs. rewrite decide_True by done. done.
Qed.

Lemma wp_CallVoidMethod env obj mid a start n rs l (Q : unit → State → Prop) s :
  env = thread_env → pending s = None →
  mid = Some "nextArrayOfDouble"%string →
  jheap s !! obj = Some (JRandomStream rs) →
  jheap s !! a = Some (JDoubleArray l) →
  0 ≤ start → 0 ≤ n → start + n ≤ Z.of_nat (length l) →
  Q tt (set_trace (EvNextArrayOfDouble obj a start n :: trace s)
          (set_jheap
             (<[a := JDoubleArray (rs_fill rs (Z.to_nat start) (Z.to_nat n) l)]>
                (<[obj := JRandomStream (rs_advance (Z.to_nat n) rs)]> (jheap s)))
             s)) →
  wp (CallVoidMethod env obj mid a start n) Q s.
Proof.
  intros -> Hp -> Hrs Ha H1 H2 H3 HQ. unfold CallVoidMethod.
  apply wp_bind, wp_jni; [done|]. apply wp_bind, wp_no_pending; [done|].
  unfold wp, stateful. rewrite Hrs, Ha. rewrite decide_True by done.
  rewrite decide_True by done. done.
Qed.

Lemma wp_GetDoubleArrayElements env a l (Q : Z → State → Prop) s :
  env = thread_env → pending s = None →
  jheap s !! a = Some (JDoubleArray l) →
  Q a (set_trace (EvGetArrayElements a :: trace s) s) →
  wp (GetDoubleArrayElements env a) Q s.
Proof.
  intros -> Hp Ha HQ. unfold GetDoubleArrayElements.
  apply wp_bind, wp_jni; [done|]. apply wp_bind, wp_no_pending; [done|].
  unfold wp, stateful. by rewrite Ha.
Qed.

Lemma wp_ReleaseDoubleArrayElements env a elems mode (Q : unit → State → Prop) s :
  env = thread_env →
  Q tt (set_trace (EvReleaseArrayElements a :: trace s) s) →
  wp (ReleaseDoubleArrayElements env a elems mode) Q s.
Proof.
  intros -> HQ. unfold ReleaseDoubleArrayElements.
  apply wp_bind, wp_jni; [done|]. by apply wp_log.
Qed.

Lemma wp_read_double elems i l x (Q : jdouble → State → Prop) s :
  jheap s !! elems = Some (JDoubleArray l) → 0 ≤ i →
  l !! Z.to_nat i = Some x → Q x s → wp (read_double elems i) Q s.
Proof.
  intros He Hi Hx HQ. unfold wp, read_double. rewrite He.
  rewrite decide_True by done. by rewrite Hx.
Qed.

(** ** The three delivery modes, one draw at a time *)

Lemma wp_unif_wrapper_cons s p g Q :
  heap s !! p = Some (BGenParams g) → GenParams.unif g = fn_cons →
  Q (GenParams.u g)
    (set_heap (<[p := BGenParams (GenParams.set_unif fn_unif g)]> (heap s)) s) →
  wp (unif_wrapper p) Q s.
Proof.
  intros Hp Hm HQ. unfold unif_wrapper.
  apply wp_bind. eapply wp_load_GenParams; [done|].
  rewrite Hm. unfold cons. apply wp_bind. eapply wp_upd_GenParams; [done|].
  apply wp_bind. eapply wp_load_GenParams; [simpl; apply lookup_insert_eq|].
  by apply wp_ret.
Qed.

Lemma wp_unif_wrapper_unif s p g rs Q :
  heap s !! p = Some (BGenParams g) → GenParams.unif g = fn_unif →
  GenParams.env g = thread_env → pending s = None →
  midNextDouble s = Some "nextDouble"%string →
  jheap s !! GenParams.rsObj g = Some (JRandomStream rs) →
  Q (rs_next rs)
    (set_trace (EvNextDouble (GenParams.rsObj g) :: trace s)
       (set_jheap (<[GenParams.rsObj g := JRandomStream (rs_advance 1 rs)]>
                     (jheap s)) s)) →
  wp (unif_wrapper p) Q s.
Proof.
  intros Hp Hm He Hpend Hmid Hrs HQ. unfold unif_wrapper.
  apply wp_bind. eapply wp_load_GenParams; [done|]. rewrite Hm. unfold unif.
  apply wp_bind. eapply wp_load_GenParams; [done|].
  apply wp_bind, wp_gets. eapply wp_CallDoubleMethod; eauto.
Qed.

(** A draw in array mode that finds the cursor at the end of the buffer. *)
Lemma wp_unif_wrapper_arr_refill s p g rs l x Q :
  heap s !! p = Some (BGenParams g) → GenParams.unif g = fn_arr →
  GenParams.nextIndex g >= GenParams.n g →
  GenParams.env g = thread_env → pending s = None →
  midNextArrayOfDouble s = Some "nextArrayOfDouble"%string →
  jheap s !! GenParams.rsObj g = Some (JRandomStream rs) →
  jheap s !! GenParams.junifArray g = Some (JDoubleArray l) →
  0 ≤ GenParams.n g → GenParams.n g ≤ Z.of_nat (length l) →
  rs_fill rs 0 (Z.to_nat (GenParams.n g)) l !! 0%nat = Some x →
  Q x
    (set_heap
       (<[p := BGenParams
                 (GenParams.set_nextIndex 1
                    (GenParams.set_unifArray (GenParams.junifArray g) g))]>
          (heap s))
       (set_trace
          (EvGetArrayElements (GenParams.junifArray g)
           :: EvNextArrayOfDouble (GenParams.rsObj g) (GenParams.junifArray g)
                0 (GenParams.n g)
           :: EvReleaseArrayElements (GenParams.junifArray g) :: trace s)
          (set_jheap
             (<[GenParams.junifArray g :=
                  JDoubleArray (rs_fill rs 0 (Z.to_nat (GenParams.n g)) l)]>
                (<[GenParams.rsObj g :=
                     JRandomStream (rs_advance (Z.to_nat (GenParams.n g)) rs)]>
                   (jheap s)))
             s))) →
  wp (unif_wrapper p) Q s.
Proof.
  intros Hp Hm Hge He Hpend Hmid Hrs Ha Hn0 Hn Hx HQ. unfold unif_wrapper.
  apply wp_bind. eapply wp_load_GenParams; [done|]. rewrite Hm. unfold arr.
  apply wp_bind. eapply wp_load_GenParams; [done|].
  rewrite decide_True by done.
  apply wp_bind. apply wp_bind.
  apply wp_ReleaseDoubleArrayElements; [done|].
  apply wp_bind, wp_gets. simpl.
  apply wp_bind. eapply wp_CallVoidMethod; eauto; [lia|].
  apply wp_bind. eapply wp_GetDoubleArrayElements; eauto.
  { simpl. apply lookup_insert_eq. }
  apply wp_bind. eapply wp_upd_GenParams; [simpl; done|].
  eapply wp_upd_GenParams; [simpl; apply lookup_insert_eq|].
  apply wp_bind. eapply wp_load_GenParams; [simpl; apply lookup_insert_eq|].
  apply wp_bind. eapply wp_upd_GenParams; [simpl; apply lookup_insert_eq|].
  simpl. eapply wp_read_double; simpl.
  { apply lookup_insert_eq. } { done. } { exact Hx. }
  rewrite !insert_insert_eq. exact HQ.
Qed.

(** A draw in array mode served from the buffer. *)
Lemma wp_unif_wrapper_arr_buffered s p g l x Q :
  heap s !! p = Some (BGenParams g) → GenParams.unif g = fn_arr →
  GenParams.nextIndex g < GenParams.n g →
  jheap s !! GenParams.unifArray g = Some (JDoubleArray l) →
  0 ≤ GenParams.nextIndex g →
  l !! Z.to_nat (GenParams.nextIndex g) = Some x →
  Q x
    (set_heap
       (<[p := BGenParams
                 (GenParams.set_nextIndex (GenParams.nextIndex g + 1) g)]>
          (heap s)) s) →
  wp (unif_wrapper p) Q s.
Proof.
  intros Hp Hm Hlt Ha Hi Hx HQ. unfold unif_wrapper.
  apply wp_bind. eapply wp_load_GenParams; [done|]. rewrite Hm. unfold arr.
  apply wp_bind. eapply wp_load_GenParams; [done|].
  rewrite decide_False by lia.
  apply wp_bind, wp_ret.
  apply wp_bind. eapply wp_load_GenParams; [done|].
  apply wp_bind. eapply wp_upd_GenParams; [done|].
  eapply wp_read_double; simpl; eauto.
Qed.

End ProgramLogic.

Section Draws.
Context `{P : Platform}.

(** ** Several draws in a row *)

Lemma wp_pulls_app a b p : ∀ Q s,
  wp (pulls a p) (λ xs s1, wp (pulls b p) (λ ys s2, Q (xs ++ ys) s2) s1) s →
  wp (pulls (a + b) p) Q s.
Proof.
  induction a as [|a IH]; intros Q s H; simpl in *.
  - exact H.
  - apply wp_elim in H as (xs & s1 & E & H).
    unfold mbind, M_bind, bind in E.
    destruct (unif_wrapper p s) as [[x sx]|] eqn:Ex; [|done].
    destruct (pulls a p sx) as [[xs' sx']|] eqn:Exs; [|done].
    injection E as <- <-.
    apply wp_bind. eapply wp_intro; [exact Ex|].
    apply wp_bind. apply (IH (λ l s, wp (ret (x :: l)) Q s)).
    eapply wp_intro; [exact Exs|].
    eapply wp_mono; [exact H|]. intros ys s2 HQ. by apply wp_ret.
Qed.

Lemma rs_take_S k rs : rs_take (S k) rs = rs_next rs :: rs_take k (rs_advance 1 rs).
Proof. unfold rs_take, rs_next, rs_advance. simpl. by rewrite Nat.add_1_r. Qed.

Lemma rs_take_app a b rs :
  rs_take (a + b) rs = rs_take a rs ++ rs_take b (rs_advance a rs).
Proof.
  unfold rs_take, rs_advance. simpl. by rewrite seq_app, map_app.
Qed.

Lemma rs_advance_advance a b rs :
  rs_advance b (rs_advance a rs) = rs_advance (a + b) rs.
Proof. unfold rs_advance. simpl. f_equal. lia. Qed.

Lemma rs_advance_0 rs : rs_advance 0 rs = rs.
Proof. destruct rs. unfold rs_advance. simpl. by rewrite Nat.add_0_r. Qed.

Lemma length_rs_take k rs : length (rs_take k rs) = k.
Proof. unfold rs_take. by rewrite length_map, length_seq. Qed.

Lemma take_rs_take m N rs : (m ≤ N)%nat → take m (rs_take N rs) = rs_take m rs.
Proof.
  intros H. unfold rs_take. rewrite firstn_map, take_seq. do 2 f_equal. lia.
Qed.

Lemma rs_fill_0 rs k l : rs_fill rs 0 k l = rs_take k rs ++ drop k l.
Proof. unfold rs_fill. by rewrite take_0. Qed.

(** [k] draws in call-through mode return the next [k] numbers of the
    managed stream, each fetched by one call of nextDouble. *)
Lemma wp_pulls_unif k : ∀ s p g rs Q,
  heap s !! p = Some (BGenParams g) → GenParams.unif g = fn_unif →
  GenParams.env g = thread_env → pending s = None →
  midNextDouble s = Some "nextDouble"%string →
  jheap s !! GenParams.rsObj g = Some (JRandomStream rs) →
  (∀ s', heap s' = heap s →
     jheap s' !! GenParams.rsObj g = Some (JRandomStream (rs_advance k rs)) →
     trace s' = replicate k (EvNextDouble (GenParams.rsObj g)) ++ trace s →
     Q (rs_take k rs) s') →
  wp (pulls k p) Q s.
Proof.
  induction k as [|k IH]; intros s p g rs Q Hp Hm He Hpend Hmid Hrs HQ; simpl.
  - apply wp_ret. apply HQ; try done. by rewrite rs_advance_0.
  - apply wp_bind. eapply wp_unif_wrapper_unif; eauto.
    apply wp_bind. eapply (IH _ p g (rs_advance 1 rs)); simpl; eauto.
    { apply lookup_insert_eq. }
    intros s' Hh Hj Ht. apply wp_ret. rewrite <- rs_take_S.
    apply HQ; try done.
    + by rewrite Hj, rs_advance_advance.
    + rewrite Ht, replicate_S_end, <- app_assoc. done.
Qed.

(** Draws served from the buffer touch nothing but the cursor. *)
Lemma wp_pulls_buffered k : ∀ s p g l Q,
  heap s !! p = Some (BGenParams g) → GenParams.unif g = fn_arr →
  0 ≤ GenParams.nextIndex g →
  GenParams.nextIndex g + Z.of_nat k ≤ GenParams.n g →
  jheap s !! GenParams.unifArray g = Some (JDoubleArray l) →
  GenParams.n g ≤ Z.of_nat (length l) →
  (∀ s',
     heap s' !! p =
       Some (BGenParams
               (GenParams.set_nextIndex (GenParams.nextIndex g + Z.of_nat k) g)) →
     jheap s' = jheap s → trace s' = trace s → pending s' = pending s →
     midNextArrayOfDouble s' = midNextArrayOfDouble s →
     Q (take k (drop (Z.to_nat (GenParams.nextIndex g)) l)) s') →
  wp (pulls k p) Q s.
Proof.
  induction k as [|k IH]; intros s p g l Q Hp Hm Hi Hk Ha Hl HQ; simpl.
  - apply wp_ret. apply HQ; try done.
    rewrite Hp. do 2 f_equal. destruct g; unfold GenParams.set_nextIndex; simpl.
    f_equal. lia.
  - assert (is_Some (l !! Z.to_nat (GenParams.nextIndex g))) as [x Hx].
    { apply lookup_lt_is_Some. lia. }
    apply wp_bind. eapply wp_unif_wrapper_arr_buffered; eauto; [lia|].
    apply wp_bind.
    eapply (IH _ p (GenParams.set_nextIndex (GenParams.nextIndex g + 1) g) l);
      simpl; eauto; try lia.
    { apply lookup_insert_eq. }
    intros s' Hh Hj Ht Hpe Hmi. apply wp_ret.
    replace (x :: take k (drop (Z.to_nat (GenParams.nextIndex g + 1)) l))
      with (take (S k) (drop (Z.to_nat (GenParams.nextIndex g)) l)).
    2:{ rewrite (drop_S l x (Z.to_nat (GenParams.nextIndex g))) by done.
        simpl. do 3 f_equal. lia. }
    apply HQ; try done. rewrite Hh. do 2 f_equal.
    unfold GenParams.set_nextIndex. simpl. f_equal. lia.
Qed.

(** ** C1 *)

(** C1.  Cached-value mode: on an adapter in which a value [v] has been
    cached (mode [cons], field [u] equal to [v], as the single-value entry
    points leave the primary adapter), the first draw returns exactly [v]
    and switches the mode to call-through; each of the [k] draws that follow
    calls nextDouble on the managed stream and returns what the stream
    returns, whatever [v] was. *)
Theorem cached_value_then_call_through s p g rs k :
  heap s !! p = Some (BGenParams g) →
  GenParams.unif g = fn_cons →
  GenParams.env g = thread_env →
  pending s = None →
  midNextDouble s = Some "nextDouble"%string →
  jheap s !! GenParams.rsObj g = Some (JRandomStream rs) →
  (∃ s1, pulls 1 p s = Some ([GenParams.u g], s1) ∧
         mode s1 p = Some fn_unif ∧ trace s1 = trace s ∧ jheap s1 = jheap s) ∧
  (∃ s', pulls (S k) p s = Some (GenParams.u g :: rs_take k rs, s') ∧
         heap s' !! p = Some (BGenParams (GenParams.set_unif fn_unif g)) ∧
         jheap s' !! GenParams.rsObj g = Some (JRandomStream (rs_advance k rs)) ∧
         trace s' = replicate k (EvNextDouble (GenParams.rsObj g)) ++ trace s).
Proof.
  intros Hp Hm He Hpend Hmid Hrs. split.
  - apply wp_elim_val. simpl. apply wp_bind.
    eapply wp_unif_wrapper_cons; [done..|].
    apply wp_bind, wp_ret, wp_ret. split; [done|].
    unfold mode. simpl. by rewrite lookup_insert_eq.
  - apply wp_elim_val.
    change (pulls (S k) p) with (pulls (1 + k) p).
    apply wp_pulls_app. simpl. apply wp_bind.
    eapply wp_unif_wrapper_cons; [done..|].
    apply wp_bind, wp_ret, wp_ret.
    eapply (wp_pulls_unif k _ p (GenParams.set_unif fn_unif g) rs); simpl; eauto.
    { apply lookup_insert_eq. }
    intros s' Hh Hj Ht. split; [done|]. split; [|done].
    rewrite Hh. apply lookup_insert_eq.
Qed.

End Draws.

Section ArrayMode.
Context `{P : Platform}.

(** From a scheduled refill (cursor at the end), any number [m] of draws
    between one and the buffer length triggers one refill and is served from
    the refilled buffer. *)
Lemma wp_pulls_first_batch s p g rs l (N m : nat) Q :
  heap s !! p = Some (BGenParams g) → GenParams.unif g = fn_arr →
  GenParams.n g = Z.of_nat N → GenParams.nextIndex g = Z.of_nat N →
  (0 < m)%nat → (m ≤ N)%nat → (N ≤ length l)%nat →
  GenParams.env g = thread_env → pending s = None →
  midNextArrayOfDouble s = Some "nextArrayOfDouble"%string →
  jheap s !! GenParams.rsObj g = Some (JRandomStream rs) →
  jheap s !! GenParams.junifArray g = Some (JDoubleArray l) →
  (∀ s',
     heap s' !! p =
       Some (BGenParams
               (GenParams.set_nextIndex (Z.of_nat m)
                  (GenParams.set_unifArray (GenParams.junifArray g) g))) →
     jheap s' =
       <[GenParams.junifArray g := JDoubleArray (rs_take N rs ++ drop N l)]>
         (<[GenParams.rsObj g := JRandomStream (rs_advance N rs)]> (jheap s)) →
     trace s' =
       refill_events (GenParams.rsObj g) (GenParams.junifArray g) (Z.of_nat N)
         ++ trace s →
     pending s' = pending s →
     midNextArrayOfDouble s' = midNextArrayOfDouble s →
     Q (rs_take m rs) s') →
  wp (pulls m p) Q s.
Proof.
  intros Hp Hm Hn Hi Hm0 HmN Hl He Hpend Hmid Hrs Ha HQ.
  destruct m as [|m]; [lia|].
  change (pulls (S m) p) with (pulls (1 + m) p).
  apply wp_pulls_app. simpl. apply wp_bind.
  eapply (wp_unif_wrapper_arr_refill s p g rs l (rs_next rs)); eauto; try lia.
  { rewrite Hn, Nat2Z.id, rs_fill_0. destruct N as [|N]; [lia|].
    by rewrite rs_take_S. }
  apply wp_bind, wp_ret, wp_ret.
  rewrite Hn, Nat2Z.id, rs_fill_0.
  eapply (wp_pulls_buffered m _ p _ (rs_take N rs ++ drop N l)); simpl.
  { apply lookup_insert_eq. } { done. } { simpl; lia. } { simpl; lia. }
  { apply lookup_insert_eq. }
  { simpl. rewrite length_app, length_rs_take, length_drop. lia. }
  simpl. intros s' Hh Hj Ht Hpe Hmi.
  replace (rs_next rs :: take m (drop (Z.to_nat 1) (rs_take N rs ++ drop N l)))
    with (rs_take (S m) rs).
  2:{ change (Z.to_nat 1) with 1%nat.
      transitivity (take (S m) (rs_take N rs ++ drop N l)).
      - rewrite take_app_le by (rewrite length_rs_take; lia).
        by rewrite take_rs_take by lia.
      - destruct N as [|N]; [lia|]. rewrite rs_take_S. reflexivity. }
  apply HQ; try done.
  rewrite Hh. do 2 f_equal. unfold GenParams.set_nextIndex,
    GenParams.set_unifArray. simpl. f_equal. lia.
Qed.

(** ** C2 *)

(** C2.  Array-stream mode: on an adapter in array mode over a buffer of at
    least [N ≥ 1] elements with [n = N] and the cursor at [N] (as the batch
    entry points leave it), the first draw issues exactly one refill
    request, nextArrayOfDouble over [N] elements from offset 0, resets the
    cursor and returns the first refilled value; the first [m ≤ N] draws
    return the first [m] elements of the refilled buffer in order with that
    single refill; the draw after the [N]-th issues exactly one further
    refill and returns the first value of the next batch. *)
Theorem array_stream_refills s p g rs l (N : nat) :
  heap s !! p = Some (BGenParams g) →
  GenParams.unif g = fn_arr →
  GenParams.n g = Z.of_nat N →
  GenParams.nextIndex g = Z.of_nat N →
  (0 < N)%nat → (N ≤ length l)%nat →
  GenParams.env g = thread_env →
  pending s = None →
  midNextArrayOfDouble s = Some "nextArrayOfDouble"%string →
  jheap s !! GenParams.rsObj g = Some (JRandomStream rs) →
  jheap s !! GenParams.junifArray g = Some (JDoubleArray l) →
  let a := GenParams.junifArray g in
  let refill := refill_events (GenParams.rsObj g) a (Z.of_nat N) in
  (∀ m, (0 < m)%nat → (m ≤ N)%nat →
     ∃ s' buf,
       pulls m p s = Some (take m buf, s') ∧
       jheap s' !! a = Some (JDoubleArray buf) ∧
       buf = rs_take N rs ++ drop N l ∧
       trace s' = refill ++ trace s ∧
       heap s' !! p =
         Some (BGenParams
                 (GenParams.set_nextIndex (Z.of_nat m)
                    (GenParams.set_unifArray a g)))) ∧
  (∃ s',
     pulls (S N) p s = Some (rs_take N rs ++ [rs_seq rs (rs_pos rs + N)], s') ∧
     trace s' = refill ++ refill ++ trace s ∧
     heap s' !! p =
       Some (BGenParams
               (GenParams.set_nextIndex 1 (GenParams.set_unifArray a g)))).
Proof.
  intros Hp Hm Hn Hi HN Hl He Hpend Hmid Hrs Ha a refill. split.
  - intros m Hm0 HmN.
    assert (take m (rs_take N rs ++ drop N l) = rs_take m rs) as Htake.
    { rewrite take_app_le by (rewrite length_rs_take; lia).
      by rewrite take_rs_take by lia. }
    cut (∃ s', pulls m p s = Some (rs_take m rs, s') ∧
           jheap s' !! a = Some (JDoubleArray (rs_take N rs ++ drop N l)) ∧
           trace s' = refill ++ trace s ∧
           heap s' !! p =
             Some (BGenParams
                     (GenParams.set_nextIndex (Z.of_nat m)
                        (GenParams.set_unifArray a g)))).
    { intros (s' & E & Hj & Ht & Hh). exists s', (rs_take N rs ++ drop N l).
      by rewrite Htake. }
    apply wp_elim_val.
    eapply (wp_pulls_first_batch s p g rs l N m); eauto.
    intros s' Hh Hj Ht Hpe Hmi. split; [done|]. split; [|done].
    rewrite Hj. apply lookup_insert_eq.
  - apply wp_elim_val.
    replace (S N) with (N + 1)%nat by lia.
    apply wp_pulls_app.
    eapply (wp_pulls_first_batch s p g rs l N N); eauto.
    intros s1 Hh Hj Ht Hpe Hmi. simpl.
    apply wp_bind.
    assert (GenParams.rsObj g ≠ GenParams.junifArray g) as Hne.
    { intros E. rewrite E in Hrs. congruence. }
    eapply (wp_unif_wrapper_arr_refill s1 p _ (rs_advance N rs)
              (rs_take N rs ++ drop N l) (rs_seq rs (rs_pos rs + N)));
      [exact Hh|done|..]; simpl.
    { lia. } { done. } { congruence. } { congruence. }
    { rewrite Hj. rewrite lookup_insert_ne by done. apply lookup_insert_eq. }
    { rewrite Hj. apply lookup_insert_eq. }
    { lia. }
    { rewrite length_app, length_rs_take, length_drop. lia. }
    { rewrite Hn, Nat2Z.id, rs_fill_0. destruct N as [|N]; [lia|].
      by rewrite rs_take_S. }
    apply wp_bind, wp_ret, wp_ret. split; [done|]. simpl.
    split; [by rewrite Ht, Hn|]. by rewrite lookup_insert_eq.
Qed.

End ArrayMode.

Section PartialRules.
Context `{P : Platform}.

(** ** Partial rules for the primitives *)

Lemma wlp_gets {A} (f : State → A) (Q : A → State → Prop) s :
  Q (f s) s → wlp (gets f) Q s.
Proof. auto. Qed.

Lemma wlp_modify f (Q : unit → State → Prop) s :
  Q tt (f s) → wlp (modify f) Q s.
Proof. auto. Qed.

Lemma wlp_log e (Q : unit → State → Prop) s :
  Q tt (set_trace (e :: trace s) s) → wlp (log e) Q s.
Proof. auto. Qed.

Lemma wlp_crash {A} (Q : A → State → Prop) s : wlp crash Q s.
Proof. exact I. Qed.

Lemma wlp_next_ok (Q : bool → State → Prop) s :
  Q (hd true (oracle s)) (set_oracle (tl (oracle s)) s) → wlp next_ok Q s.
Proof.
  unfold wlp, next_ok.
  destruct s as [? ? ? ? ? ? ? ? ? ? ? ? ? [|b o] ?]; simpl; auto.
Qed.

Lemma wlp_alloc b (Q : Z → State → Prop) s :
  Q (brk s) (set_brk (brk s + 1) (set_heap (<[brk s := b]> (heap s)) s)) →
  wlp (alloc b) Q s.
Proof. auto. Qed.

Lemma wlp_malloc b (Q : Z → State → Prop) s :
  Q (brk s)
    (set_brk (brk s + 1)
       (set_heap (<[brk s := b]> (heap s)) (set_oracle (tl (oracle s)) s))) →
  Q NULL (set_oracle (tl (oracle s)) s) →
  wlp (malloc b) Q s.
Proof.
  intros H1 H2. unfold malloc. apply wlp_bind, wlp_next_ok.
  destruct (hd true (oracle s)); [by apply wlp_alloc | by apply wlp_ret].
Qed.

Lemma wlp_free p (Q : unit → State → Prop) s :
  (p = NULL → Q tt s) →
  (∀ b, p ≠ NULL → heap s !! p = Some b →
        Q tt (set_heap (delete p (heap s)) s)) →
  wlp (free p) Q s.
Proof.
  intros H1 H2. unfold wlp, free. case_decide; [auto|].
  destruct (heap s !! p) eqn:E; eauto.
Qed.

Lemma wlp_load_GenParams p Q s :
  (∀ g, heap s !! p = Some (BGenParams g) → Q g s) →
  wlp (load_GenParams p) Q s.
Proof. unfold wlp, load_GenParams. destruct (heap s !! p) as [[]|]; auto. Qed.

Lemma wlp_upd_GenParams p f (Q : unit → State → Prop) s :
  (∀ g, heap s !! p = Some (BGenParams g) →
        Q tt (set_heap (<[p := BGenParams (f g)]> (heap s)) s)) →
  wlp (upd_GenParams p f) Q s.
Proof. unfold wlp, upd_GenParams. destruct (heap s !! p) as [[]|]; auto. Qed.

Lemma wlp_load_NativeParams p Q s :
  (∀ g, heap s !! p = Some (BNativeParams g) → Q g s) →
  wlp (load_NativeParams p) Q s.
Proof. unfold wlp, load_NativeParams. destruct (heap s !! p) as [[]|]; auto. Qed.

Lemma wlp_upd_NativeParams p f (Q : unit → State → Prop) s :
  (∀ g, heap s !! p = Some (BNativeParams g) →
        Q tt (set_heap (<[p := BNativeParams (f g)]> (heap s)) s)) →
  wlp (upd_NativeParams p f) Q s.
Proof. unfold wlp, upd_NativeParams. destruct (heap s !! p) as [[]|]; auto. Qed.

Lemma wlp_load_Urng p Q s :
  (∀ g, heap s !! p = Some (BUrng g) → Q g s) → wlp (load_Urng p) Q s.
Proof. unfold wlp, load_Urng. destruct (heap s !! p) as [[]|]; auto. Qed.

Lemma wlp_load_Gen p Q s :
  (∀ g, heap s !! p = Some (BGen g) → Q g s) → wlp (load_Gen p) Q s.
Proof. unfold wlp, load_Gen. destruct (heap s !! p) as [[]|]; auto. Qed.

Lemma wlp_upd_Gen p f (Q : unit → State → Prop) s :
  (∀ g, heap s !! p = Some (BGen g) →
        Q tt (set_heap (<[p := BGen (f g)]> (heap s)) s)) →
  wlp (upd_Gen p f) Q s.
Proof. unfold wlp, upd_Gen. destruct (heap s !! p) as [[]|]; auto. Qed.

Lemma wlp_load_Chars p Q s :
  (∀ g, heap s !! p = Some (BChars g) → Q g s) → wlp (load_Chars p) Q s.
Proof. unfold wlp, load_Chars. destruct (heap s !! p) as [[]|]; auto. Qed.

Lemma wlp_upd_Chars p f (Q : unit → State → Prop) s :
  (∀ g, heap s !! p = Some (BChars g) →
        Q tt (set_heap (<[p := BChars (f g)]> (heap s)) s)) →
  wlp (upd_Chars p f) Q s.
Proof. unfold wlp, upd_Chars. destruct (heap s !! p) as [[]|]; auto. Qed.

Lemma wlp_jni env (Q : unit → State → Prop) s :
  (env = thread_env → Q tt s) → wlp (jni env) Q s.
Proof. unfold wlp, jni. case_decide; simpl; auto. Qed.

Lemma wlp_no_pending (Q : unit → State → Prop) s :
  (pending s = None → Q tt s) → wlp no_pending Q s.
Proof. unfold wlp, no_pending. destruct (pending s); auto. Qed.

Lemma wlp_stateful {A} (f : State → option (A * State)) Q s :
  (∀ a s', f s = Some (a, s') → Q a s') → wlp (stateful f) Q s.
Proof. apply wlp_intro. Qed.

Lemma wlp_ExceptionOccurred env (Q : option jthrowable → State → Prop) s :
  (env = thread_env → Q (pending s) s) → wlp (ExceptionOccurred env) Q s.
Proof.
  intros H. unfold ExceptionOccurred. apply wlp_bind, wlp_jni. intros E.
  apply wlp_gets. auto.
Qed.

Lemma wlp_ExceptionClear env (Q : unit → State → Prop) s :
  (env = thread_env → Q tt (set_pending None s)) → wlp (ExceptionClear env) Q s.
Proof.
  intros H. unfold ExceptionClear. apply wlp_bind, wlp_jni. intros E.
  apply wlp_modify. auto.
Qed.

Lemma wlp_Throw env ex (Q : unit → State → Prop) s :
  (env = thread_env → Q tt (set_pending (Some ex) s)) → wlp (Throw env ex) Q s.
Proof.
  intros H. unfold Throw. apply wlp_bind, wlp_jni. intros E.
  apply wlp_modify. auto.
Qed.

Lemma wlp_ThrowNew env cls msg (Q : unit → State → Prop) s :
  (env = thread_env → pending s = None →
   Q tt (set_pending (Some (mkThrowable cls msg)) s)) →
  wlp (ThrowNew env cls msg) Q s.
Proof.
  intros H. unfold ThrowNew. apply wlp_bind, wlp_jni. intros E.
  apply wlp_bind, wlp_no_pending. intros E'. apply wlp_modify. auto.
Qed.

Lemma wlp_lookup env err name (Q : option string → State → Prop) s :
  (env = thread_env → pending s = None →
   Q (Some name) (set_oracle (tl (oracle s)) s)) →
  (env = thread_env → pending s = None →
   Q None (set_pending (Some (mkThrowable err name))
             (set_oracle (tl (oracle s)) s))) →
  wlp (lookup env err name) Q s.
Proof.
  intros H1 H2. unfold lookup. apply wlp_bind, wlp_jni. intros E.
  apply wlp_bind, wlp_no_pending. intros E'. apply wlp_bind, wlp_next_ok.
  destruct (hd true (oracle s)).
  - apply wlp_ret. auto.
  - apply wlp_bind, wlp_modify, wlp_ret. auto.
Qed.

Lemma wlp_GetLongField env obj fid (Q : Z → State → Prop) s :
  (∀ np ms aux, env = thread_env → pending s = None →
     fid = Some "nativeParams"%string →
     jheap s !! obj = Some (JRandUnuran np ms aux) → Q np s) →
  wlp (GetLongField env obj fid) Q s.
Proof.
  intros H. unfold GetLongField. apply wlp_bind, wlp_jni. intros E.
  apply wlp_bind, wlp_no_pending. intros E'. apply wlp_stateful.
  intros a s' Hs. destruct fid as [f|]; [|done].
  destruct (jheap s !! obj) as [[np ms aux| | |]|] eqn:Ho; try done.
  case_decide; [|done]. injection Hs as <- <-. subst. eauto.
Qed.

Lemma wlp_SetLongField env obj fid v (Q : unit → State → Prop) s :
  (∀ np ms aux, env = thread_env → pending s = None →
     fid = Some "nativeParams"%string →
     jheap s !! obj = Some (JRandUnuran np ms aux) →
     Q tt (set_jheap (<[obj := JRandUnuran v ms aux]> (jheap s)) s)) →
  wlp (SetLongField env obj fid v) Q s.
Proof.
  intros H. unfold SetLongField. apply wlp_bind, wlp_jni. intros E.
  apply wlp_bind, wlp_no_pending. intros E'. apply wlp_stateful.
  intros [] s' Hs. destruct fid as [f|]; [|done].
  destruct (jheap s !! obj) as [[np ms aux| | |]|] eqn:Ho; try done.
  case_decide; [|done]. injection Hs as <-. subst. eauto.
Qed.

Lemma wlp_GetObjectField env obj fid (Q : Z → State → Prop) s :
  (∀ v, env = thread_env → pending s = None → Q v s) →
  wlp (GetObjectField env obj fid) Q s.
Proof.
  intros H. unfold GetObjectField. apply wlp_bind, wlp_jni. intros E.
  apply wlp_bind, wlp_no_pending. intros E'. apply wlp_stateful.
  intros a s' Hs. destruct fid as [f|]; [|done].
  destruct (jheap s !! obj) as [[np ms aux| | |]|] eqn:Ho; try done.
  repeat case_decide; try done; injection Hs as <- <-; eauto.
Qed.

Lemma wlp_GetStringUTFChars env str (Q : option string → State → Prop) s :
  (env = thread_env → pending s = None →
   Q (Some str) (set_oracle (tl (oracle s)) s)) →
  (env = thread_env → pending s = None →
   Q None (set_pending (Some (mkThrowable "java/lang/OutOfMemoryError" ""))
             (set_oracle (tl (oracle s)) s))) →
  wlp (GetStringUTFChars env str) Q s.
Proof.
  intros H1 H2. unfold GetStringUTFChars. apply wlp_bind, wlp_jni. intros E.
  apply wlp_bind, wlp_no_pending. intros E'. apply wlp_bind, wlp_next_ok.
  destruct (hd true (oracle s)).
  - apply wlp_ret. auto.
  - apply wlp_bind, wlp_modify, wlp_ret. auto.
Qed.

Lemma wlp_NewGlobalRef env ob (Q : Z → State → Prop) s :
  (env = thread_env → pending s = None →
   Q ob (set_globalrefs (ob :: globalrefs s) (set_oracle (tl (oracle s)) s))) →
  (env = thread_env → pending s = None →
   Q NULL (set_oracle (tl (oracle s)) s)) →
  wlp (NewGlobalRef env ob) Q s.
Proof.
  intros H1 H2. unfold NewGlobalRef. apply wlp_bind, wlp_jni. intros E.
  apply wlp_bind, wlp_no_pending. intros E'. apply wlp_bind, wlp_next_ok.
  destruct (hd true (oracle s)).
  - apply wlp_bind, wlp_modify, wlp_ret. auto.
  - apply wlp_ret. auto.
Qed.

Lemma wlp_DeleteGlobalRef env r (Q : unit → State → Prop) s :
  (∀ l, env = thread_env → remove_one r (globalrefs s) = Some l →
        Q tt (set_globalrefs l s)) →
  wlp (DeleteGlobalRef env r) Q s.
Proof.
  intros H. unfold DeleteGlobalRef. apply wlp_bind, wlp_jni. intros E.
  apply wlp_stateful. intros [] s' Hs.
  destruct (remove_one r (globalrefs s)) eqn:Hr; [|done].
  injection Hs as <-. eauto.
Qed.

Lemma wlp_GetArrayLength env a (Q : Z → State → Prop) s :
  (∀ v, env = thread_env → pending s = None → Q v s) →
  wlp (GetArrayLength env a) Q s.
Proof.
  intros H. unfold GetArrayLength. apply wlp_bind, wlp_jni. intros E.
  apply wlp_bind, wlp_no_pending. intros E'. apply wlp_stateful.
  intros x s' Hs.
  destruct (jheap s !! a) as [[| | |]|]; try done; injection Hs as <- <-; eauto.
Qed.

Lemma wlp_GetDoubleArrayElements env a (Q : Z → State → Prop) s :
  (∀ l, env = thread_env → pending s = None →
     jheap s !! a = Some (JDoubleArray l) →
     Q a (set_trace (EvGetArrayElements a :: trace s) s)) →
  wlp (GetDoubleArrayElements env a) Q s.
Proof.
  intros H. unfold GetDoubleArrayElements. apply wlp_bind, wlp_jni. intros E.
  apply wlp_bind, wlp_no_pending. intros E'. apply wlp_stateful.
  intros x s' Hs.
  destruct (jheap s !! a) as [[| |l|]|] eqn:Ha; try done.
  injection Hs as <- <-; eauto.
Qed.

Lemma wlp_GetIntArrayElements env a (Q : Z → State → Prop) s :
  (∀ l, env = thread_env → pending s = None →
     jheap s !! a = Some (JIntArray l) →
     Q a (set_trace (EvGetArrayElements a :: trace s) s)) →
  wlp (GetIntArrayElements env a) Q s.
Proof.
  intros H. unfold GetIntArrayElements. apply wlp_bind, wlp_jni. intros E.
  apply wlp_bind, wlp_no_pending. intros E'. apply wlp_stateful.
  intros x s' Hs.
  destruct (jheap s !! a) as [[| | |l]|] eqn:Ha; try done.
  injection Hs as <- <-; eauto.
Qed.

Lemma wlp_ReleaseDoubleArrayElements env a elems mode (Q : unit → State → Prop) s :
  (env = thread_env → Q tt (set_trace (EvReleaseArrayElements a :: trace s) s)) →
  wlp (ReleaseDoubleArrayElements env a elems mode) Q s.
Proof.
  intros H. unfold ReleaseDoubleArrayElements. apply wlp_bind, wlp_jni.
  intros E. apply wlp_log. auto.
Qed.

Lemma wlp_ReleaseIntArrayElements env a elems mode (Q : unit → State → Prop) s :
  (env = thread_env → Q tt (set_trace (EvReleaseArrayElements a :: trace s) s)) →
  wlp (ReleaseIntArrayElements env a elems mode) Q s.
Proof.
  intros H. unfold ReleaseIntArrayElements. apply wlp_bind, wlp_jni.
  intros E. apply wlp_log. auto.
Qed.

Lemma wlp_read_double elems i (Q : jdouble → State → Prop) s :
  (∀ x, Q x s) → wlp (read_double elems i) Q s.
Proof.
  intros H. apply wlp_intro. intros x s' Hs. unfold read_double in Hs.
  destruct (jheap s !! elems) as [[| |l|]|]; try done.
  case_decide; [|done]. destruct (l !! Z.to_nat i); [|done].
  injection Hs as <- <-. auto.
Qed.

Lemma wlp_write_int elems i x (Q : unit → State → Prop) s :
  (∀ l, jheap s !! elems = Some (JIntArray l) →
     Q tt (set_jheap (<[elems := JIntArray (<[Z.to_nat i := x]> l)]> (jheap s)) s)) →
  wlp (write_int elems i x) Q s.
Proof.
  intros H. apply wlp_intro. intros [] s' Hs. unfold write_int in Hs.
  destruct (jheap s !! elems) as [[| | |l]|] eqn:E; try done.
  case_decide; [|done]. injection Hs as <-. auto.
Qed.

Lemma wlp_write_double elems i x (Q : unit → State → Prop) s :
  (∀ l, jheap s !! elems = Some (JDoubleArray l) →
     Q tt (set_jheap (<[elems := JDoubleArray (<[Z.to_nat i := x]> l)]> (jheap s)) s)) →
  wlp (write_double elems i x) Q s.
Proof.
  intros H. apply wlp_intro. intros [] s' Hs. unfold write_double in Hs.
  destruct (jheap s !! elems) as [[| |l|]|] eqn:E; try done.
  case_decide; [|done]. injection Hs as <-. auto.
Qed.

Lemma wlp_CallDoubleMethod env obj mid (Q : jdouble → State → Prop) s :
  (∀ rs, env = thread_env → pending s = None →
     mid = Some "nextDouble"%string →
     jheap s !! obj = Some (JRandomStream rs) →
     Q (rs_next rs)
       (set_trace (EvNextDouble obj :: trace s)
          (set_jheap (<[obj := JRandomStream (rs_advance 1 rs)]> (jheap s)) s))) →
  wlp (CallDoubleMethod env obj mid) Q s.
Proof.
  intros H. unfold CallDoubleMethod. apply wlp_bind, wlp_jni. intros E.
  apply wlp_bind, wlp_no_pending. intros E'. apply wlp_stateful.
  intros x s' Hs. destruct mid as [m|]; [|done].
  destruct (jheap s !! obj) as [[|rs| |]|] eqn:Ho; try done.
  case_decide; [|done]. injection Hs as <- <-. subst. eauto.
Qed.

Lemma wlp_CallVoidMethod env obj mid a start n (Q : unit → State → Prop) s :
  (∀ rs l, env = thread_env → pending s = None →
     mid = Some "nextArrayOfDouble"%string →
     jheap s !! obj = Some (JRandomStream rs) →
     jheap s !! a = Some (JDoubleArray l) →
     0 ≤ start → 0 ≤ n → start + n ≤ Z.of_nat (length l) →
     Q tt (set_trace (EvNextArrayOfDouble obj a start n :: trace s)
             (set_jheap
                (<[a := JDoubleArray (rs_fill rs (Z.to_nat start) (Z.to_nat n) l)]>
                   (<[obj := JRandomStream (rs_advance (Z.to_nat n) rs)]>
                      (jheap s))) s))) →
  wlp (CallVoidMethod env obj mid a start n) Q s.
Proof.
  intros H. unfold CallVoidMethod. apply wlp_bind, wlp_jni. intros E.
  apply wlp_bind, wlp_no_pending. intros E'. apply wlp_stateful.
  intros [] s' Hs. destruct mid as [m|]; [|done].
  destruct (jheap s !! obj) as [[|rs| |]|] eqn:Ho; try done.
  destruct (jheap s !! a) as [[| |l|]|] eqn:Ha; try done.
  case_decide; [|done]. case_decide as Hr; [|done]. injection Hs as <-.
  subst. destruct Hr as (? & ? & ?). eauto.
Qed.

End PartialRules.

(** One step of a computation under the partial logic. *)
Lemma set_heap_set_heap `{P : Platform} h h' (s : State) :
  set_heap h (set_heap h' s) = set_heap h s.
Proof. reflexivity. Qed.

(** Projections of updated states and records. *)
Ltac simpl_state :=
  cbn [fidNativeParams fidMainStream fidAuxStream midNextDouble
       midNextArrayOfDouble default_urng unur_default_urng unur_errno heap brk
       jheap globalrefs pending oracle trace
       set_fidNativeParams set_fidMainStream set_fidAuxStream set_midNextDouble
       set_midNextArrayOfDouble set_default_urng set_unur_default_urng
       set_unur_errno set_heap set_brk set_jheap set_globalrefs set_pending
       set_oracle set_trace
       GenParams.env GenParams.rsObj GenParams.u GenParams.urng
       GenParams.junifArray GenParams.unifArray GenParams.n GenParams.nextIndex
       GenParams.unif GenParams.set_env GenParams.set_rsObj GenParams.set_u
       GenParams.set_urng GenParams.set_junifArray GenParams.set_unifArray
       GenParams.set_n GenParams.set_nextIndex GenParams.set_unif
       UrngWithParams.urng UrngWithParams.params UrngWithParams.set_urng
       UrngWithParams.set_params
       NativeParams.unurgen NativeParams.objMainStream NativeParams.objAuxStream
       NativeParams.urng NativeParams.urng_aux NativeParams.dim
       NativeParams.set_unurgen NativeParams.set_objMainStream
       NativeParams.set_objAuxStream NativeParams.set_urng
       NativeParams.set_urng_aux NativeParams.set_dim
       UNUR_URNG.getrand UNUR_URNG.params
       UNUR_GEN.data UNUR_GEN.urng UNUR_GEN.urng_aux UNUR_GEN.set_data
       UNUR_GEN.set_urng UNUR_GEN.set_urng_aux].

Tactic Notation "simpl_state" "in" "*" :=
  cbn [fidNativeParams fidMainStream fidAuxStream midNextDouble
       midNextArrayOfDouble default_urng unur_default_urng unur_errno heap brk
       jheap globalrefs pending oracle trace
       set_fidNativeParams set_fidMainStream set_fidAuxStream set_midNextDouble
       set_midNextArrayOfDouble set_default_urng set_unur_default_urng
       set_unur_errno set_heap set_brk set_jheap set_globalrefs set_pending
       set_oracle set_trace
       GenParams.env GenParams.rsObj GenParams.u GenParams.urng
       GenParams.junifArray GenParams.unifArray GenParams.n GenParams.nextIndex
       GenParams.unif GenParams.set_env GenParams.set_rsObj GenParams.set_u
       GenParams.set_urng GenParams.set_junifArray GenParams.set_unifArray
       GenParams.set_n GenParams.set_nextIndex GenParams.set_unif
       UrngWithParams.urng UrngWithParams.params UrngWithParams.set_urng
       UrngWithParams.set_params
       NativeParams.unurgen NativeParams.objMainStream NativeParams.objAuxStream
       NativeParams.urng NativeParams.urng_aux NativeParams.dim
       NativeParams.set_unurgen NativeParams.set_objMainStream
       NativeParams.set_objAuxStream NativeParams.set_urng
       NativeParams.set_urng_aux NativeParams.set_dim
       UNUR_URNG.getrand UNUR_URNG.params
       UNUR_GEN.data UNUR_GEN.urng UNUR_GEN.urng_aux UNUR_GEN.set_data
       UNUR_GEN.set_urng UNUR_GEN.set_urng_aux] in *.

(** A loaded block that was just stored is the stored block. *)
Ltac norm_load g H :=
  simpl in H;
  rewrite ?lookup_insert_ne in H by done;
  try (rewrite lookup_insert_eq in H; injection H as H; subst g).

Ltac wlp_intro_block :=
  let g := fresh "g" in let H := fresh "Hg" in intros g H; norm_load g H.

Ltac wlp_step :=
  lazymatch goal with
  | |- wlp (mbind _ _) _ _ => apply wlp_bind
  | |- wlp (ret _) _ _ => apply wlp_ret
  | |- wlp (gets _) _ _ => apply wlp_gets
  | |- wlp (modify _) _ _ => apply wlp_modify
  | |- wlp (log _) _ _ => apply wlp_log
  | |- wlp crash _ _ => apply wlp_crash
  | |- wlp (load_GenParams _) _ _ => apply wlp_load_GenParams; wlp_intro_block
  | |- wlp (upd_GenParams _ _) _ _ => apply wlp_upd_GenParams; wlp_intro_block
  | |- wlp (load_NativeParams _) _ _ => apply wlp_load_NativeParams; wlp_intro_block
  | |- wlp (upd_NativeParams _ _) _ _ => apply wlp_upd_NativeParams; wlp_intro_block
  | |- wlp (load_Urng _) _ _ => apply wlp_load_Urng; wlp_intro_block
  | |- wlp (load_Gen _) _ _ => apply wlp_load_Gen; wlp_intro_block
  | |- wlp (upd_Gen _ _) _ _ => apply wlp_upd_Gen; wlp_intro_block
  | |- wlp (CallDoubleMethod _ _ _) _ _ =>
      apply wlp_CallDoubleMethod; intros ? ? ? ? ?
  | |- wlp (CallVoidMethod _ _ _ _ _ _) _ _ =>
      apply wlp_CallVoidMethod; intros ? ? ? ? ? ? ? ? ? ?
  | |- wlp (GetDoubleArrayElements _ _) _ _ =>
      apply wlp_GetDoubleArrayElements; intros ? ? ? ?
  | |- wlp (GetIntArrayElements _ _) _ _ =>
      apply wlp_GetIntArrayElements; intros ? ? ? ?
  | |- wlp (ReleaseDoubleArrayElements _ _ _ _) _ _ =>
      apply wlp_ReleaseDoubleArrayElements; intros ?
  | |- wlp (ReleaseIntArrayElements _ _ _ _) _ _ =>
      apply wlp_ReleaseIntArrayElements; intros ?
  | |- wlp (read_double _ _) _ _ => apply wlp_read_double; intros ?
  | |- wlp (write_int _ _ _) _ _ => apply wlp_write_int; intros ? ?
  | |- wlp (write_double _ _ _) _ _ => apply wlp_write_double; intros ? ?
  | |- wlp (free _) _ _ => apply wlp_free; [intros ? | intros ? ? ?]
  | |- wlp (alloc _) _ _ => apply wlp_alloc
  | |- wlp (malloc _) _ _ => apply wlp_malloc
  | |- wlp next_ok _ _ => apply wlp_next_ok
  | |- wlp (load_Chars _) _ _ => apply wlp_load_Chars; wlp_intro_block
  | |- wlp (upd_Chars _ _) _ _ => apply wlp_upd_Chars; wlp_intro_block
  | |- wlp (load_UrngWithParams _) _ _ =>
      unfold load_UrngWithParams; cbv beta iota
  | |- wlp (upd_UrngWithParams _ _) _ _ =>
      unfold upd_UrngWithParams; cbv beta iota
  | |- wlp (ExceptionOccurred _) _ _ => apply wlp_ExceptionOccurred; intros ?
  | |- wlp (ExceptionClear _) _ _ => apply wlp_ExceptionClear; intros ?
  | |- wlp (Throw _ _) _ _ => apply wlp_Throw; intros ?
  | |- wlp (ThrowNew _ _ _) _ _ => apply wlp_ThrowNew; intros ? ?
  | |- wlp (FindClass _ _) _ _ =>
      unfold FindClass; apply wlp_lookup; intros ? ?
  | |- wlp (GetFieldID _ _ _ _) _ _ =>
      unfold GetFieldID; apply wlp_lookup; intros ? ?
  | |- wlp (GetMethodID _ _ _ _) _ _ =>
      unfold GetMethodID; apply wlp_lookup; intros ? ?
  | |- wlp (GetLongField _ _ _) _ _ =>
      apply wlp_GetLongField; intros ? ? ? ? ? ? ?
  | |- wlp (SetLongField _ _ _ _) _ _ =>
      apply wlp_SetLongField; intros ? ? ? ? ? ? ?
  | |- wlp (GetObjectField _ _ _) _ _ =>
      apply wlp_GetObjectField; intros ? ? ?
  | |- wlp (GetStringUTFChars _ _) _ _ =>
      apply wlp_GetStringUTFChars; intros ? ?
  | |- wlp (ReleaseStringUTFChars _ _ _) _ _ =>
      unfold ReleaseStringUTFChars; apply wlp_jni; intros ?
  | |- wlp (NewGlobalRef _ _) _ _ => apply wlp_NewGlobalRef; intros ? ?
  | |- wlp (DeleteGlobalRef _ _) _ _ => apply wlp_DeleteGlobalRef; intros ? ? ?
  | |- wlp (GetArrayLength _ _) _ _ => apply wlp_GetArrayLength; intros ? ? ?
  | |- wlp (if decide _ then _ else _) _ _ => case_decide
  end; cbv beta iota; simpl_state;
  rewrite ?set_heap_set_heap, ?insert_insert_eq.

Section Frame.
Context `{P : Platform}.

Lemma gp_step_refl g : gp_step g g.
Proof. unfold gp_step. tauto. Qed.

Lemma gp_step_trans g1 g2 g3 : gp_step g1 g2 → gp_step g2 g3 → gp_step g1 g3.
Proof.
  unfold gp_step. intros (?&?&?&?&?&?&Ha) (?&?&?&?&?&?&Hb).
  repeat split; try congruence.
  destruct Ha as [Ha|[Ha Ha']], Hb as [Hb|[Hb Hb']]; try (left; congruence);
    right; split; congruence.
Qed.

Lemma block_step_refl b : block_step b b.
Proof. destruct b as [[]|]; simpl; auto using gp_step_refl. Qed.

Lemma block_step_trans b1 b2 b3 :
  block_step b1 b2 → block_step b2 b3 → block_step b1 b3.
Proof.
  destruct b1 as [[g1|?|?|d1|?]|], b2 as [[g2|?|?|d2|?]|], b3 as [[g3|?|?|d3|?]|];
    simpl; try congruence; eauto using gp_step_trans.
  intros [? ?] [? ?]. split; congruence.
Qed.

Lemma jobj_step_refl o : jobj_step o o.
Proof. destruct o as [[]|]; simpl; auto. Qed.

Lemma jobj_step_trans o1 o2 o3 :
  jobj_step o1 o2 → jobj_step o2 o3 → jobj_step o1 o3.
Proof.
  destruct o1 as [[]|], o2 as [[]|], o3 as [[]|]; simpl; congruence.
Qed.

Lemma frame_refl s : frame s s.
Proof. split; auto using block_step_refl, jobj_step_refl. Qed.

Lemma frame_trans s1 s2 s3 : frame s1 s2 → frame s2 s3 → frame s1 s3.
Proof.
  intros [] []. split; try congruence.
  - intros a. eapply block_step_trans; eauto.
  - intros a. eapply jobj_step_trans; eauto.
Qed.

Lemma block_step_insert_GenParams (h : gmap Z Block) p g g' a :
  h !! p = Some (BGenParams g) → gp_step g g' →
  block_step (h !! a) (<[p := BGenParams g']> h !! a).
Proof.
  intros Hp Hg. destruct (decide (p = a)) as [->|Hne].
  - by rewrite lookup_insert_eq, Hp.
  - rewrite lookup_insert_ne by done. apply block_step_refl.
Qed.

Lemma block_step_insert_Gen (h : gmap Z Block) p (g g' : UNUR_GEN.t gendata) a :
  h !! p = Some (BGen g) →
  UNUR_GEN.urng g' = UNUR_GEN.urng g →
  UNUR_GEN.urng_aux g' = UNUR_GEN.urng_aux g →
  block_step (h !! a) (<[p := BGen g']> h !! a).
Proof.
  intros Hp H1 H2. destruct (decide (p = a)) as [->|Hne].
  - by rewrite lookup_insert_eq, Hp.
  - rewrite lookup_insert_ne by done. apply block_step_refl.
Qed.

Lemma jobj_step_insert_stream (j : gmap Z JObject) o rs rs' a :
  j !! o = Some (JRandomStream rs) →
  jobj_step (j !! a) (<[o := JRandomStream rs']> j !! a).
Proof.
  intros Ho. destruct (decide (o = a)) as [->|Hne].
  - by rewrite lookup_insert_eq, Ho.
  - rewrite lookup_insert_ne by done. apply jobj_step_refl.
Qed.

Lemma jobj_step_insert_darray (j : gmap Z JObject) o l l' a :
  j !! o = Some (JDoubleArray l) → length l' = length l →
  jobj_step (j !! a) (<[o := JDoubleArray l']> j !! a).
Proof.
  intros Ho Hl. destruct (decide (o = a)) as [->|Hne].
  - by rewrite lookup_insert_eq, Ho.
  - rewrite lookup_insert_ne by done. apply jobj_step_refl.
Qed.

Lemma jobj_step_insert_iarray (j : gmap Z JObject) o l l' a :
  j !! o = Some (JIntArray l) → length l' = length l →
  jobj_step (j !! a) (<[o := JIntArray l']> j !! a).
Proof.
  intros Ho Hl. destruct (decide (o = a)) as [->|Hne].
  - by rewrite lookup_insert_eq, Ho.
  - rewrite lookup_insert_ne by done. apply jobj_step_refl.
Qed.

Lemma length_rs_fill rs (start k : nat) l :
  (start + k ≤ length l)%nat → length (rs_fill rs start k l) = length l.
Proof.
  intros H. unfold rs_fill.
  rewrite !length_app, length_take, length_rs_take, length_drop. lia.
Qed.

(** Changing only the heap, the Java heap and the trace, step-wise. *)
Lemma frame_build s h j t :
  (∀ a, block_step (heap s !! a) (h !! a)) →
  (∀ a, jobj_step (jheap s !! a) (j !! a)) →
  frame s (set_trace t (set_jheap j (set_heap h s))).
Proof. intros Hh Hj. split; simpl; auto. Qed.

Lemma frame_upd_GenParams s p g g' :
  heap s !! p = Some (BGenParams g) → gp_step g g' →
  frame s (set_heap (<[p := BGenParams g']> (heap s)) s).
Proof.
  intros Hp Hg. split; simpl; auto using jobj_step_refl.
  intros a. by eapply block_step_insert_GenParams.
Qed.

Lemma frame_upd_Gen s p (g g' : UNUR_GEN.t gendata) :
  heap s !! p = Some (BGen g) →
  UNUR_GEN.urng g' = UNUR_GEN.urng g →
  UNUR_GEN.urng_aux g' = UNUR_GEN.urng_aux g →
  frame s (set_heap (<[p := BGen g']> (heap s)) s).
Proof.
  intros Hp H1 H2. split; simpl; auto using jobj_step_refl.
  intros a. by eapply block_step_insert_Gen.
Qed.

Lemma frame_set_trace s t : frame s (set_trace t s).
Proof. split; simpl; auto using block_step_refl, jobj_step_refl. Qed.

Lemma frame_stream s o rs rs' :
  jheap s !! o = Some (JRandomStream rs) →
  frame s (set_jheap (<[o := JRandomStream rs']> (jheap s)) s).
Proof.
  intros Ho. split; simpl; auto using block_step_refl.
  intros a. by eapply jobj_step_insert_stream.
Qed.

Lemma frame_darray s o l l' :
  jheap s !! o = Some (JDoubleArray l) → length l' = length l →
  frame s (set_jheap (<[o := JDoubleArray l']> (jheap s)) s).
Proof.
  intros Ho Hl. split; simpl; auto using block_step_refl.
  intros a. by eapply jobj_step_insert_darray.
Qed.

Lemma frame_iarray s o l l' :
  jheap s !! o = Some (JIntArray l) → length l' = length l →
  frame s (set_jheap (<[o := JIntArray l']> (jheap s)) s).
Proof.
  intros Ho Hl. split; simpl; auto using block_step_refl.
  intros a. by eapply jobj_step_insert_iarray.
Qed.

Lemma framed_bind {A B} (m : M A) (k : A → M B) :
  framed m → (∀ a, framed (k a)) → framed (m ≫= k).
Proof.
  intros Hm Hk s0 s Hf. apply wlp_bind.
  eapply wlp_mono; [apply Hm, Hf|]. intros a s' Hf'. by apply Hk.
Qed.

Lemma framed_ret {A} (a : A) : framed (ret a).
Proof. intros s0 s Hf. by apply wlp_ret. Qed.

Lemma framed_wlp {A} (m : M A) s : framed m → wlp m (λ _ s', frame s s') s.
Proof. intros H. apply H, frame_refl. Qed.

Lemma framed_of_frame {A} (m : M A) :
  (∀ s, wlp m (λ _ s', frame s s') s) → framed m.
Proof.
  intros H s0 s Hf. eapply wlp_mono; [apply H|].
  intros a s' Hf'. by eapply frame_trans.
Qed.

Lemma framed_load_GenParams p : framed (load_GenParams p).
Proof. apply framed_of_frame. intros s. wlp_step. apply frame_refl. Qed.

Lemma framed_load_NativeParams p : framed (load_NativeParams p).
Proof. apply framed_of_frame. intros s. wlp_step. apply frame_refl. Qed.

Lemma framed_load_Urng p : framed (load_Urng p).
Proof. apply framed_of_frame. intros s. wlp_step. apply frame_refl. Qed.

Lemma framed_load_Gen p : framed (load_Gen p).
Proof. apply framed_of_frame. intros s. wlp_step. apply frame_refl. Qed.

Lemma framed_gets {A} (f : State → A) : framed (gets f).
Proof. apply framed_of_frame. intros s. wlp_step. apply frame_refl. Qed.

Lemma framed_log e : framed (log e).
Proof. apply framed_of_frame. intros s. wlp_step. apply frame_set_trace. Qed.

Lemma framed_upd_GenParams p f :
  (∀ g, gp_step g (f g)) → framed (upd_GenParams p f).
Proof.
  intros Hf. apply framed_of_frame. intros s. wlp_step.
  by eapply frame_upd_GenParams.
Qed.

Lemma framed_upd_Gen p f :
  (∀ g, UNUR_GEN.urng (f g) = UNUR_GEN.urng g ∧
        UNUR_GEN.urng_aux (f g) = UNUR_GEN.urng_aux g) →
  framed (upd_Gen p f).
Proof.
  intros Hf. apply framed_of_frame. intros s. wlp_step.
  eapply frame_upd_Gen; [done|apply Hf..].
Qed.

Lemma framed_CallDoubleMethod env obj mid : framed (CallDoubleMethod env obj mid).
Proof.
  apply framed_of_frame. intros s. wlp_step.
  eapply frame_trans; [by eapply frame_stream|]. apply frame_set_trace.
Qed.

Lemma framed_CallVoidMethod env obj mid a start n :
  framed (CallVoidMethod env obj mid a start n).
Proof.
  apply framed_of_frame. intros s. wlp_step.
  eapply frame_trans;
    [by eapply (frame_stream _ _ _ (rs_advance (Z.to_nat n) rs))|].
  eapply frame_trans; [|apply frame_set_trace].
  match goal with
  | |- frame ?s1 (set_jheap (<[?a := JDoubleArray ?l']> _) _) =>
      change (frame s1 (set_jheap (<[a := JDoubleArray l']> (jheap s1)) s1))
  end.
  eapply frame_darray.
  - simpl. rewrite lookup_insert_ne; [eassumption|]. intros E. congruence.
  - apply length_rs_fill. lia.
Qed.

Lemma framed_GetDoubleArrayElements env a : framed (GetDoubleArrayElements env a).
Proof. apply framed_of_frame. intros s. wlp_step. apply frame_set_trace. Qed.

Lemma framed_GetIntArrayElements env a : framed (GetIntArrayElements env a).
Proof. apply framed_of_frame. intros s. wlp_step. apply frame_set_trace. Qed.

Lemma framed_ReleaseDoubleArrayElements env a e m :
  framed (ReleaseDoubleArrayElements env a e m).
Proof. apply framed_of_frame. intros s. wlp_step. apply frame_set_trace. Qed.

Lemma framed_ReleaseIntArrayElements env a e m :
  framed (ReleaseIntArrayElements env a e m).
Proof. apply framed_of_frame. intros s. wlp_step. apply frame_set_trace. Qed.

Lemma framed_read_double e i : framed (read_double e i).
Proof. apply framed_of_frame. intros s. wlp_step. apply frame_refl. Qed.

Lemma framed_write_int e i x : framed (write_int e i x).
Proof.
  apply framed_of_frame. intros s. wlp_step.
  eapply frame_iarray; [done|]. apply length_insert.
Qed.

Lemma framed_write_double e i x : framed (write_double e i x).
Proof.
  apply framed_of_frame. intros s. wlp_step.
  eapply frame_darray; [done|]. apply length_insert.
Qed.

Lemma gp_step_set_nextIndex v g : gp_step g (GenParams.set_nextIndex v g).
Proof. unfold gp_step. simpl. tauto. Qed.

Lemma gp_step_set_unifArray v g : gp_step g (GenParams.set_unifArray v g).
Proof. unfold gp_step. simpl. tauto. Qed.

Ltac framed_go :=
  repeat first
    [ apply framed_ret
    | apply framed_load_GenParams | apply framed_load_NativeParams
    | apply framed_load_Urng | apply framed_load_Gen
    | apply framed_gets | apply framed_log
    | apply framed_upd_GenParams; intros ?;
        first [apply gp_step_set_nextIndex | apply gp_step_set_unifArray]
    | apply framed_upd_Gen; intros ?; by split
    | apply framed_CallDoubleMethod | apply framed_CallVoidMethod
    | apply framed_GetDoubleArrayElements | apply framed_GetIntArrayElements
    | apply framed_ReleaseDoubleArrayElements
    | apply framed_ReleaseIntArrayElements
    | apply framed_read_double | apply framed_write_int
    | apply framed_write_double
    | apply framed_bind; [|intros ?]
    | case_decide ].

Lemma framed_unif p : framed (unif p).
Proof. unfold unif. framed_go. Qed.

Lemma framed_arr p : framed (arr p).
Proof. unfold arr. framed_go. Qed.

(** A draw stays within the frame: it may turn a cached-value block into a
    call-through block, and nothing else about modes. *)
Lemma framed_unif_wrapper p : framed (unif_wrapper p).
Proof.
  intros s0 s Hf. unfold unif_wrapper. wlp_step. wlp_step.
  destruct (GenParams.unif g) eqn:Hm.
  - by apply framed_unif.
  - unfold cons. repeat wlp_step. simplify_eq.
    eapply frame_trans; [exact Hf|].
    eapply frame_upd_GenParams; [done|].
    unfold gp_step; simpl. repeat split; auto.
  - by apply framed_arr.
Qed.

Lemma framed_urng_sample r : framed (urng_sample r).
Proof.
  unfold urng_sample. apply framed_bind; [apply framed_load_Urng|].
  intros [[] p]. simpl. apply framed_unif_wrapper.
Qed.

Lemma framed_run {R} (t : Sampler R) r ra : framed (run t r ra).
Proof.
  induction t as [x|k IH|k IH]; simpl.
  - apply framed_ret.
  - apply framed_bind; [apply framed_urng_sample|]. intros x. apply IH.
  - apply framed_bind; [apply framed_urng_sample|]. intros x. apply IH.
Qed.

Lemma framed_unur_sample_discr gen : framed (unur_sample_discr gen).
Proof.
  unfold unur_sample_discr.
  apply framed_bind; [apply framed_load_Gen|]. intros g.
  apply framed_bind; [apply framed_log|]. intros _.
  apply framed_bind; [apply framed_run|]. intros r. framed_go.
Qed.

Lemma framed_unur_sample_cont gen : framed (unur_sample_cont gen).
Proof.
  unfold unur_sample_cont.
  apply framed_bind; [apply framed_load_Gen|]. intros g.
  apply framed_bind; [apply framed_log|]. intros _.
  apply framed_bind; [apply framed_run|]. intros r. framed_go.
Qed.

Lemma framed_write_doubles xs : ∀ e i, framed (write_doubles e i xs).
Proof.
  induction xs as [|x xs IH]; intros e i; simpl.
  - apply framed_ret.
  - apply framed_bind; [apply framed_write_double|]. intros _. apply IH.
Qed.

Lemma framed_unur_sample_vec gen vec : framed (unur_sample_vec gen vec).
Proof.
  unfold unur_sample_vec.
  apply framed_bind; [apply framed_load_Gen|]. intros g.
  apply framed_bind; [apply framed_log|]. intros _.
  apply framed_bind; [apply framed_run|]. intros r.
  apply framed_bind; [framed_go|]. intros _. apply framed_write_doubles.
Qed.

Lemma framed_discr_loop k : ∀ np v start i, framed (discr_loop k np v start i).
Proof.
  induction k as [|k IH]; intros np v start i; simpl.
  - apply framed_ret.
  - apply framed_bind; [apply framed_load_NativeParams|]. intros g.
    apply framed_bind; [apply framed_unur_sample_discr|]. intros x.
    apply framed_bind; [apply framed_write_int|]. intros _. apply IH.
Qed.

Lemma framed_cont_loop k : ∀ np v start i, framed (cont_loop k np v start i).
Proof.
  induction k as [|k IH]; intros np v start i; simpl.
  - apply framed_ret.
  - apply framed_bind; [apply framed_load_NativeParams|]. intros g.
    apply framed_bind; [apply framed_unur_sample_cont|]. intros x.
    apply framed_bind; [apply framed_write_double|]. intros _. apply IH.
Qed.

End Frame.

Section Batch.
Context `{P : Platform}.

Lemma frame_native_params s s' np g :
  frame s s' → native_params s np = Some g → native_params s' np = Some g.
Proof.
  intros Hf. unfold native_params.
  pose proof (frame_heap _ _ Hf np) as H. unfold block_step in H.
  destruct (heap s !! np) as [[]|] eqn:E; try done.
  intros [= ->]. by rewrite <- H.
Qed.


Lemma native_params_lookup s np g :
  native_params s np = Some g ↔ heap s !! np = Some (BNativeParams g).
Proof.
  unfold native_params. destruct (heap s !! np) as [[]|]; split; congruence.
Qed.

Lemma restore_aliased g :
  NativeParams.set_urng_aux
    (UrngWithParams.set_params (UrngWithParams.params (NativeParams.urng_aux g))
       (NativeParams.urng_aux (aliased g)))
    (aliased g) = g.
Proof. by destruct g as [? ? ? ? [] ?]. Qed.



(** Writing a parameter block leaves a [struct NativeParams] where it is. *)
Lemma lookup_insert_GenParams_other (h : gmap Z Block) p g g' np b :
  h !! p = Some (BGenParams g) → h !! np = Some (BNativeParams b) →
  <[p := BGenParams g']> h !! np = Some (BNativeParams b).
Proof.
  intros Hp Hnp. rewrite lookup_insert_ne; [done|]. intros ->. congruence.
Qed.

(** ** C8 *)


End Batch.

Section Modes.
Context `{P : Platform}.









Lemma wlp_framed {A} (m : M A) (Q : A → State → Prop) s :
  framed m → (∀ a s', frame s s' → Q a s') → wlp m Q s.
Proof.
  intros Hm HQ. eapply wlp_mono; [by apply framed_wlp|]. done.
Qed.


(** ** C7 *)


End Modes.

Section TotalRules.
Context `{P : Platform}.

(** ** Total rules for the remaining primitives *)

Lemma wp_malloc b (Q : Z → State → Prop) s :
  (hd true (oracle s) = true →
   Q (brk s)
     (set_brk (brk s + 1)
        (set_heap (<[brk s := b]> (heap s)) (set_oracle (tl (oracle s)) s)))) →
  (hd true (oracle s) = false → Q NULL (set_oracle (tl (oracle s)) s)) →
  wp (malloc b) Q s.
Proof.
  intros H1 H2. unfold malloc. apply wp_bind, wp_next_ok.
  destruct (hd true (oracle s)); [apply wp_alloc | apply wp_ret]; auto.
Qed.

Lemma wp_free_null (Q : unit → State → Prop) s : Q tt s → wp (free NULL) Q s.
Proof. intros H. unfold wp, free. by rewrite decide_True. Qed.

Lemma wp_ExceptionOccurred env (Q : option jthrowable → State → Prop) s :
  env = thread_env → Q (pending s) s → wp (ExceptionOccurred env) Q s.
Proof.
  intros E H. unfold ExceptionOccurred. apply wp_bind, wp_jni; [done|].
  by apply wp_gets.
Qed.

Lemma wp_ExceptionClear env (Q : unit → State → Prop) s :
  env = thread_env → Q tt (set_pending None s) → wp (ExceptionClear env) Q s.
Proof.
  intros E H. unfold ExceptionClear. apply wp_bind, wp_jni; [done|].
  by apply wp_modify.
Qed.

Lemma wp_Throw env ex (Q : unit → State → Prop) s :
  env = thread_env → Q tt (set_pending (Some ex) s) → wp (Throw env ex) Q s.
Proof.
  intros E H. unfold Throw. apply wp_bind, wp_jni; [done|].
  by apply wp_modify.
Qed.

Lemma wp_ThrowNew env cls msg (Q : unit → State → Prop) s :
  env = thread_env → pending s = None →
  Q tt (set_pending (Some (mkThrowable cls msg)) s) →
  wp (ThrowNew env cls msg) Q s.
Proof.
  intros E Hp H. unfold ThrowNew. apply wp_bind, wp_jni; [done|].
  apply wp_bind, wp_no_pending; [done|]. by apply wp_modify.
Qed.

Lemma wp_lookup env err name (Q : option string → State → Prop) s :
  env = thread_env → pending s = None →
  (hd true (oracle s) = true → Q (Some name) (set_oracle (tl (oracle s)) s)) →
  (hd true (oracle s) = false →
   Q None (set_pending (Some (mkThrowable err name))
             (set_oracle (tl (oracle s)) s))) →
  wp (lookup env err name) Q s.
Proof.
  intros E Hp H1 H2. unfold lookup. apply wp_bind, wp_jni; [done|].
  apply wp_bind, wp_no_pending; [done|]. apply wp_bind, wp_next_ok.
  destruct (hd true (oracle s)).
  - apply wp_ret. auto.
  - apply wp_bind, wp_modify, wp_ret. auto.
Qed.

Lemma wp_GetLongField env obj fid np ms aux (Q : Z → State → Prop) s :
  env = thread_env → pending s = None → fid = Some "nativeParams"%string →
  jheap s !! obj = Some (JRandUnuran np ms aux) → Q np s →
  wp (GetLongField env obj fid) Q s.
Proof.
  intros E Hp -> Ho H. unfold GetLongField. apply wp_bind, wp_jni; [done|].
  apply wp_bind, wp_no_pending; [done|]. unfold wp, stateful. rewrite Ho.
  by rewrite decide_True.
Qed.

Lemma wp_SetLongField env obj fid v np ms aux (Q : unit → State → Prop) s :
  env = thread_env → pending s = None → fid = Some "nativeParams"%string →
  jheap s !! obj = Some (JRandUnuran np ms aux) →
  Q tt (set_jheap (<[obj := JRandUnuran v ms aux]> (jheap s)) s) →
  wp (SetLongField env obj fid v) Q s.
Proof.
  intros E Hp -> Ho H. unfold SetLongField. apply wp_bind, wp_jni; [done|].
  apply wp_bind, wp_no_pending; [done|]. unfold wp, stateful. rewrite Ho.
  by rewrite decide_True.
Qed.

Lemma wp_GetObjectField_main env obj fid np ms aux (Q : Z → State → Prop) s :
  env = thread_env → pending s = None → fid = Some "mainStream"%string →
  jheap s !! obj = Some (JRandUnuran np ms aux) → Q ms s →
  wp (GetObjectField env obj fid) Q s.
Proof.
  intros E Hp -> Ho H. unfold GetObjectField. apply wp_bind, wp_jni; [done|].
  apply wp_bind, wp_no_pending; [done|]. unfold wp, stateful. rewrite Ho.
  by rewrite decide_True.
Qed.

Lemma wp_GetObjectField_aux env obj fid np ms aux (Q : Z → State → Prop) s :
  env = thread_env → pending s = None → fid = Some "auxStream"%string →
  jheap s !! obj = Some (JRandUnuran np ms aux) → Q aux s →
  wp (GetObjectField env obj fid) Q s.
Proof.
  intros E Hp -> Ho H. unfold GetObjectField. apply wp_bind, wp_jni; [done|].
  apply wp_bind, wp_no_pending; [done|]. unfold wp, stateful. rewrite Ho.
  rewrite decide_False by done. by rewrite decide_True.
Qed.

Lemma wp_GetStringUTFChars env str (Q : option string → State → Prop) s :
  env = thread_env → pending s = None →
  (hd true (oracle s) = true → Q (Some str) (set_oracle (tl (oracle s)) s)) →
  (hd true (oracle s) = false →
   Q None (set_pending (Some (mkThrowable "java/lang/OutOfMemoryError" ""))
             (set_oracle (tl (oracle s)) s))) →
  wp (GetStringUTFChars env str) Q s.
Proof.
  intros E Hp H1 H2. unfold GetStringUTFChars. apply wp_bind, wp_jni; [done|].
  apply wp_bind, wp_no_pending; [done|]. apply wp_bind, wp_next_ok.
  destruct (hd true (oracle s)).
  - apply wp_ret. auto.
  - apply wp_bind, wp_modify, wp_ret. auto.
Qed.

Lemma wp_ReleaseStringUTFChars env str utf (Q : unit → State → Prop) s :
  env = thread_env → Q tt s → wp (ReleaseStringUTFChars env str utf) Q s.
Proof. intros E H. unfold ReleaseStringUTFChars. by apply wp_jni. Qed.

Lemma wp_NewGlobalRef env ob (Q : Z → State → Prop) s :
  env = thread_env → pending s = None →
  (hd true (oracle s) = true →
   Q ob (set_globalrefs (ob :: globalrefs s) (set_oracle (tl (oracle s)) s))) →
  (hd true (oracle s) = false → Q NULL (set_oracle (tl (oracle s)) s)) →
  wp (NewGlobalRef env ob) Q s.
Proof.
  intros E Hp H1 H2. unfold NewGlobalRef. apply wp_bind, wp_jni; [done|].
  apply wp_bind, wp_no_pending; [done|]. apply wp_bind, wp_next_ok.
  destruct (hd true (oracle s)).
  - apply wp_bind, wp_modify, wp_ret. auto.
  - apply wp_ret. auto.
Qed.

Lemma wp_DeleteGlobalRef env r l (Q : unit → State → Prop) s :
  env = thread_env → remove_one r (globalrefs s) = Some l →
  Q tt (set_globalrefs l s) → wp (DeleteGlobalRef env r) Q s.
Proof.
  intros E Hr H. unfold DeleteGlobalRef. apply wp_bind, wp_jni; [done|].
  unfold wp, stateful. by rewrite Hr.
Qed.

Lemma wp_GetArrayLength_double env a l (Q : Z → State → Prop) s :
  env = thread_env → pending s = None →
  jheap s !! a = Some (JDoubleArray l) → Q (Z.of_nat (length l)) s →
  wp (GetArrayLength env a) Q s.
Proof.
  intros E Hp Ha H. unfold GetArrayLength. apply wp_bind, wp_jni; [done|].
  apply wp_bind, wp_no_pending; [done|]. unfold wp, stateful. by rewrite Ha.
Qed.

(** A write hides the earlier writes to the same address. *)
Lemma insert_hides (l : list (Z * Block)) (m : gmap Z Block) k x z :
  <[k := x]> (foldr (λ w h, <[w.1 := w.2]> h) (<[k := z]> m) l)
  = <[k := x]> (foldr (λ w h, <[w.1 := w.2]> h) m l).
Proof.
  apply map_eq. intros a. destruct (decide (a = k)) as [->|Hne].
  { by rewrite !lookup_insert_eq. }
  rewrite !(lookup_insert_ne _ k a) by done.
  induction l as [|[j y] l IH]; simpl.
  - by rewrite lookup_insert_ne.
  - destruct (decide (a = j)) as [->|Hj].
    + by rewrite !lookup_insert_eq.
    + by rewrite !(lookup_insert_ne _ j a).
Qed.

Lemma insert_hides_1 (m : gmap Z Block) k x z j1 y1 :
  <[k := x]> (<[j1 := y1]> (<[k := z]> m)) = <[k := x]> (<[j1 := y1]> m).
Proof. exact (insert_hides [(j1, y1)] m k x z). Qed.

Lemma insert_hides_2 (m : gmap Z Block) k x z j1 y1 j2 y2 :
  <[k := x]> (<[j1 := y1]> (<[j2 := y2]> (<[k := z]> m)))
  = <[k := x]> (<[j1 := y1]> (<[j2 := y2]> m)).
Proof. exact (insert_hides [(j1, y1); (j2, y2)] m k x z). Qed.

Lemma insert_hides_3 (m : gmap Z Block) k x z j1 y1 j2 y2 j3 y3 :
  <[k := x]> (<[j1 := y1]> (<[j2 := y2]> (<[j3 := y3]> (<[k := z]> m))))
  = <[k := x]> (<[j1 := y1]> (<[j2 := y2]> (<[j3 := y3]> m))).
Proof. exact (insert_hides [(j1, y1); (j2, y2); (j3, y3)] m k x z). Qed.

Lemma insert_hides_4 (m : gmap Z Block) k x z j1 y1 j2 y2 j3 y3 j4 y4 :
  <[k := x]>
    (<[j1 := y1]> (<[j2 := y2]> (<[j3 := y3]> (<[j4 := y4]> (<[k := z]> m)))))
  = <[k := x]> (<[j1 := y1]> (<[j2 := y2]> (<[j3 := y3]> (<[j4 := y4]> m)))).
Proof.
  exact (insert_hides [(j1, y1); (j2, y2); (j3, y3); (j4, y4)] m k x z).
Qed.

Lemma insert_hides_5 (m : gmap Z Block) k x z j1 y1 j2 y2 j3 y3 j4 y4 j5 y5 :
  <[k := x]>
    (<[j1 := y1]> (<[j2 := y2]> (<[j3 := y3]> (<[j4 := y4]>
       (<[j5 := y5]> (<[k := z]> m))))))
  = <[k := x]>
      (<[j1 := y1]> (<[j2 := y2]> (<[j3 := y3]> (<[j4 := y4]>
         (<[j5 := y5]> m))))).
Proof.
  exact (insert_hides [(j1, y1); (j2, y2); (j3, y3); (j4, y4); (j5, y5)]
           m k x z).
Qed.

Lemma insert_hides_6 (m : gmap Z Block) k x z
    j1 y1 j2 y2 j3 y3 j4 y4 j5 y5 j6 y6 :
  <[k := x]>
    (<[j1 := y1]> (<[j2 := y2]> (<[j3 := y3]> (<[j4 := y4]>
       (<[j5 := y5]> (<[j6 := y6]> (<[k := z]> m)))))))
  = <[k := x]>
      (<[j1 := y1]> (<[j2 := y2]> (<[j3 := y3]> (<[j4 := y4]>
         (<[j5 := y5]> (<[j6 := y6]> m)))))).
Proof.
  exact (insert_hides
           [(j1, y1); (j2, y2); (j3, y3); (j4, y4); (j5, y5); (j6, y6)]
           m k x z).
Qed.

Lemma insert_hides_7 (m : gmap Z Block) k x z
    j1 y1 j2 y2 j3 y3 j4 y4 j5 y5 j6 y6 j7 y7 :
  <[k := x]>
    (<[j1 := y1]> (<[j2 := y2]> (<[j3 := y3]> (<[j4 := y4]>
       (<[j5 := y5]> (<[j6 := y6]> (<[j7 := y7]> (<[k := z]> m))))))))
  = <[k := x]>
      (<[j1 := y1]> (<[j2 := y2]> (<[j3 := y3]> (<[j4 := y4]>
         (<[j5 := y5]> (<[j6 := y6]> (<[j7 := y7]> m))))))).
Proof.
  exact (insert_hides
           [(j1, y1); (j2, y2); (j3, y3); (j4, y4); (j5, y5); (j6, y6);
            (j7, y7)] m k x z).
Qed.

Lemma wp_elim_unit (m : M unit) (Q : State → Prop) s :
  wp m (λ _ s', Q s') s → ∃ s', m s = Some (tt, s') ∧ Q s'.
Proof. intros H. apply wp_elim in H as ([] & s' & E & H). eauto. Qed.

End TotalRules.

(** Looking a block up in a heap that has been written to. *)
Ltac solve_ne := solve [done | congruence | lia].

Ltac solve_lookup :=
  simpl_state;
  repeat first
    [ eassumption
    | rewrite lookup_insert_eq; reflexivity
    | rewrite lookup_insert_ne by solve_ne
    | rewrite lookup_delete_ne by solve_ne ].

(** The state a computation starts from, as the record of its fields. *)
Ltac norm_state :=
  lazymatch goal with
  | |- wp ?m ?Q ?s =>
      let s1 := eval cbv [set_fidNativeParams set_fidMainStream
        set_fidAuxStream set_midNextDouble set_midNextArrayOfDouble
        set_default_urng set_unur_default_urng set_unur_errno set_heap set_brk
        set_jheap set_globalrefs set_pending set_oracle set_trace] in s in
      let s2 := eval cbn [fidNativeParams fidMainStream fidAuxStream
        midNextDouble midNextArrayOfDouble default_urng unur_default_urng
        unur_errno heap brk jheap globalrefs pending oracle trace] in s1 in
      change (wp m Q s2)
  | _ => idtac
  end.

(** One step of a computation under the total logic. *)
Ltac wp_step :=
  lazymatch goal with
  | |- wp (mbind _ _) _ _ => apply wp_bind
  | |- wp (ret _) _ _ => apply wp_ret
  | |- wp (gets _) _ _ => apply wp_gets
  | |- wp (modify _) _ _ => apply wp_modify
  | |- wp (log _) _ _ => apply wp_log
  | |- wp (load_GenParams _) _ _ => eapply wp_load_GenParams; [solve_lookup|]
  | |- wp (upd_GenParams _ _) _ _ => eapply wp_upd_GenParams; [solve_lookup|]
  | |- wp (load_NativeParams _) _ _ =>
      eapply wp_load_NativeParams; [solve_lookup|]
  | |- wp (upd_NativeParams _ _) _ _ =>
      eapply wp_upd_NativeParams; [solve_lookup|]
  | |- wp (load_Urng _) _ _ => eapply wp_load_Urng; [solve_lookup|]
  | |- wp (load_Gen _) _ _ => eapply wp_load_Gen; [solve_lookup|]
  | |- wp (upd_Gen _ _) _ _ => eapply wp_upd_Gen; [solve_lookup|]
  | |- wp (load_Chars _) _ _ => eapply wp_load_Chars; [solve_lookup|]
  | |- wp (upd_Chars _ _) _ _ => eapply wp_upd_Chars; [solve_lookup|]
  | |- wp (load_UrngWithParams _) _ _ =>
      unfold load_UrngWithParams; cbv beta iota
  | |- wp (upd_UrngWithParams _ _) _ _ =>
      unfold upd_UrngWithParams; cbv beta iota
  | |- wp (alloc _) _ _ => apply wp_alloc
  | |- wp (malloc _) _ _ => apply wp_malloc; intros ?
  | |- wp (free _) _ _ => eapply wp_free; [solve_ne|solve_lookup|]
  | |- wp (ExceptionOccurred _) _ _ => apply wp_ExceptionOccurred; [done|]
  | |- wp (ExceptionClear _) _ _ => apply wp_ExceptionClear; [done|]
  | |- wp (Throw _ _) _ _ => apply wp_Throw; [done|]
  | |- wp (ThrowNew _ _ _) _ _ => apply wp_ThrowNew; [done|done|]
  | |- wp (FindClass _ _) _ _ =>
      unfold FindClass; apply wp_lookup; [done|done|intros ?|intros ?]
  | |- wp (GetFieldID _ _ _ _) _ _ =>
      unfold GetFieldID; apply wp_lookup; [done|done|intros ?|intros ?]
  | |- wp (GetMethodID _ _ _ _) _ _ =>
      unfold GetMethodID; apply wp_lookup; [done|done|intros ?|intros ?]
  | |- wp (GetLongField _ _ _) _ _ =>
      eapply wp_GetLongField; [done|done|done|solve_lookup|]
  | |- wp (GetObjectField _ _ _) _ _ =>
      first [ eapply wp_GetObjectField_main; [done|done|reflexivity|solve_lookup|]
            | eapply wp_GetObjectField_aux; [done|done|reflexivity|solve_lookup|] ]
  | |- wp (SetLongField _ _ _ _) _ _ =>
      eapply wp_SetLongField; [done|done|done|solve_lookup|]
  | |- wp (GetStringUTFChars _ _) _ _ =>
      apply wp_GetStringUTFChars; [done|done|intros ?|intros ?]
  | |- wp (ReleaseStringUTFChars _ _ _) _ _ =>
      apply wp_ReleaseStringUTFChars; [done|]
  | |- wp (NewGlobalRef _ _) _ _ =>
      apply wp_NewGlobalRef; [done|done|intros ?|intros ?]
  | |- wp (GetArrayLength _ _) _ _ =>
      eapply wp_GetArrayLength_double; [done|done|solve_lookup|]
  | |- wp (unur_urng_new _ _) _ _ => unfold unur_urng_new
  | |- wp (unur_urng_free _) _ _ => unfold unur_urng_free
  | |- wp (unur_set_default_urng _) _ _ => unfold unur_set_default_urng
  | |- wp (unur_chg_urng _ _) _ _ => unfold unur_chg_urng
  | |- wp (unur_chg_urng_aux _ _) _ _ => unfold unur_chg_urng_aux
  | |- wp (unur_get_dimension _) _ _ => unfold unur_get_dimension
  | |- wp (if decide _ then _ else _) _ _ => case_decide
  end; cbv beta iota; simpl_state in *; norm_state;
  rewrite ?insert_insert_eq, ?insert_hides_1, ?insert_hides_2,
    ?insert_hides_3, ?insert_hides_4, ?insert_hides_5, ?insert_hides_6,
    ?insert_hides_7.

(** Stepping as far as possible, closing the branches that cannot be taken. *)
Ltac wp_run :=
  repeat (wp_step; try (exfalso; solve [done | congruence | lia])).

(** Equality of two heaps given by their writes. *)
Ltac heap_eq :=
  let a := fresh "a" in
  unfold free_handle;
  apply map_eq; intros a;
  repeat first [rewrite lookup_insert | rewrite lookup_delete];
  repeat case_decide; simplify_eq; try done; try (exfalso; lia).

(** Conclude with a hypothesis about the same state, its heap written
    differently. *)
Ltac state_heap s :=
  let h0 := eval cbv [set_fidNativeParams set_fidMainStream
    set_fidAuxStream set_midNextDouble set_midNextArrayOfDouble
    set_default_urng set_unur_default_urng set_unur_errno set_heap
    set_brk set_jheap set_globalrefs set_pending set_oracle set_trace]
    in (heap s) in
  let h := eval cbn [heap] in h0 in h.

Ltac conclude_with_heap HQ :=
  lazymatch goal with
  | |- ?Q ?r ?a =>
      lazymatch type of HQ with
      | _ _ ?f =>
          let ha := state_heap a in
          let hf := state_heap f in
          let E := fresh "E" in
          assert (ha = hf) as E by heap_eq;
          let a' := eval cbv [set_fidNativeParams set_fidMainStream
            set_fidAuxStream set_midNextDouble set_midNextArrayOfDouble
            set_default_urng set_unur_default_urng set_unur_errno set_heap
            set_brk set_jheap set_globalrefs set_pending set_oracle set_trace]
            in a in
          let a'' := eval cbn [fidNativeParams fidMainStream fidAuxStream
            midNextDouble midNextArrayOfDouble default_urng unur_default_urng
            unur_errno heap brk jheap globalrefs pending oracle trace] in a' in
          change (Q r a''); rewrite E; exact HQ
      end
  end.

Ltac conclude_with HQ :=
  first [ exact HQ | conclude_with_heap HQ ].

Section Vector.
Context `{P : Platform}.

(** ** C9 *)

(** C9, as amended.  A vector sampling call whose output array is shorter
    than the dimension of the handle returns without a call to the engine,
    without acquiring the elements of the output array and without any
    change to the managed heap: the trace and the managed heap are those of
    the start.  It leaves the array-too-short error pending when the
    exception class can be found; when the lookup of the exception class
    fails the call returns silently with the error of the lookup pending
    instead. *)
Theorem short_vector_is_rejected s env obj u np jvec g gp gpa l :
  env = thread_env → pending s = None →
  native_params s np = Some g →
  heap s !! UrngWithParams.params (NativeParams.urng g) = Some (BGenParams gp) →
  heap s !! UrngWithParams.params (NativeParams.urng_aux g)
    = Some (BGenParams gpa) →
  jheap s !! jvec = Some (JDoubleArray l) →
  Z.of_nat (length l) < NativeParams.dim g →
  ∃ s',
    Java_umontreal_ssj_randvar_RandUnuran_getRandVec env obj u np jvec s
      = Some (tt, s') ∧
    trace s' = trace s ∧ jheap s' = jheap s ∧
    pending s' =
      Some (if hd true (oracle s)
            then mkThrowable UnuranException "array too short"
            else mkThrowable "java/lang/NoClassDefFoundError" UnuranException).
Proof.
  intros Henv Hpend Hnp%native_params_lookup Hp Hpa Hv Hlen.
  apply wp_elim_unit.
  unfold Java_umontreal_ssj_randvar_RandUnuran_getRandVec. cbv zeta.
  destruct g as [gen ms aux [r p] [ra pa] dim]. simpl in *.
  do 2 wp_step.
  destruct (decide (pa = p)) as [->|Hne].
  - do 13 wp_step; [|lia]. wp_step. wp_step.
    + wp_step. simpl in *. by rewrite H0.
    + wp_step. simpl in *. by rewrite H0.
  - do 13 wp_step; [|lia]. wp_step. wp_step.
    + wp_step. simpl in *. by rewrite H0.
    + wp_step. simpl in *. by rewrite H0.
Qed.

End Vector.

(** Case analysis on the block found in a heap that has been written to. *)
Ltac split_lookups :=
  repeat match goal with
  | H : <[_:=_]> _ !! _ = Some _ |- _ =>
      apply lookup_insert_Some in H as [[? ?]|[? H]]; simplify_eq
  | H : delete _ _ !! _ = Some _ |- _ =>
      apply lookup_delete_Some in H as [? H]
  end.

Section Invariant.
Context `{P : Platform}.

Lemma keeps_bind {A B} (m : M A) (k : A → M B) :
  keeps m → (∀ a, keeps (k a)) → keeps (m ≫= k).
Proof.
  intros Hm Hk s Hs. apply wlp_bind.
  eapply wlp_mono; [apply Hm, Hs|]. intros a s' Hs'. by apply Hk.
Qed.

Lemma keeps_ret {A} (a : A) : keeps (ret a).
Proof. intros s Hs. by apply wlp_ret. Qed.

Lemma uwp_iff_null : uwp_iff (UrngWithParams.mk NULL NULL).
Proof. unfold uwp_iff. simpl. tauto. Qed.

Lemma uwp_iff_nonnull r p : r ≠ NULL → p ≠ NULL → uwp_iff (UrngWithParams.mk r p).
Proof. unfold uwp_iff. simpl. tauto. Qed.

(** The invariant speaks of the break, the default generator and the
    [struct NativeParams] blocks only. *)
Lemma adapters_inv_same s s' :
  brk s' = brk s → default_urng s' = default_urng s → heap s' = heap s →
  adapters_inv s → adapters_inv s'.
Proof. unfold adapters_inv. by intros -> -> ->. Qed.

Lemma frame_adapters_inv s s' : frame s s' → adapters_inv s → adapters_inv s'.
Proof.
  intros Hf (Hb & Hd & Hh). split; [|split].
  - by rewrite (frame_brk _ _ Hf).
  - by rewrite (frame_default_urng _ _ Hf).
  - intros np g Hnp. apply (Hh np).
    pose proof (frame_heap _ _ Hf np) as H. rewrite Hnp in H.
    unfold block_step in H. by destruct (heap s !! np) as [[]|].
Qed.

Lemma keeps_framed {A} (m : M A) : framed m → keeps m.
Proof.
  intros Hm s Hs. eapply wlp_mono; [by apply framed_wlp|].
  intros a s' Hf. cbv beta in Hf. by apply (frame_adapters_inv s).
Qed.

End Invariant.

(** The invariant of a state given by the writes that led to it. *)
Ltac inv_facts Hh :=
  repeat match goal with
  | H' : heap _ !! _ = Some (BNativeParams _) |- _ =>
      apply Hh in H'; destruct H' as [? ?]
  end.

Ltac inv_arith Hb :=
  unfold uwp_iff in *; simpl_state in *;
  first [ assumption | tauto | intuition congruence | clear -Hb; lia ].

Ltac inv_solve :=
  lazymatch goal with
  | Hinv : adapters_inv _ |- adapters_inv _ =>
      let Hb := fresh "Hb" in let Hd := fresh "Hd" in let Hh := fresh "Hh" in
      destruct Hinv as (Hb & Hd & Hh);
      split; [simpl_state; clear -Hb; lia|split];
      [ inv_facts Hh; clear Hh; inv_arith Hb
      | let a := fresh "a" in let g := fresh "g" in let H := fresh "H" in
        intros a g H; simpl_state in *; split_lookups; inv_facts Hh; clear Hh;
        split; inv_arith Hb ]
  end.

(** Stepping with the blocks loaded so far identified. *)
Ltac norm_blocks :=
  repeat match goal with
  | H : delete _ _ !! _ = Some _ |- _ =>
      apply lookup_delete_Some in H as [? H]
  | H : <[?a:=_]> _ !! ?a = Some _ |- _ => rewrite lookup_insert_eq in H
  end;
  simplify_eq.

Ltac wlp_run :=
  repeat first
    [ wlp_step; norm_blocks
    | progress unfold unur_urng_free, unur_urng_new, unur_free,
        unur_set_default_urng, unur_chg_urng, unur_chg_urng_aux,
        unur_get_dimension ].

Section InvariantRules.
Context `{P : Platform}.

Lemma keeps_urng_jni_destroy loc : keeps (urng_jni_destroy loc).
Proof.
  intros s Hs. destruct loc as [[|np|np]|]; simpl.
  - wlp_run; inv_solve.
  - wlp_run; inv_solve.
  - wlp_run; inv_solve.
  - by apply wlp_ret.
Qed.

Lemma keeps_urng_jni_create loc : keeps (urng_jni_create loc).
Proof.
  intros s Hs. unfold urng_jni_create, urng_jni_destroy.
  destruct loc as [|np|np]; simpl.
  - wlp_run; inv_solve.
  - wlp_run; inv_solve.
  - wlp_run; inv_solve.
Qed.

End InvariantRules.

(** Computations made of the primitives, the two functions above and
    calls into the engine. *)
Ltac keeps_prim :=
  let s := fresh "s" in let Hs := fresh "Hs" in
  intros s Hs; wlp_run; inv_solve.

Ltac keeps_go :=
  repeat first
    [ apply keeps_ret
    | apply keeps_urng_jni_create
    | apply keeps_urng_jni_destroy
    | apply keeps_framed;
        first [ apply framed_run | apply framed_unur_sample_discr
              | apply framed_unur_sample_cont | apply framed_unur_sample_vec
              | apply framed_discr_loop | apply framed_cont_loop ]
    | lazymatch goal with
      | |- keeps (mbind _ _) => apply keeps_bind; [|intros ?]
      | |- keeps (if ?b then _ else _) => destruct b
      | |- keeps (match ?x with _ => _ end) => destruct x
      end
    | keeps_prim ].

Section InvariantCalls.
Context `{P : Platform}.

Lemma keeps_unur_str2gen str : keeps (unur_str2gen str).
Proof. unfold unur_str2gen. keeps_go. Qed.

Lemma keeps_close env obj :
  keeps (Java_umontreal_ssj_randvar_RandUnuran_close env obj).
Proof. unfold Java_umontreal_ssj_randvar_RandUnuran_close. keeps_go. Qed.

Lemma keeps_cached get set look :
  (∀ r s, adapters_inv s → adapters_inv (set r s)) →
  keeps look → keeps (cached get set look).
Proof.
  intros Hset Hlook. unfold cached.
  apply keeps_bind; [keeps_go|]. intros [cur|]; [keeps_go|].
  apply keeps_bind; [done|]. intros r.
  apply keeps_bind; [|keeps_go].
  intros s Hs. apply wlp_modify. by apply Hset.
Qed.

Lemma keeps_lookup env err name : keeps (lookup env err name).
Proof. intros s Hs. apply wlp_lookup; intros _ _; inv_solve. Qed.

Lemma keeps_initClass env : keeps (initClass env).
Proof.
  unfold initClass.
  repeat first
    [ apply keeps_cached; [by intros ? ? ?|apply keeps_lookup]
    | lazymatch goal with
      | |- keeps (mbind _ _) => apply keeps_bind; [|intros ?]
      | |- keeps (if ?b then _ else _) => destruct b
      | |- keeps (match ?x with _ => _ end) => destruct x
      end
    | apply keeps_urng_jni_create
    | apply keeps_ret
    | keeps_prim ].
Qed.

Lemma keeps_init env obj str :
  keeps (Java_umontreal_ssj_randvar_RandUnuran_init env obj str).
Proof.
  unfold Java_umontreal_ssj_randvar_RandUnuran_init.
  repeat first
    [ apply keeps_initClass | apply keeps_close | apply keeps_unur_str2gen
    | apply keeps_urng_jni_create | apply keeps_ret
    | lazymatch goal with
      | |- keeps (mbind _ _) => apply keeps_bind; [|intros ?]
      | |- keeps (if ?b then _ else _) => destruct b
      | |- keeps (match ?x with _ => _ end) => destruct x
      end
    | keeps_prim ].
Qed.

Lemma keeps_getRandDisc env obj u np :
  keeps (Java_umontreal_ssj_randvar_RandUnuran_getRandDisc env obj u np).
Proof.
  unfold Java_umontreal_ssj_randvar_RandUnuran_getRandDisc. cbv zeta. keeps_go.
Qed.

Lemma keeps_getRandCont env obj u np :
  keeps (Java_umontreal_ssj_randvar_RandUnuran_getRandCont env obj u np).
Proof.
  unfold Java_umontreal_ssj_randvar_RandUnuran_getRandCont. cbv zeta. keeps_go.
Qed.

Lemma keeps_getRandVec env obj u np jvec :
  keeps (Java_umontreal_ssj_randvar_RandUnuran_getRandVec env obj u np jvec).
Proof.
  unfold Java_umontreal_ssj_randvar_RandUnuran_getRandVec. cbv zeta. keeps_go.
Qed.

(** The part of a batch call after the primary adapter has been put in
    array mode, when no auxiliary array is given: the handle is written
    twice, and has its members of before in the end. *)
Lemma alias_tail_keeps (getv : Z → M Z) (relv : Z → Z → M unit)
    (loop : Z → M unit) env np gp ju jv u g s :
  heap s !! np = Some (BNativeParams g) →
  gp = UrngWithParams.params (NativeParams.urng_aux g) →
  framed (getv jv) → (∀ v, framed (loop v)) → (∀ v, framed (relv jv v)) →
  adapters_inv s →
  wlp (uaux ← (g' ← load_NativeParams np;
               upd_UrngWithParams (at_urng_aux np)
                 (UrngWithParams.set_params
                    (UrngWithParams.params (NativeParams.urng g')));;
               ret NULL);
       v ← getv jv;
       loop v;;
       relv jv v;;
       upd_UrngWithParams (at_urng_aux np) (UrngWithParams.set_params gp);;
       ReleaseDoubleArrayElements env ju u 0)
    (λ _ s', adapters_inv s') s.
Proof.
  intros Hnp -> Hgetv Hloop Hrelv Hs.
  do 7 wlp_step. simplify_eq.
  set (s1 := set_heap _ s).
  assert (native_params s1 np = Some (aliased g)) as Hs1.
  { apply native_params_lookup. subst s1; simpl. apply lookup_insert_eq. }
  wlp_step. apply wlp_framed; [done|]. intros v s2 Hf2.
  wlp_step. apply wlp_framed; [done|]. intros [] s3 Hf3.
  wlp_step. apply wlp_framed; [done|]. intros [] s4 Hf4.
  assert (frame s1 s4) as Hf by eauto using frame_trans.
  pose proof (frame_native_params _ _ _ _ Hf Hs1) as Hs4%native_params_lookup.
  do 3 wlp_step. simplify_eq.
  destruct Hs as (Hb & Hd & Hh). split; [|split]; simpl.
  - rewrite (frame_brk _ _ Hf). by subst s1.
  - rewrite (frame_default_urng _ _ Hf). by subst s1.
  - intros a g' Ha. apply lookup_insert_Some in Ha as [[<- Ha]|[Hne Ha]].
    + injection Ha as <-. rewrite restore_aliased. by apply (Hh np).
    + apply (Hh a).
      pose proof (frame_heap _ _ Hf a) as Hstep. rewrite Ha in Hstep.
      unfold block_step in Hstep. subst s1. simpl in Hstep.
      rewrite lookup_insert_ne in Hstep by done.
      by destruct (heap s !! a) as [[]|].
Qed.

End InvariantCalls.

Section InvariantBatch.
Context `{P : Platform}.

Lemma keeps_getRandDiscArray env obj np ju juaux jv start n :
  keeps (Java_umontreal_ssj_randvar_RandUnuran_getRandDiscArray
           env obj np ju juaux jv start n).
Proof.
  unfold Java_umontreal_ssj_randvar_RandUnuran_getRandDiscArray. cbv zeta.
  destruct (decide (juaux ≠ NULL)) as [Hju|Hju].
  - keeps_go.
  - intros s Hs. do 16 wlp_step. simplify_eq.
    apply (alias_tail_keeps (GetIntArrayElements _)
             (λ jv v, ReleaseIntArrayElements _ jv v 0)
             (λ v, discr_loop (Z.to_nat n) np v start 0)
             _ np _ ju jv ju g).
    + simpl. by eapply lookup_insert_GenParams_other.
    + done.
    + apply framed_GetIntArrayElements.
    + intros v. apply framed_discr_loop.
    + intros v. apply framed_ReleaseIntArrayElements.
    + inv_solve.
Qed.

Lemma keeps_getRandContArray env obj np ju juaux jv start n :
  keeps (Java_umontreal_ssj_randvar_RandUnuran_getRandContArray
           env obj np ju juaux jv start n).
Proof.
  unfold Java_umontreal_ssj_randvar_RandUnuran_getRandContArray. cbv zeta.
  destruct (decide (juaux ≠ NULL)) as [Hju|Hju].
  - keeps_go.
  - intros s Hs. do 16 wlp_step. simplify_eq.
    apply (alias_tail_keeps (GetDoubleArrayElements _)
             (λ jv v, ReleaseDoubleArrayElements _ jv v 0)
             (λ v, cont_loop (Z.to_nat n) np v start 0)
             _ np _ ju jv ju g).
    + simpl. by eapply lookup_insert_GenParams_other.
    + done.
    + apply framed_GetDoubleArrayElements.
    + intros v. apply framed_cont_loop.
    + intros v. apply framed_ReleaseDoubleArrayElements.
    + inv_solve.
Qed.

Lemma adapters_inv_initial jh o : adapters_inv (initial jh o).
Proof.
  split; [done|split; [apply uwp_iff_null|]].
  intros np g H. simpl in H. by rewrite lookup_empty in H.
Qed.

Lemma keeps_elim {A} (m : M A) s a s' :
  keeps m → adapters_inv s → m s = Some (a, s') → adapters_inv s'.
Proof.
  intros Hm Hs E. specialize (Hm s Hs). unfold wlp in Hm. by rewrite E in Hm.
Qed.

Lemma reachable_adapters_inv s : reachable s → adapters_inv s.
Proof.
  induction 1 as [jh o|s s' _ IH Hj|s s' env obj str _ IH E|s s' env obj _ IH E
                  |s s' env obj u np r _ IH E|s s' env obj u np r _ IH E
                  |s s' env obj u np jvec _ IH E
                  |s s' env obj np ju juaux jv start n _ IH E
                  |s s' env obj np ju juaux jv start n _ IH E].
  - apply adapters_inv_initial.
  - destruct Hj as (_&_&_&_&_&Hd&_&_&Hh&Hb).
    by apply (adapters_inv_same s).
  - eapply keeps_elim; [apply keeps_init|done..].
  - eapply keeps_elim; [apply keeps_close|done..].
  - eapply keeps_elim; [apply keeps_getRandDisc|done..].
  - eapply keeps_elim; [apply keeps_getRandCont|done..].
  - eapply keeps_elim; [apply keeps_getRandVec|done..].
  - eapply keeps_elim; [apply keeps_getRandDiscArray|done..].
  - eapply keeps_elim; [apply keeps_getRandContArray|done..].
Qed.

End InvariantBatch.

Section Adapters.
Context `{P : Platform}.

Lemma set_heap_id (s : State) : set_heap (heap s) s = s.
Proof. by destruct s. Qed.

Lemma set_urng_null b :
  NativeParams.urng b = UrngWithParams.mk NULL NULL →
  NativeParams.set_urng (UrngWithParams.mk NULL NULL) b = b.
Proof. destruct b. simpl. by intros ->. Qed.

Lemma set_urng_aux_null b :
  NativeParams.urng_aux b = UrngWithParams.mk NULL NULL →
  NativeParams.set_urng_aux (UrngWithParams.mk NULL NULL) b = b.
Proof. destruct b. simpl. by intros ->. Qed.

Lemma uwp_null g :
  UrngWithParams.urng g = NULL → UrngWithParams.params g = NULL →
  g = UrngWithParams.mk NULL NULL.
Proof. destruct g. simpl. by intros -> ->. Qed.

(** [urng_jni_destroy (&np->urng)] on a valid structure *)
Lemma wp_destroy_urng np b (Q : unit → State → Prop) s :
  heap s !! NULL = None →
  heap s !! np = Some (BNativeParams b) →
  uwp_valid s (NativeParams.urng b) →
  Q tt (set_heap
          (<[np := BNativeParams
                     (NativeParams.set_urng (UrngWithParams.mk NULL NULL) b)]>
             (delete (UrngWithParams.urng (NativeParams.urng b))
                (delete (UrngWithParams.params (NativeParams.urng b))
                   (heap s)))) s) →
  wp (urng_jni_destroy (Some (at_urng np))) Q s.
Proof.
  intros H0 Hnp [[Hr Hp]|[[gp Hp] Hr]] HQ.
  - rewrite Hr, Hp in HQ. rewrite !(delete_id (heap s)) in HQ by done.
    rewrite set_urng_null in HQ by by apply uwp_null.
    rewrite insert_id, set_heap_id in HQ by done.
    simpl. wp_run. done.
  - assert (UrngWithParams.params (NativeParams.urng b) ≠ NULL) as Hp0
      by (intros E; rewrite E in Hp; congruence).
    assert (UrngWithParams.urng (NativeParams.urng b) ≠ NULL) as Hr0
      by (intros E; rewrite E in Hr; congruence).
    assert (UrngWithParams.params (NativeParams.urng b) ≠ np) as Hpnp
      by (intros E; rewrite E in Hp; congruence).
    assert (UrngWithParams.urng (NativeParams.urng b) ≠ np) as Hrnp
      by (intros E; rewrite E in Hr; congruence).
    assert (UrngWithParams.params (NativeParams.urng b)
            ≠ UrngWithParams.urng (NativeParams.urng b)) as Hpr
      by (intros E; rewrite E in Hp; congruence).
    simpl. wp_run.
    rewrite delete_insert_ne, insert_insert_eq by done.
    destruct b as [? ? ? [] [] ?]. exact HQ.
Qed.

(** [urng_jni_destroy (&np->urng_aux)] on a valid structure *)
Lemma wp_destroy_urng_aux np b (Q : unit → State → Prop) s :
  heap s !! NULL = None →
  heap s !! np = Some (BNativeParams b) →
  uwp_valid s (NativeParams.urng_aux b) →
  Q tt (set_heap
          (<[np := BNativeParams
                     (NativeParams.set_urng_aux (UrngWithParams.mk NULL NULL) b)]>
             (delete (UrngWithParams.urng (NativeParams.urng_aux b))
                (delete (UrngWithParams.params (NativeParams.urng_aux b))
                   (heap s)))) s) →
  wp (urng_jni_destroy (Some (at_urng_aux np))) Q s.
Proof.
  intros H0 Hnp [[Hr Hp]|[[gp Hp] Hr]] HQ.
  - rewrite Hr, Hp in HQ. rewrite !(delete_id (heap s)) in HQ by done.
    rewrite set_urng_aux_null in HQ by by apply uwp_null.
    rewrite insert_id, set_heap_id in HQ by done.
    simpl. wp_run. done.
  - assert (UrngWithParams.params (NativeParams.urng_aux b) ≠ NULL) as Hp0
      by (intros E; rewrite E in Hp; congruence).
    assert (UrngWithParams.urng (NativeParams.urng_aux b) ≠ NULL) as Hr0
      by (intros E; rewrite E in Hr; congruence).
    assert (UrngWithParams.params (NativeParams.urng_aux b) ≠ np) as Hpnp
      by (intros E; rewrite E in Hp; congruence).
    assert (UrngWithParams.urng (NativeParams.urng_aux b) ≠ np) as Hrnp
      by (intros E; rewrite E in Hr; congruence).
    assert (UrngWithParams.params (NativeParams.urng_aux b)
            ≠ UrngWithParams.urng (NativeParams.urng_aux b)) as Hpr
      by (intros E; rewrite E in Hp; congruence).
    simpl. wp_run.
    rewrite delete_insert_ne, insert_insert_eq by done.
    destruct b as [? ? ? [] [] ?]. exact HQ.
Qed.

Lemma heap_wf_fresh s a : heap_wf s → brk s ≤ a → heap s !! a = None.
Proof.
  intros [_ H] Ha. destruct (heap s !! a) eqn:E; [|done].
  assert (0 < a < brk s) by (apply H; eauto). lia.
Qed.

Lemma heap_wf_live s a b : heap_wf s → heap s !! a = Some b → 0 < a < brk s.
Proof. intros [_ H] Ha. apply H. eauto. Qed.

(** [urng_jni_create (&np->urng)] on a structure that has no generator:
    the parameter block cannot be allocated, the generator cannot, or both
    can. *)
Lemma wp_create_urng np b (Q : unit → State → Prop) s :
  heap_wf s →
  heap s !! np = Some (BNativeParams b) →
  UrngWithParams.urng (NativeParams.urng b) = NULL →
  (hd true (oracle s) = false →
   Q tt (set_heap
           (<[np := BNativeParams
                      (NativeParams.set_urng (UrngWithParams.mk NULL NULL) b)]>
              (heap s))
           (set_oracle (tl (oracle s)) s))) →
  (hd true (oracle s) = true → hd true (tl (oracle s)) = false →
   Q tt (set_heap
           (<[np := BNativeParams
                      (NativeParams.set_urng (UrngWithParams.mk NULL NULL) b)]>
              (heap s))
           (set_brk (brk s + 1) (set_oracle (tl (tl (oracle s))) s)))) →
  (hd true (oracle s) = true → hd true (tl (oracle s)) = true →
   Q tt (set_heap
           (<[np := BNativeParams
                      (NativeParams.set_urng
                         (UrngWithParams.mk (brk s + 1) (brk s)) b)]>
              (<[brk s + 1 := BUrng (UNUR_URNG.mk fn_unif_wrapper (brk s))]>
                 (<[brk s := BGenParams
                               (GenParams.set_unif fn_unif uninitialized)]>
                    (heap s))))
           (set_brk (brk s + 1 + 1) (set_oracle (tl (tl (oracle s))) s)))) →
  wp (urng_jni_create (at_urng np)) Q s.
Proof.
  intros Hwf Hnp Hr H1 H2 H3.
  pose proof (heap_wf_live _ _ _ Hwf Hnp) as Hlive.
  pose proof (heap_wf_fresh s (brk s) Hwf ltac:(lia)) as Hfresh.
  destruct b as [gen ms aux [r p] [ra pa] dim]. simpl in Hr. subst r.
  unfold urng_jni_create, urng_jni_destroy. wp_run.
  - specialize (H3 ltac:(done) ltac:(done)). conclude_with H3.
  - specialize (H2 ltac:(done) ltac:(done)). conclude_with H2.
  - specialize (H1 ltac:(done)). conclude_with H1.
Qed.

(** [urng_jni_create (&np->urng_aux)] on a structure that has no generator:
    the parameter block cannot be allocated, the generator cannot, or both
    can. *)
Lemma wp_create_urng_aux np b (Q : unit → State → Prop) s :
  heap_wf s →
  heap s !! np = Some (BNativeParams b) →
  UrngWithParams.urng (NativeParams.urng_aux b) = NULL →
  (hd true (oracle s) = false →
   Q tt (set_heap
           (<[np := BNativeParams
                      (NativeParams.set_urng_aux (UrngWithParams.mk NULL NULL) b)]>
              (heap s))
           (set_oracle (tl (oracle s)) s))) →
  (hd true (oracle s) = true → hd true (tl (oracle s)) = false →
   Q tt (set_heap
           (<[np := BNativeParams
                      (NativeParams.set_urng_aux (UrngWithParams.mk NULL NULL) b)]>
              (heap s))
           (set_brk (brk s + 1) (set_oracle (tl (tl (oracle s))) s)))) →
  (hd true (oracle s) = true → hd true (tl (oracle s)) = true →
   Q tt (set_heap
           (<[np := BNativeParams
                      (NativeParams.set_urng_aux
                         (UrngWithParams.mk (brk s + 1) (brk s)) b)]>
              (<[brk s + 1 := BUrng (UNUR_URNG.mk fn_unif_wrapper (brk s))]>
                 (<[brk s := BGenParams
                               (GenParams.set_unif fn_unif uninitialized)]>
                    (heap s))))
           (set_brk (brk s + 1 + 1) (set_oracle (tl (tl (oracle s))) s)))) →
  wp (urng_jni_create (at_urng_aux np)) Q s.
Proof.
  intros Hwf Hnp Hr H1 H2 H3.
  pose proof (heap_wf_live _ _ _ Hwf Hnp) as Hlive.
  pose proof (heap_wf_fresh s (brk s) Hwf ltac:(lia)) as Hfresh.
  destruct b as [gen ms aux [r p] [ra pa] dim]. simpl in Hr. subst ra.
  unfold urng_jni_create, urng_jni_destroy. wp_run.
  - specialize (H3 ltac:(done) ltac:(done)). conclude_with H3.
  - specialize (H2 ltac:(done) ltac:(done)). conclude_with H2.
  - specialize (H1 ltac:(done)). conclude_with H1.
Qed.

(** [urng_jni_create (&default_urng)] when there is no default generator *)
Lemma wp_create_default (Q : unit → State → Prop) s :
  heap_wf s →
  UrngWithParams.urng (default_urng s) = NULL →
  (hd true (oracle s) = false →
   Q tt (set_default_urng (UrngWithParams.mk NULL NULL)
           (set_oracle (tl (oracle s)) s))) →
  (hd true (oracle s) = true → hd true (tl (oracle s)) = false →
   Q tt (set_default_urng (UrngWithParams.mk NULL NULL)
           (set_brk (brk s + 1) (set_oracle (tl (tl (oracle s))) s)))) →
  (hd true (oracle s) = true → hd true (tl (oracle s)) = true →
   Q tt (set_default_urng (UrngWithParams.mk (brk s + 1) (brk s))
           (set_heap
              (<[brk s + 1 := BUrng (UNUR_URNG.mk fn_unif_wrapper (brk s))]>
                 (<[brk s := BGenParams
                               (GenParams.set_unif fn_unif uninitialized)]>
                    (heap s)))
              (set_brk (brk s + 1 + 1) (set_oracle (tl (tl (oracle s))) s))))) →
  wp (urng_jni_create at_default_urng) Q s.
Proof.
  intros Hwf Hr H1 H2 H3.
  pose proof (heap_wf_fresh s (brk s) Hwf ltac:(lia)) as Hfresh.
  destruct Hwf as [Hbrk _].
  destruct s as [? ? ? ? ? [r p] ? ? h k ? ? ? ? ?]. simpl in *. subst r.
  unfold urng_jni_create, urng_jni_destroy. wp_run.
  - specialize (H3 ltac:(done) ltac:(done)). conclude_with H3.
  - specialize (H2 ltac:(done) ltac:(done)). conclude_with H2.
  - specialize (H1 ltac:(done)). conclude_with H1.
Qed.

(** [urng_jni_destroy (&default_urng)] on a valid structure *)
Lemma wp_destroy_default (Q : unit → State → Prop) s :
  heap s !! NULL = None →
  uwp_valid s (default_urng s) →
  Q tt (set_default_urng (UrngWithParams.mk NULL NULL)
          (set_heap
             (delete (UrngWithParams.urng (default_urng s))
                (delete (UrngWithParams.params (default_urng s)) (heap s)))
             s)) →
  wp (urng_jni_destroy (Some at_default_urng)) Q s.
Proof.
  intros H0 Hv HQ.
  destruct s as [? ? ? ? ? [r p] ? ? h k ? ? ? ? ?]. simpl in *.
  destruct Hv as [[Hr Hp]|[[gp Hp] Hr]]; simpl in *.
  - subst r p. rewrite !(delete_id h) in HQ by done. wp_run. exact HQ.
  - assert (p ≠ NULL) by (intros ->; congruence).
    assert (r ≠ NULL) by (intros ->; congruence).
    assert (p ≠ r) by (intros ->; congruence).
    wp_run. exact HQ.
Qed.

End Adapters.

(** The structure at a location in a state given by its writes. *)
Ltac uwp_leaf :=
  split_lookups;
  repeat match goal with
  | H : ¬ (_ ≠ _) |- _ => apply dec_stable in H
  end;
  unfold uwp_at, native_params; simpl_state;
  rewrite ?lookup_insert_eq;
  repeat match goal with
  | g : NativeParams.t |- _ => destruct g as [? ? ? [? ?] [? ?] ?]
  | g : UrngWithParams.t |- _ => destruct g as [? ? ]
  end;
  simpl in *; simplify_eq;
  repeat match goal with
  | H : ?m !! ?a = Some _ |- context [?m !! ?a] => rewrite H
  end;
  simpl.

Section AllOrNothing.
Context `{P : Platform}.

Lemma create_partial loc s :
  wlp (urng_jni_create loc)
    (λ _ s', ∃ g, uwp_at s' loc = Some g ∧ uwp_iff g) s.
Proof.
  destruct s as [? ? ? ? ? d ? ? h k ? ? ? ? ?].
  unfold urng_jni_create, urng_jni_destroy.
  destruct loc as [|np|np]; simpl; wlp_run; uwp_leaf;
    (eexists; split; [reflexivity|]); unfold uwp_iff; simpl; tauto.
Qed.

Lemma destroy_partial loc s :
  wlp (urng_jni_destroy (Some loc))
    (λ _ s', uwp_at s' loc = Some (UrngWithParams.mk NULL NULL)) s.
Proof.
  destruct s as [? ? ? ? ? d ? ? h k ? ? ? ? ?].
  destruct loc as [|np|np]; simpl; wlp_run; by uwp_leaf.
Qed.

End AllOrNothing.

Section AllOrNothingTotal.
Context `{P : Platform}.

Lemma uwp_valid_ne s np b g :
  heap s !! NULL = None → heap s !! np = Some (BNativeParams b) →
  uwp_valid s g →
  UrngWithParams.urng g ≠ np ∧ UrngWithParams.params g ≠ np.
Proof.
  intros H0 Hnp [[-> ->]|[[gp Hp] Hr]]; split; intros E;
    rewrite ?E in *; congruence.
Qed.

Lemma dom_destroyed (h : gmap Z Block) np x r p :
  r ≠ np → p ≠ np → is_Some (h !! np) →
  dom (<[np := x]> (delete r (delete p h))) = dom h ∖ {[r; p]}.
Proof.
  intros Hr Hp Hnp. rewrite dom_insert_lookup_L.
  - rewrite !dom_delete_L. set_solver.
  - by rewrite !lookup_delete_ne.
Qed.

Lemma create_total loc s g :
  heap_wf s → uwp_at s loc = Some g → UrngWithParams.urng g = NULL →
  ∃ s', urng_jni_create loc s = Some (tt, s') ∧
    ∃ g', uwp_at s' loc = Some g' ∧
      ((UrngWithParams.urng g' ≠ NULL ∧ UrngWithParams.params g' ≠ NULL ∧
        heap s' !! UrngWithParams.params g'
          = Some (BGenParams (GenParams.set_unif fn_unif uninitialized)) ∧
        heap s' !! UrngWithParams.urng g'
          = Some (BUrng (UNUR_URNG.mk fn_unif_wrapper
                           (UrngWithParams.params g'))) ∧
        dom (heap s')
          = {[UrngWithParams.urng g'; UrngWithParams.params g']} ∪ dom (heap s))
       ∨ (g' = UrngWithParams.mk NULL NULL ∧ dom (heap s') = dom (heap s))).
Proof.
  intros Hwf Hat Hr.
  assert (heap s !! brk s = None) as Hf0 by (apply heap_wf_fresh; [done|lia]).
  assert (heap s !! (brk s + 1) = None) as Hf1
    by (apply heap_wf_fresh; [done|lia]).
  assert (0 < brk s) as Hb by by destruct Hwf.
  apply wp_elim_unit. destruct loc as [|np|np]; simpl in Hat.
  - injection Hat as <-.
    apply wp_create_default; [done..| | |]; intros; eexists;
      (split; [reflexivity|]); simpl.
    + by right.
    + by right.
    + left. rewrite lookup_insert_ne, !lookup_insert_eq by lia.
      rewrite !dom_insert_L. repeat split; try lia; try done. set_solver.
  - destruct (native_params s np) as [b|] eqn:Hnp; [|done].
    injection Hat as <-. apply native_params_lookup in Hnp.
    pose proof (heap_wf_live _ _ _ Hwf Hnp) as Hlive.
    apply (wp_create_urng np b); [done..| | |]; intros; eexists;
      (split; [unfold uwp_at, native_params; simpl;
               rewrite lookup_insert_eq; reflexivity|]); simpl.
    + right. split; [done|]. by apply dom_insert_lookup_L.
    + right. split; [done|]. by apply dom_insert_lookup_L.
    + left. rewrite !(lookup_insert_ne _ np) by lia.
      rewrite lookup_insert_ne, !lookup_insert_eq by lia.
      rewrite !dom_insert_L. repeat split; try lia; try done.
      apply elem_of_dom_2 in Hnp. set_solver.
  - destruct (native_params s np) as [b|] eqn:Hnp; [|done].
    injection Hat as <-. apply native_params_lookup in Hnp.
    pose proof (heap_wf_live _ _ _ Hwf Hnp) as Hlive.
    apply (wp_create_urng_aux np b); [done..| | |]; intros; eexists;
      (split; [unfold uwp_at, native_params; simpl;
               rewrite lookup_insert_eq; reflexivity|]); simpl.
    + right. split; [done|]. by apply dom_insert_lookup_L.
    + right. split; [done|]. by apply dom_insert_lookup_L.
    + left. rewrite !(lookup_insert_ne _ np) by lia.
      rewrite lookup_insert_ne, !lookup_insert_eq by lia.
      rewrite !dom_insert_L. repeat split; try lia; try done.
      apply elem_of_dom_2 in Hnp. set_solver.
Qed.

Lemma destroy_total loc s g :
  heap s !! NULL = None → uwp_at s loc = Some g → uwp_valid s g →
  ∃ s', urng_jni_destroy (Some loc) s = Some (tt, s') ∧
    uwp_at s' loc = Some (UrngWithParams.mk NULL NULL) ∧
    dom (heap s')
      = dom (heap s) ∖ {[UrngWithParams.urng g; UrngWithParams.params g]} ∧
    (g = UrngWithParams.mk NULL NULL → s' = s).
Proof.
  intros H0 Hat Hv. apply wp_elim_unit. destruct loc as [|np|np]; simpl in Hat.
  - injection Hat as <-. apply wp_destroy_default; [done..|].
    split; [reflexivity|]. simpl. rewrite !dom_delete_L. split; [set_solver|].
    intros E. rewrite E. simpl. rewrite !(delete_id (heap s)) by done.
    destruct s; simpl in *. by rewrite E.
  - destruct (native_params s np) as [b|] eqn:Hnp; [|done].
    injection Hat as <-. apply native_params_lookup in Hnp.
    destruct (uwp_valid_ne _ _ _ _ H0 Hnp Hv) as [Hr Hp].
    apply (wp_destroy_urng np b); [done..|].
    split; [|split].
    + unfold uwp_at, native_params. simpl. by rewrite lookup_insert_eq.
    + simpl. by apply dom_destroyed.
    + intros E. rewrite E. simpl. rewrite !(delete_id (heap s)) by done.
      rewrite set_urng_null, insert_id, set_heap_id by done. done.
  - destruct (native_params s np) as [b|] eqn:Hnp; [|done].
    injection Hat as <-. apply native_params_lookup in Hnp.
    destruct (uwp_valid_ne _ _ _ _ H0 Hnp Hv) as [Hr Hp].
    apply (wp_destroy_urng_aux np b); [done..|].
    split; [|split].
    + unfold uwp_at, native_params. simpl. by rewrite lookup_insert_eq.
    + simpl. by apply dom_destroyed.
    + intros E. rewrite E. simpl. rewrite !(delete_id (heap s)) by done.
      rewrite set_urng_aux_null, insert_id, set_heap_id by done. done.
Qed.

(** ** C10 *)

(** C10.  Adapter allocation is all-or-nothing.  Whenever
    [urng_jni_create] returns, the structure has both members non-null or
    both null; on a structure without a generator in a well-formed heap it
    does return, with two new live blocks on success and with the heap
    blocks of before on failure.  Whenever [urng_jni_destroy] returns, both
    members are null; on a valid structure it does return, having freed the
    blocks of the structure, and on a structure that was destroyed or never
    created (and on a null pointer) it changes nothing.  So in every
    reachable state the default generator and the two adapter structures of
    every handle have a generator exactly when they have a parameter
    block. *)
Theorem adapter_allocation_all_or_nothing :
  (∀ loc s s',
     urng_jni_create loc s = Some (tt, s') →
     ∃ g, uwp_at s' loc = Some g ∧ uwp_iff g) ∧
  (∀ loc s g,
     heap_wf s → uwp_at s loc = Some g → UrngWithParams.urng g = NULL →
     ∃ s', urng_jni_create loc s = Some (tt, s') ∧
       ∃ g', uwp_at s' loc = Some g' ∧
         ((UrngWithParams.urng g' ≠ NULL ∧ UrngWithParams.params g' ≠ NULL ∧
           heap s' !! UrngWithParams.params g'
             = Some (BGenParams (GenParams.set_unif fn_unif uninitialized)) ∧
           heap s' !! UrngWithParams.urng g'
             = Some (BUrng (UNUR_URNG.mk fn_unif_wrapper
                              (UrngWithParams.params g'))) ∧
           dom (heap s')
             = {[UrngWithParams.urng g'; UrngWithParams.params g']}
               ∪ dom (heap s))
          ∨ (g' = UrngWithParams.mk NULL NULL ∧
             dom (heap s') = dom (heap s)))) ∧
  (∀ loc s s',
     urng_jni_destroy (Some loc) s = Some (tt, s') →
     uwp_at s' loc = Some (UrngWithParams.mk NULL NULL)) ∧
  (∀ loc s g,
     heap s !! NULL = None → uwp_at s loc = Some g → uwp_valid s g →
     ∃ s', urng_jni_destroy (Some loc) s = Some (tt, s') ∧
       uwp_at s' loc = Some (UrngWithParams.mk NULL NULL) ∧
       dom (heap s')
         = dom (heap s) ∖ {[UrngWithParams.urng g; UrngWithParams.params g]} ∧
       (g = UrngWithParams.mk NULL NULL → s' = s)) ∧
  (∀ s, urng_jni_destroy None s = Some (tt, s)) ∧
  (∀ s, reachable s → adapters_inv s).
Proof.
  split; [|split; [|split; [|split; [|split]]]].
  - intros loc s s' E. revert E.
    apply (wlp_elim _ (λ _ s', ∃ g, uwp_at s' loc = Some g ∧ uwp_iff g)).
    apply create_partial.
  - apply create_total.
  - intros loc s s' E. revert E.
    apply (wlp_elim _ (λ _ s', uwp_at s' loc
                                 = Some (UrngWithParams.mk NULL NULL))).
    apply destroy_partial.
  - apply destroy_total.
  - done.
  - apply reachable_adapters_inv.
Qed.

End AllOrNothingTotal.

Section Close.
Context `{P : Platform}.

Lemma wp_unur_free gen (Q : unit → State → Prop) s :
  heap s !! NULL = None →
  (gen = NULL ∨ ∃ d, heap s !! gen = Some (BGen d)) →
  Q tt (set_heap (delete gen (heap s)) s) →
  wp (unur_free gen) Q s.
Proof.
  intros H0 [->|[d Hd]] HQ; unfold unur_free.
  - rewrite delete_id, set_heap_id in HQ by done. by wp_run.
  - assert (gen ≠ NULL) by (intros ->; congruence). by wp_run.
Qed.

(** The two [DeleteGlobalRef] calls of [close] *)
Lemma wp_release_refs {A} env g l (k : M A) (Q : A → State → Prop) s :
  env = thread_env →
  release_refs g (globalrefs s) = Some l →
  wp k Q (set_globalrefs l s) →
  wp ((if decide (NativeParams.objAuxStream g ≠ NULL)
       then DeleteGlobalRef env (NativeParams.objAuxStream g) else ret tt);;
      (if decide (NativeParams.objMainStream g ≠ NULL)
       then DeleteGlobalRef env (NativeParams.objMainStream g) else ret tt);;
      k) Q s.
Proof.
  intros Henv Hl Hk. unfold release_refs in Hl.
  destruct s as [? ? ? ? ? ? ? ? ? ? ? refs ? ? ?]. simpl in *.
  apply wp_bind.
  destruct (decide (NativeParams.objAuxStream g ≠ NULL)).
  - destruct (remove_one (NativeParams.objAuxStream g) refs) as [l1|] eqn:E1;
      [|done]. simpl in Hl.
    eapply wp_DeleteGlobalRef; [done|exact E1|]. apply wp_bind.
    destruct (decide (NativeParams.objMainStream g ≠ NULL)).
    + eapply wp_DeleteGlobalRef; [done|exact Hl|]. exact Hk.
    + apply wp_ret. by injection Hl as <-.
  - simpl in Hl. apply wp_ret, wp_bind.
    destruct (decide (NativeParams.objMainStream g ≠ NULL)).
    + eapply wp_DeleteGlobalRef; [done|exact Hl|]. exact Hk.
    + apply wp_ret. by injection Hl as <-.
Qed.

(** [close] on an object without a handle *)
Lemma wp_close_null env obj ms aux (Q : unit → State → Prop) s :
  env = thread_env →
  fidNativeParams s = Some "nativeParams"%string →
  jheap s !! obj = Some (JRandUnuran NULL ms aux) →
  Q tt s →
  wp (Java_umontreal_ssj_randvar_RandUnuran_close env obj) Q s.
Proof.
  intros Henv Hfid Hobj HQ.
  destruct s as [? ? ? ? ? ? ? ? ? ? ? ? pend ? ?]. simpl in *.
  unfold Java_umontreal_ssj_randvar_RandUnuran_close.
  destruct pend as [ex|]; wp_run; exact HQ.
Qed.

(** [close] on an object with a handle, fully or partly constructed *)
Lemma wp_close_live env obj np g l ms aux (Q : unit → State → Prop) s :
  env = thread_env →
  fidNativeParams s = Some "nativeParams"%string →
  heap s !! NULL = None →
  jheap s !! obj = Some (JRandUnuran np ms aux) →
  np ≠ NULL →
  heap s !! np = Some (BNativeParams g) →
  uwp_valid s (NativeParams.urng g) →
  uwp_valid s (NativeParams.urng_aux g) →
  (UrngWithParams.params (NativeParams.urng g) ≠ NULL →
   UrngWithParams.params (NativeParams.urng g)
     ≠ UrngWithParams.params (NativeParams.urng_aux g)) →
  (UrngWithParams.urng (NativeParams.urng g) ≠ NULL →
   UrngWithParams.urng (NativeParams.urng g)
     ≠ UrngWithParams.urng (NativeParams.urng_aux g)) →
  (NativeParams.unurgen g = NULL ∨
   ∃ d, heap s !! NativeParams.unurgen g = Some (BGen d)) →
  release_refs g (globalrefs s) = Some l →
  Q tt (set_jheap (<[obj := JRandUnuran NULL ms aux]> (jheap s))
          (set_globalrefs l (set_heap (free_handle np g (heap s)) s))) →
  wp (Java_umontreal_ssj_randvar_RandUnuran_close env obj) Q s.
Proof.
  intros Henv Hfid H0 Hobj Hnp0 Hnp Hv Hva Hpp Hrr Hgen Hl HQ.
  destruct s as [? ? ? ? ? ? ? ? h ? jh refs pend ? ?]. simpl in *.
  unfold Java_umontreal_ssj_randvar_RandUnuran_close.
  wp_run.
  apply (wp_destroy_urng_aux np g); [exact H0|exact Hnp|exact Hva|].
  simpl_state. norm_state. wp_step.
  assert (0 ≠ np) as Hnp0' by done.
  unfold uwp_valid in Hv, Hva. simpl in *.
  set (gen := NativeParams.unurgen g) in *.
  set (r := UrngWithParams.urng (NativeParams.urng g)) in *.
  set (p := UrngWithParams.params (NativeParams.urng g)) in *.
  set (ra := UrngWithParams.urng (NativeParams.urng_aux g)) in *.
  set (pa := UrngWithParams.params (NativeParams.urng_aux g)) in *.
  assert (pa ≠ np ∧ ra ≠ np ∧ p ≠ np ∧ r ≠ np) as (Hpanp & Hranp & Hpnp & Hrnp).
  { destruct Hv as [[? ?]|[[gp Hp] Hr]], Hva as [[? ?]|[[gpa Hpa] Hra]];
      repeat split; congruence. }
  assert (gen ≠ np) as Hgennp by (destruct Hgen as [?|[d Hd]]; congruence).
  assert (p ≠ NULL → p ≠ ra ∧ r ≠ pa ∧ p ≠ r ∧ p ≠ pa ∧ r ≠ ra) as Hlive.
  { intros Hp0. destruct Hv as [[? ?]|[[gp Hp] Hr]]; [done|].
    assert (r ≠ NULL) as Hr0 by congruence.
    specialize (Hpp Hp0). specialize (Hrr Hr0).
    destruct Hva as [[? ?]|[[gpa Hpa] Hra]]; repeat split; congruence. }
  eapply (wp_destroy_urng np).
  - simpl. by repeat first [ rewrite lookup_insert_ne by done
                            | rewrite lookup_delete_None; right ].
  - simpl. apply lookup_insert_eq.
  - unfold uwp_valid. simpl.
    destruct Hv as [[? ?]|[[gp Hp] Hr]]; [by left|right].
    assert (p ≠ NULL) as Hp0 by congruence.
    destruct (Hlive Hp0) as (?&?&?&?&?).
    rewrite !lookup_insert_ne, !lookup_delete_ne by done. eauto.
  - simpl_state. norm_state. wp_run.
    apply wp_unur_free.
    { simpl. by repeat first [ rewrite lookup_insert_ne by done
                             | rewrite lookup_delete_None; right ]. }
    { simpl. destruct Hgen as [?|[d Hd]]; [by left|right]. exists d.
      assert (gen ≠ p ∧ gen ≠ r ∧ gen ≠ pa ∧ gen ≠ ra) as (?&?&?&?).
      { destruct Hv as [[? ?]|[[gp Hp] Hr]],
          Hva as [[? ?]|[[gpa Hpa] Hra]]; repeat split; congruence. }
      by repeat first [ rewrite lookup_insert_ne by done
                      | rewrite lookup_delete_ne by done ]. }
    simpl_state. norm_state.
    eapply (wp_release_refs _ g); [done|exact Hl|].
    norm_state.
    eapply wp_bind, wp_free; [done|..].
    { simpl. rewrite lookup_delete_ne by done. apply lookup_insert_eq. }
    simpl_state. norm_state.
    destruct pend as [ex|]; wp_run; conclude_with HQ.
Qed.

Lemma close_total env obj s :
  close_pre env obj s →
  Java_umontreal_ssj_randvar_RandUnuran_close env obj s
    = Some (tt, close_state obj s).
Proof.
  intros (Henv & Hfid & H0 & np & Hh & Hnp).
  unfold handle_of in Hh.
  destruct (jheap s !! obj) as [[np' ms aux| | |]|] eqn:Hobj; try done.
  injection Hh as ->.
  assert (∀ m s', wp m (λ _ s'', s'' = s') s → m s = Some (tt, s')) as Hwp.
  { intros m s' H. apply wp_elim_unit in H as (s'' & E & ->). done. }
  apply Hwp. unfold close_state. rewrite Hobj.
  destruct Hnp as [->|(g & Hg & Hv & Hva & Hpp & Hrr & Hgen & [l Hl])].
  - unfold native_params. rewrite H0. by eapply wp_close_null.
  - assert (np ≠ NULL) by (intros ->; congruence).
    unfold native_params. rewrite Hg, Hl. simpl.
    by eapply (wp_close_live env obj np g l).
Qed.

Lemma close_pre_pending env obj s ex :
  close_pre env obj s → close_pre env obj (set_pending ex s).
Proof. done. Qed.

Lemma close_state_pending obj s :
  close_state obj s
  = set_pending (pending s) (close_state obj (set_pending None s)).
Proof.
  unfold close_state, native_params. destruct s as [? ? ? ? ? ? ? ? h ? jh ? ? ? ?].
  simpl. destruct (jh !! obj) as [[np ms aux| | |]|]; try done.
  by destruct (h !! np) as [[]|].
Qed.

Lemma pending_close_state obj s : pending (close_state obj s) = pending s.
Proof.
  unfold close_state. destruct (jheap s !! obj) as [[np ms aux| | |]|]; try done.
  by destruct (native_params s np).
Qed.

(** ** C5 *)

(** C5.  A call of [close] with an exception pending, on an object whose
    handle is null or a handle fully or partly constructed, returns.  It
    does the cleanup it does from the same state with no exception pending,
    which leaves no exception pending, and then leaves exactly the
    exception of the start pending. *)
Theorem close_rethrows_pending env obj s ex :
  close_pre env obj s → pending s = Some ex →
  ∃ s0,
    Java_umontreal_ssj_randvar_RandUnuran_close env obj (set_pending None s)
      = Some (tt, s0) ∧
    pending s0 = None ∧
    Java_umontreal_ssj_randvar_RandUnuran_close env obj s
      = Some (tt, set_pending (Some ex) s0).
Proof.
  intros Hpre Hex. exists (close_state obj (set_pending None s)).
  split; [|split].
  - apply close_total. by apply close_pre_pending.
  - by rewrite pending_close_state.
  - rewrite <- Hex, <- close_state_pending. by apply close_total.
Qed.

(** A completed [close] leaves a null handle, and a further [close] changes
    nothing. *)
Lemma close_state_handle obj s np :
  handle_of s obj = Some np → heap s !! NULL = None →
  (np = NULL ∨ is_Some (native_params s np)) →
  handle_of (close_state obj s) obj = Some NULL.
Proof.
  unfold handle_of, close_state. intros Hh H0 Hnp.
  destruct (jheap s !! obj) as [[np' ms aux| | |]|] eqn:Hobj; try done.
  injection Hh as ->.
  destruct Hnp as [->|[g Hg]].
  - unfold native_params. by rewrite H0, Hobj.
  - rewrite Hg. simpl. by rewrite lookup_insert_eq.
Qed.

End Close.

Section ClassInit.
Context `{P : Platform}.



End ClassInit.





Section ClassInitTotal.
Context `{P : Platform}.







End ClassInitTotal.







Section Construction.
Context `{P : Platform}.









(** ** C6 *)


End Construction.

(** * The theorems at work on the test double *)

Section Concrete.

#[local] Existing Instance fake_platform.

(** Conjunctions of closed equations, by evaluation. *)
Ltac evaluate :=
  repeat match goal with |- _ ∧ _ => split end; vm_compute; reflexivity.

(** C1 on the primed adapter: 0.5 first, then the stream's numbers. *)
Lemma cached_value_then_call_through_witness :
  let g := gen_params_at primed 5 in
  let rs := mkStream main_numbers 1 in
  (heap primed !! 5 = Some (BGenParams g) ∧
   GenParams.unif g = fn_cons ∧
   GenParams.env g = thread_env ∧
   pending primed = None ∧
   midNextDouble primed = Some "nextDouble"%string ∧
   jheap primed !! GenParams.rsObj g = Some (JRandomStream rs)) ∧
  ∃ s', pulls 3 5 primed = Some (GenParams.u g :: rs_take 2 rs, s').
Proof.
  intros g rs.
  assert (heap primed !! 5 = Some (BGenParams g)) as H1
    by (vm_compute; reflexivity).
  assert (GenParams.unif g = fn_cons) as H2 by (vm_compute; reflexivity).
  assert (GenParams.env g = thread_env) as H3 by (vm_compute; reflexivity).
  assert (pending primed = None) as H4 by (vm_compute; reflexivity).
  assert (midNextDouble primed = Some "nextDouble"%string) as H5
    by (vm_compute; reflexivity).
  assert (jheap primed !! GenParams.rsObj g = Some (JRandomStream rs)) as H6
    by (vm_compute; reflexivity).
  split; [repeat match goal with |- _ ∧ _ => split end; assumption|].
  pose proof (cached_value_then_call_through primed 5 g rs 2 H1 H2 H3 H4 H5 H6)
    as HH.
  destruct HH as [_ (s' & E & _)]. exists s'. exact E.
Defined.

(** C2 on the adapter in array mode over three elements: four draws take
    two refills. *)
Lemma array_stream_refills_witness :
  let g := gen_params_at arrayed 5 in
  let rs := mkStream main_numbers 1 in
  let l := [0; 0; 0]%float in
  (heap arrayed !! 5 = Some (BGenParams g) ∧
   GenParams.unif g = fn_arr ∧
   GenParams.n g = Z.of_nat 3 ∧
   GenParams.nextIndex g = Z.of_nat 3 ∧
   (0 < 3)%nat ∧ (3 ≤ length l)%nat ∧
   GenParams.env g = thread_env ∧
   pending arrayed = None ∧
   midNextArrayOfDouble arrayed = Some "nextArrayOfDouble"%string ∧
   jheap arrayed !! GenParams.rsObj g = Some (JRandomStream rs) ∧
   jheap arrayed !! GenParams.junifArray g = Some (JDoubleArray l)) ∧
  ∃ s', pulls 4 5 arrayed
        = Some (rs_take 3 rs ++ [rs_seq rs (rs_pos rs + 3)], s').
Proof.
  intros g rs l.
  assert (heap arrayed !! 5 = Some (BGenParams g)) as H1
    by (vm_compute; reflexivity).
  assert (GenParams.unif g = fn_arr) as H2 by (vm_compute; reflexivity).
  assert (GenParams.n g = Z.of_nat 3) as H3 by (vm_compute; reflexivity).
  assert (GenParams.nextIndex g = Z.of_nat 3) as H4
    by (vm_compute; reflexivity).
  assert (0 < 3)%nat as H5 by lia.
  assert (3 ≤ length l)%nat as H6 by (simpl; lia).
  assert (GenParams.env g = thread_env) as H7 by (vm_compute; reflexivity).
  assert (pending arrayed = None) as H8 by (vm_compute; reflexivity).
  assert (midNextArrayOfDouble arrayed = Some "nextArrayOfDouble"%string) as H9
    by (vm_compute; reflexivity).
  assert (jheap arrayed !! GenParams.rsObj g = Some (JRandomStream rs)) as H10
    by (vm_compute; reflexivity).
  assert (jheap arrayed !! GenParams.junifArray g = Some (JDoubleArray l))
    as H11 by (vm_compute; reflexivity).
  split; [repeat match goal with |- _ ∧ _ => split end; assumption|].
  pose proof (array_stream_refills arrayed 5 g rs l 3
                H1 H2 H3 H4 H5 H6 H7 H8 H9 H10 H11) as HH.
  cbv zeta in HH. destruct HH as [_ (s' & E & _)]. exists s'. exact E.
Defined.

(** C3 at work: a discrete batch of three with the distinct auxiliary
    array 301.  The call returns; the auxiliary adapter, block 7, has been
    given the array but is still in call-through mode; the three auxiliary
    draws of the loop are three calls of nextDouble on the auxiliary stream
    201, which has advanced by three, and array 301 has never been refilled:
    its contents are those of the start. *)
Lemma aux_array_is_not_drawn_from :
  ∃ s',
    Java_umontreal_ssj_randvar_RandUnuran_getRandDiscArray
      1000 100 3 300 301 400 0 3 ready = Some (tt, s') ∧
    GenParams.junifArray (gen_params_at s' 7) = 301 ∧
    mode s' 7 = Some fn_unif ∧
    mode s' 5 = Some fn_arr ∧
    filter (λ e, bool_decide (is_refill e ∨ is_nextDouble e)) (trace s')
      = [EvNextDouble 201; EvNextDouble 201; EvNextDouble 201;
         EvNextArrayOfDouble 200 300 0 3; EvNextDouble 200] ∧
    jheap s' !! 301 = jheap ready !! 301 ∧
    jheap s' !! 201 = Some (JRandomStream (mkStream aux_numbers 3)).
Proof.
  exists (after (Java_umontreal_ssj_randvar_RandUnuran_getRandDiscArray
                   1000 100 3 300 301 400 0 3) ready).
  evaluate.
Qed.

(** C4 at work: the first construction of the process fails while the class
    is initialized, before the id of the field [nativeParams] is resolved.
    The object has no handle, and [close] on it has no result: it reads the
    field through an id that was never resolved. *)
Lemma close_after_failed_class_init :
  Java_umontreal_ssj_randvar_RandUnuran_init 1000 100 "normal()"
    (initial test_jheap [false])
    = Some (tt, set_pending
                  (Some (mkThrowable UnuranException
                           "cannot create default uniform rng"))
                  failed_first_init) ∧
  handle_of failed_first_init 100 = Some NULL ∧
  pending failed_first_init = None ∧
  fidNativeParams failed_first_init = None ∧
  Java_umontreal_ssj_randvar_RandUnuran_close 1000 100 failed_first_init
    = None.
Proof. evaluate. Qed.

(** C5 on the constructed handle: [close] with an exception pending. *)
Lemma ready_handle_wf s :
  heap s = heap ready → globalrefs s = globalrefs ready → handle_wf s 3.
Proof.
  intros Hh Hr. exists (native_params_at ready 3). unfold uwp_valid.
  rewrite Hh, Hr.
  split; [vm_compute; reflexivity|].
  split; [right; split; [exists (gen_params_at ready 5)|];
          vm_compute; reflexivity|].
  split; [right; split; [exists (gen_params_at ready 7)|];
          vm_compute; reflexivity|].
  split; [intros _; vm_compute; lia|].
  split; [intros _; vm_compute; lia|].
  split; [right; exists (gen_at ready 4); vm_compute; reflexivity|].
  exists []. vm_compute. reflexivity.
Qed.

Lemma close_rethrows_pending_witness :
  (close_pre 1000 100 interrupted ∧ pending interrupted = Some thrown) ∧
  ∃ s0,
    Java_umontreal_ssj_randvar_RandUnuran_close 1000 100
      (set_pending None interrupted) = Some (tt, s0) ∧
    pending s0 = None ∧
    Java_umontreal_ssj_randvar_RandUnuran_close 1000 100 interrupted
      = Some (tt, set_pending (Some thrown) s0).
Proof.
  assert (close_pre 1000 100 interrupted) as H1.
  { split; [reflexivity|]. split; [vm_compute; reflexivity|].
    split; [vm_compute; reflexivity|]. exists 3.
    split; [vm_compute; reflexivity|]. right.
    apply ready_handle_wf; vm_compute; reflexivity. }
  assert (pending interrupted = Some thrown) as H2
    by (vm_compute; reflexivity).
  split; [split; assumption|].
  exact (close_rethrows_pending 1000 100 interrupted thrown H1 H2).
Defined.








(** C9 on the one-element array 500 and the handle of dimension 2. *)
Lemma short_vector_is_rejected_witness :
  let g := native_params_at ready 3 in
  let gp := gen_params_at ready 5 in
  let gpa := gen_params_at ready 7 in
  let l := [0%float] in
  (1000 = thread_env ∧ pending ready = None ∧
   native_params ready 3 = Some g ∧
   heap ready !! UrngWithParams.params (NativeParams.urng g)
     = Some (BGenParams gp) ∧
   heap ready !! UrngWithParams.params (NativeParams.urng_aux g)
     = Some (BGenParams gpa) ∧
   jheap ready !! 500 = Some (JDoubleArray l) ∧
   Z.of_nat (length l) < NativeParams.dim g) ∧
  ∃ s',
    Java_umontreal_ssj_randvar_RandUnuran_getRandVec 1000 100 0.5 3 500 ready
      = Some (tt, s') ∧
    trace s' = trace ready ∧ jheap s' = jheap ready ∧
    pending s' =
      Some (if hd true (oracle ready)
            then mkThrowable UnuranException "array too short"
            else mkThrowable "java/lang/NoClassDefFoundError" UnuranException).
Proof.
  intros g gp gpa l.
  assert (1000 = thread_env) as H1 by reflexivity.
  assert (pending ready = None) as H2 by (vm_compute; reflexivity).
  assert (native_params ready 3 = Some g) as H3 by (vm_compute; reflexivity).
  assert (heap ready !! UrngWithParams.params (NativeParams.urng g)
          = Some (BGenParams gp)) as H4 by (vm_compute; reflexivity).
  assert (heap ready !! UrngWithParams.params (NativeParams.urng_aux g)
          = Some (BGenParams gpa)) as H5 by (vm_compute; reflexivity).
  assert (jheap ready !! 500 = Some (JDoubleArray l)) as H6
    by (vm_compute; reflexivity).
  assert (Z.of_nat (length l) < NativeParams.dim g) as H7
    by (vm_compute; reflexivity).
  split; [repeat match goal with |- _ ∧ _ => split end; assumption|].
  exact (short_vector_is_rejected ready 1000 100 0.5 3 500 g gp gpa l
           H1 H2 H3 H4 H5 H6 H7).
Defined.

(** C9: when the exception class cannot be found, the short array is
    rejected without the array-too-short error. *)
Lemma short_vector_without_exception_class :
  ∃ s',
    Java_umontreal_ssj_randvar_RandUnuran_getRandVec
      1000 100 0.5 3 500 no_exception_class = Some (tt, s') ∧
    pending s'
      = Some (mkThrowable "java/lang/NoClassDefFoundError" UnuranException) ∧
    pending s' ≠ Some (mkThrowable UnuranException "array too short").
Proof.
  exists (after (Java_umontreal_ssj_randvar_RandUnuran_getRandVec
                   1000 100 0.5 3 500) no_exception_class).
  split; [vm_compute; reflexivity|].
  split; [vm_compute; reflexivity|].
  vm_compute. intros H. discriminate H.
Qed.

(** C10 on the state after a construction. *)
Lemma adapter_allocation_all_or_nothing_witness :
  reachable ready ∧ adapters_inv ready.
Proof.
  assert (reachable ready) as H.
  { apply (reach_init fresh ready 1000 100 "normal()").
    - apply reach_initial.
    - vm_compute. reflexivity. }
  split; [assumption|].
  exact (proj2 (proj2 (proj2 (proj2 (proj2
           adapter_allocation_all_or_nothing)))) ready H).
Defined.

End Concrete.
